(** * Septagon3D: polygon face placement, radial slide animation and clock

    A shallow embedding of [src/components/Septagon3D.tsx].

    JavaScript [number]s are IEEE-754 doubles; the geometry below idealises
    them as real numbers, so [+], [*], [/], [Math.sqrt], [Math.sin] and
    [Math.cos] are the exact operations of [R] and no rounding is modelled.
    Division by zero (which JavaScript answers with [Infinity] or [NaN]) is
    outside the idealisation: the theorems that depend on the value of a
    quotient carry the hypothesis that the divisor is not zero.  The lines
    that need no trigonometry are given a second time in binary64
    ([Float64]), where they compute, to evaluate the scenarios in the
    arithmetic the program runs in.

    Where a formula or a placement is stated, the idealisation is what is
    wanted.  How the distance of the tray evolves from frame to frame is
    another matter: fixed points, ranges and monotonicity over [R] are lost
    to the last bit of a double.  The frame callback is therefore given a
    third time ([Rounded]), over [R] with every operation followed by a
    rounding that is only assumed to meet the standard error bound of
    floating-point arithmetic, which rounding to binary64 ([Binary64]) is
    proved to meet, and the theorems about frames carry an explicit
    rounding tolerance.

    The calendar and string part (the clock) is modelled on [Z] and [string]
    and computes. *)

From Stdlib Require Import Floats.
From Stdlib Require Import Reals Machin Lra Lia ZArith List Bool String Ascii.
Import ListNotations.

Local Open Scope R_scope.

(** ** Completions

    A React component or a callback either returns or throws.  The error
    names are the ones the specification uses. *)

Inductive error : Type :=
| RangeError
| ConfigurationError
| TimingError.

Inductive completion (A : Type) : Type :=
| Normal (value : A)
| Throw (e : error).

Arguments Normal {A} value.
Arguments Throw {A} e.

Definition throws {A : Type} (c : completion A) : Prop :=
  exists e, c = Throw e.

Definition throws_with {A : Type} (e : error) (c : completion A) : Prop :=
  c = Throw e.

(** ** Vectors and [THREE.MathUtils] *)

Module Vector3.
Record t : Type := mk { x : R; y : R; z : R }.
End Vector3.

Module MathUtils.
(** three.js: [function lerp( x, y, t ) { return ( 1 - t ) * x + t * y; }] *)
Definition lerp (x y t : R) : R := (1 - t) * x + t * y.
End MathUtils.

(** What a component hands to the renderer for its outer [<mesh>]: where it
    is, how it is turned, and the [args] of the [<boxGeometry>] written
    first inside it.  For [Tray] and the dividers that box is the geometry
    of the mesh itself; for [SideBox] it is written inside the [<group>]
    the mesh holds, which is not a mesh, so those [args] are recorded here
    but describe nothing the scene draws. *)
Record mesh : Type := mkMesh {
  position : Vector3.t;
  rotation : Vector3.t;
  boxGeometry : R * R * R
}.

(** ** SideBox *)

Module SideBox.

Record props : Type := mkProps {
  index : R;
  radius : R;
  height : R;
  segments : R
}.

Section Body.
Variable p : props.

Definition angleStep : R := (PI * 2) / segments p.
Definition faceAngle : R := angleStep * (index p + 0.5).
Definition dist : R := radius p + 0.2.

Definition render : completion mesh :=
  Normal {|
    position := Vector3.mk (cos faceAngle * dist) (height p / 2)
                           (sin faceAngle * dist);
    rotation := Vector3.mk 0 (- faceAngle) 0;
    boxGeometry := (1.5, 0.8, 0.4)
  |}.
End Body.

(** The [<group rotation={[0, Math.PI / 2, 0]}>] inside the mesh, and the
    [position]s of the two detail meshes inside that group. *)
Definition groupRotationY : R := PI / 2.
Definition connectionDetail : Vector3.t := Vector3.mk 0 0 (-0.22).
Definition glowingDetail : Vector3.t := Vector3.mk 0.76 0 0.

End SideBox.

(** ** Tray *)

Module Tray.

Record props : Type := mkProps {
  index : R;
  radius : R;
  innerRadius : R;
  height : R;
  segments : R
}.

(** [isOpen] is the React state of the component, [meshRef] the mutable
    ref whose [current] is empty until the mesh is mounted; of the mounted
    mesh only [position] is ever read or written by the component. *)
Record state : Type := mkState {
  isOpen : bool;
  meshRef : option Vector3.t
}.

(** The interpolation line of the frame callback; [delta] is the time in
    seconds since the previous frame and [8] the hard-wired rate. *)
Definition newDist (currentDist targetDist delta : R) : R :=
  MathUtils.lerp currentDist targetDist (delta * 8).

Section Body.
Variable p : props.

Definition angleStep : R := (PI * 2) / segments p.
Definition faceAngle : R := angleStep * (index p + 0.5).

Definition length : R := radius p - innerRadius p - 0.4.
Definition width : R := 2 * innerRadius p * sin (angleStep / 2) - 0.15.
Definition trayHeight : R := height p * 0.6.

Definition startRadius : R := innerRadius p + (length / 2) + 0.1.
Definition closedDist : R := startRadius.
Definition openDist : R := closedDist + 1.5.

Definition targetDist (s : state) : R :=
  if isOpen s then openDist else closedDist.

(** The distance the callback derives from the rendered coordinates. *)
Definition currentDist (pos : Vector3.t) : R :=
  sqrt (Vector3.x pos * Vector3.x pos + Vector3.z pos * Vector3.z pos).

Definition useFrame (delta : R) (s : state) : state :=
  match meshRef s with
  | None => s
  | Some pos =>
      let d := newDist (currentDist pos) (targetDist s) delta in
      {| isOpen := isOpen s;
         meshRef := Some (Vector3.mk (cos faceAngle * d)
                                     (Vector3.y pos)
                                     (sin faceAngle * d)) |}
  end.

Definition onClick (s : state) : state :=
  {| isOpen := negb (isOpen s); meshRef := meshRef s |}.

Definition initialPosition : Vector3.t :=
  Vector3.mk (cos faceAngle * closedDist) (height p / 2)
             (sin faceAngle * closedDist).

Definition render : completion mesh :=
  Normal {|
    position := initialPosition;
    rotation := Vector3.mk 0 (- faceAngle) 0;
    boxGeometry := (length, trayHeight, width)
  |}.

(** [useState(false)] and the mesh mounted at its [position] prop. *)
Definition mounted : state :=
  {| isOpen := false; meshRef := Some initialPosition |}.

(** Before the mesh is attached the ref is empty. *)
Definition unmounted : state :=
  {| isOpen := false; meshRef := None |}.

(** What can happen to a tray: the renderer calls the frame callback
    with the elapsed time, or the user clicks the mesh. *)
Inductive event : Type :=
| Frame (delta : R)
| Click.

Definition step (s : state) (e : event) : state :=
  match e with
  | Frame delta => useFrame delta s
  | Click => onClick s
  end.

Definition run (es : list event) (s : state) : state :=
  fold_left step es s.

(** The distance the next frame would read back, when mounted. *)
Definition distance (s : state) : option R :=
  option_map currentDist (meshRef s).

(** How far that distance is from the target the state selects; an
    unmounted tray has no distance and no gap. *)
Definition gap (s : state) : R :=
  match meshRef s with
  | Some pos => Rabs (currentDist pos - targetDist s)
  | None => 0
  end.


(** The point of the face-centre ray at signed distance [d] and
    height [h]. *)
Definition onRay (d h : R) : Vector3.t :=
  Vector3.mk (cos faceAngle * d) h (sin faceAngle * d).

End Body.

(** [n] frames of the same length, and the interpolation line applied [n]
    times to a bare distance.  The callback reads the distance back as
    [Math.sqrt(x * x + z * z)] between two applications, which [newDistN]
    does not: the two agree only as long as no interpolated distance is
    negative ([run_frames_distance]). *)
Definition frames (n : nat) (delta : R) : list event :=
  repeat (Frame delta) n.

Definition newDistN (n : nat) (currentDist targetDist delta : R) : R :=
  Nat.iter n (fun d => newDist d targetDist delta) currentDist.

(** Frames of the given lengths, one after the other. *)
Definition frameList (deltas : list R) : list event := map Frame deltas.

(** How many clicks a sequence of events holds. *)
Fixpoint clicks (es : list event) : nat :=
  match es with
  | [] => 0
  | Click :: es' => S (clicks es')
  | Frame _ :: es' => clicks es'
  end.

(** The meshes nested in the tray's mesh, by their [position] in the frame
    of the tray and the [args] of their box: the front plate, the handle and
    the dark inset. *)
Definition frontPlate (p : props) : Vector3.t * (R * R * R) :=
  (Vector3.mk (length p / 2 + 0.02) 0 0,
   (0.04, trayHeight p + 0.05, width p + 0.1)).

Definition handle (p : props) : Vector3.t * (R * R * R) :=
  (Vector3.mk (length p / 2 + 0.05) 0 0,
   (0.02, trayHeight p * 0.5, 0.08)).

Definition content (p : props) : Vector3.t * (R * R * R) :=
  (Vector3.mk 0 0.05 0,
   (length p - 0.1, trayHeight p, width p - 0.1)).

(** The tray's mesh as the renderer holds it once the frame callback has
    put it at signed distance [d] and height [h]: [rotation] and the box
    are those of [render]. *)
Definition meshAt (p : props) (d h : R) : mesh :=
  {| position := onRay p d h;
     rotation := Vector3.mk 0 (- faceAngle p) 0;
     boxGeometry := (length p, trayHeight p, width p) |}.

End Tray.

(** ** Object3D

    three.js places a child in the frame of its parent: a point [v] of the
    child's frame is at [position + R v] in the parent's, where [R] is the
    rotation of the parent's Euler angles.  Every [rotation] of this file
    that carries a child has the form [[0, theta, 0]], for which
    [Matrix4.makeRotationFromEuler] gives the rows [(cos theta, 0, sin theta)],
    [(0, 1, 0)] and [(- sin theta, 0, cos theta)]. *)

Module Object3D.

Definition add (a b : Vector3.t) : Vector3.t :=
  Vector3.mk (Vector3.x a + Vector3.x b) (Vector3.y a + Vector3.y b)
             (Vector3.z a + Vector3.z b).

Definition rotateY (theta : R) (v : Vector3.t) : Vector3.t :=
  Vector3.mk (cos theta * Vector3.x v + sin theta * Vector3.z v)
             (Vector3.y v)
             (- sin theta * Vector3.x v + cos theta * Vector3.z v).

(** A point of the mesh's own frame, seen from the frame the mesh is
    placed in. *)
Definition localToWorld (m : mesh) (v : Vector3.t) : Vector3.t :=
  add (position m) (rotateY (Vector3.y (rotation m)) v).

(** The signed horizontal distance of [w] from the vertical plane through
    the axis in the direction [angle]; positive towards larger angles. *)
Definition side (angle : R) (w : Vector3.t) : R :=
  cos angle * Vector3.z w - sin angle * Vector3.x w.

(** How far along the direction [angle] the point [w] lies. *)
Definition along (angle : R) (w : Vector3.t) : R :=
  cos angle * Vector3.x w + sin angle * Vector3.z w.

End Object3D.

(** ** The dividers of SeptagonCase

    The body of the [map] callback, with the constants of the component and
    the index as variables. *)

Module Divider.

Section Body.
Variables radius innerRadius height segments : R.
Variable i : R.

Definition angle : R := (i * PI * 2) / segments.
Definition wallLength : R := radius - innerRadius - 0.25.
Definition distFromCenter : R := innerRadius + (wallLength / 2).
Definition x : R := cos angle * distFromCenter.
Definition z : R := sin angle * distFromCenter.

Definition box : mesh :=
  {| position := Vector3.mk x (height / 2) z;
     rotation := Vector3.mk 0 (- angle) 0;
     boxGeometry := (wallLength, height - 0.04, 0.08) |}.
End Body.

End Divider.

(** ** SeptagonCase *)

Module SeptagonCase.
Definition radius : R := 3.
Definition height : R := 1.5.
Definition segments : R := 7.
Definition innerRadius : R := 1.2.

(** [<Tray index={3} ... />] *)
Definition tray : Tray.props :=
  Tray.mkProps 3 radius innerRadius height segments.

(** [<SideBox index={0} ... />] *)
Definition sideBox : SideBox.props :=
  SideBox.mkProps 0 radius height segments.

(** [Array.from({ length: segments }).map((_, i) => ...)]: with [segments]
    being 7 the indices are 0 to 6. *)
Definition dividers : list mesh :=
  map (fun i => Divider.box radius innerRadius height segments (INR i))
      (seq 0 7).
End SeptagonCase.

(** ** The arithmetic in binary64

    The same lines of [Tray] on IEEE-754 doubles, the numbers of the
    program; [PI] is the double [Math.PI]. *)

Module Float64.

Local Open Scope float_scope.
Set Warnings "-inexact-float".

Definition PI : float := 0x1.921fb54442d18p+1.

Definition lerp (x y t : float) : float := (1 - t) * x + t * y.

Definition angleStep (segments : float) : float := (PI * 2) / segments.
Definition faceAngle (segments index : float) : float :=
  angleStep segments * (index + 0.5).

Definition length (radius innerRadius : float) : float :=
  radius - innerRadius - 0.4.
Definition startRadius (radius innerRadius : float) : float :=
  innerRadius + (length radius innerRadius / 2) + 0.1.
Definition closedDist (radius innerRadius : float) : float :=
  startRadius radius innerRadius.
Definition openDist (radius innerRadius : float) : float :=
  closedDist radius innerRadius + 1.5.

Definition newDist (currentDist targetDist delta : float) : float :=
  lerp currentDist targetDist (delta * 8).

Definition newDistN (n : nat) (currentDist targetDist delta : float) : float :=
  Nat.iter n (fun d => newDist d targetDist delta) currentDist.

(** [Math.sqrt(currentX * currentX + currentZ * currentZ)] *)
Definition currentDist (currentX currentZ : float) : float :=
  PrimFloat.sqrt (currentX * currentX + currentZ * currentZ).

Set Warnings "+inexact-float".

End Float64.

(** ** Rounding to binary64

    Rounding to nearest, ties to even, as a function on [R]: a number of
    magnitude between [2 ^ e] and [2 ^ (e + 1)], with [e] from -1022 to
    1023, is rounded to a multiple of [2 ^ (e - 52)], a smaller one to a
    multiple of [2 ^ -1074].  Below [2 ^ 1024] this is the rounding of the
    IEEE-754 operations; overflow, which gives [Infinity] there, is not
    modelled. *)

Module Binary64.

(** The integer nearest to [y], the even one of two that are as near. *)
Definition nearestEven (y : R) : Z :=
  let f := Zfloor y in
  if Rlt_dec (y - IZR f) (/ 2) then f
  else if Rlt_dec (/ 2) (y - IZR f) then (f + 1)%Z
  else if Z.even f then f else (f + 1)%Z.

(** The greatest [e] from -1022 to [n - 1022] with [2 ^ e <= a];
    -1022 when there is none. *)
Fixpoint exponentFrom (n : nat) (a : R) : Z :=
  match n with
  | O => (-1022)%Z
  | S m =>
      if Rle_dec (powerRZ 2 (Z.of_nat (S m) - 1022)) a
      then (Z.of_nat (S m) - 1022)%Z
      else exponentFrom m a
  end.

Definition exponent (x : R) : Z := exponentFrom 2045 (Rabs x).

(** The distance between the doubles around [x]. *)
Definition ulp (x : R) : R := powerRZ 2 (exponent x - 52).

Definition round (x : R) : R := IZR (nearestEven (x / ulp x)) * ulp x.

End Binary64.

(** ** The frame callback in rounded arithmetic

    The frame callback of [Tray] once more over [R], now with every
    operation followed by the rounding [rnd] of its exact result to a
    double, in the order JavaScript performs them:
    [(1 - t) * x + t * y] rounds four times, [Math.sqrt(x * x + z * z)]
    four times, each coordinate once.  [cosFace] and [sinFace] are the
    doubles [Math.cos(faceAngle)] and [Math.sin(faceAngle)], [closedDist],
    [openDist] and [height] the doubles of those names; the state is the
    one of [Tray].  With [rnd] the identity and the exact cosine and sine
    this is [Tray.useFrame] ([exactly]); with [rnd] the rounding to
    binary64 it is the callback on doubles ([septagon64]). *)

Module Rounded.

Record env : Type := mkEnv {
  rnd : R -> R;
  cosFace : R;
  sinFace : R;
  closedDist : R;
  openDist : R;
  height : R
}.

Section Body.
Variable e : env.

Definition lerp (x y t : R) : R :=
  rnd e (rnd e (rnd e (1 - t) * x) + rnd e (t * y)).

Definition newDist (currentDist targetDist delta : R) : R :=
  lerp currentDist targetDist (rnd e (delta * 8)).

Definition targetDist (s : Tray.state) : R :=
  if Tray.isOpen s then openDist e else closedDist e.

Definition currentDist (pos : Vector3.t) : R :=
  rnd e (sqrt (rnd e (rnd e (Vector3.x pos * Vector3.x pos)
                      + rnd e (Vector3.z pos * Vector3.z pos)))).

(** The point the two assignments of the callback put the mesh at, for
    the interpolated distance [d]; [h] is the height they leave alone. *)
Definition onRay (d h : R) : Vector3.t :=
  Vector3.mk (rnd e (cosFace e * d)) h (rnd e (sinFace e * d)).

Definition useFrame (delta : R) (s : Tray.state) : Tray.state :=
  match Tray.meshRef s with
  | None => s
  | Some pos =>
      let d := newDist (currentDist pos) (targetDist s) delta in
      {| Tray.isOpen := Tray.isOpen s;
         Tray.meshRef := Some (Vector3.mk (rnd e (cosFace e * d))
                                          (Vector3.y pos)
                                          (rnd e (sinFace e * d))) |}
  end.

Definition initialPosition : Vector3.t :=
  Vector3.mk (rnd e (cosFace e * closedDist e)) (rnd e (height e / 2))
             (rnd e (sinFace e * closedDist e)).

Definition mounted : Tray.state :=
  {| Tray.isOpen := false; Tray.meshRef := Some initialPosition |}.

Definition step (s : Tray.state) (ev : Tray.event) : Tray.state :=
  match ev with
  | Tray.Frame delta => useFrame delta s
  | Tray.Click => Tray.onClick s
  end.

Definition run (es : list Tray.event) (s : Tray.state) : Tray.state :=
  fold_left step es s.

(** The distance the next frame would read back, and how far it is from
    the target the state selects. *)
Definition distance (s : Tray.state) : option R :=
  option_map currentDist (Tray.meshRef s).

Definition gap (s : Tray.state) : R :=
  match Tray.meshRef s with
  | Some pos => Rabs (currentDist pos - targetDist s)
  | None => 0
  end.

End Body.

(** The standard model of floating-point arithmetic: an exact result [x]
    of magnitude at most [Omega] is rounded with an error of at most
    [u * |x| + tau * tau], and what is not negative is not rounded to
    something negative.  Rounding to nearest in binary64 has unit roundoff
    [u64], and [tau64 * tau64] is its smallest positive number, twice the
    largest error on a result too small to be normal; [Omega64] is below
    its largest number ([Binary64_arithmetic]). *)
Record arithmetic (u tau Omega : R) (rnd : R -> R) : Prop := {
  u_range : 0 <= u <= / 1024;
  tau_range : 0 <= tau <= / 1024;
  tau_u : tau * tau <= u;
  rnd_error : forall x, Rabs x <= Omega ->
                Rabs (rnd x - x) <= u * Rabs x + tau * tau;
  rnd_nonneg : forall x, 0 <= x -> 0 <= rnd x
}.

Definition u64 : R := / 2 ^ 53.
Definition tau64 : R := / 2 ^ 537.
Definition Omega64 : R := 2 ^ 1023.

(** The squares of the computed cosine and sine add up to 1 within
    [8 * u], as they do when each is off the cosine or sine of one angle by
    a relative error of at most [3 * u]. *)
Definition trigAccurate (u : R) (e : env) : Prop :=
  Rabs (cosFace e * cosFace e + sinFace e * sinFace e - 1) <= 8 * u.

(** The rounding error one frame can add to a distance, for a distance
    read back as [c] and a target [t]. *)
Definition tolerance (u tau c t : R) : R := 1024 * u * (c + t) + 64 * tau.

(** No rounding at all, on the tray with the properties [p]. *)
Definition exactly (p : Tray.props) : env :=
  {| rnd := fun x => x;
     cosFace := cos (Tray.faceAngle p);
     sinFace := sin (Tray.faceAngle p);
     closedDist := Tray.closedDist p;
     openDist := Tray.openDist p;
     height := Tray.height p |}.

(** The doubles of the tray of the case, [<Tray index={3} radius={3}
    innerRadius={1.2} height={1.5} segments={7} />]: its face angle is the
    double [Math.PI], whose cosine is -1 and whose sine is the double
    1.2246467991473532e-16, and its closed and open distances are the
    doubles 2 and 3.5 ([Float64_septagon_tray]). *)
Definition septagon64 : env :=
  {| rnd := Binary64.round;
     cosFace := -1;
     sinFace := 4967757600021511 / 2 ^ 105;
     closedDist := 2;
     openDist := 3.5;
     height := 1.5 |}.

End Rounded.

(** ** The operations as the specification words them *)

Module Spec.

Definition faceCenterAngle (segmentCount faceIndex : R) : R :=
  (faceIndex + 0.5) * (2 * PI / segmentCount).

Definition chordWidthAtRadius (radius segmentCount : R) : R :=
  2 * radius * sin (PI / segmentCount).

(** The constraints of a [PolygonSpec]. *)
Definition validPolygonSpec
    (segmentCount outerRadius innerRadius caseHeight : R) : Prop :=
  3 <= segmentCount /\ 0 < outerRadius /\
  0 < innerRadius < outerRadius /\ 0 < caseHeight.

(** A decimal quoted to four places: the value rounds to it. *)
Definition approx4 (value quoted : R) : Prop :=
  Rabs (value - quoted) <= 0.00005.

End Spec.

(** ** Dates

    [time] in [ClockContent] is a JavaScript [Date]: a time value, the
    number of milliseconds since the epoch, here an integer.  The functions
    are those of ECMA-262 (Time Values and Time Range), under their names. *)

Local Open Scope Z_scope.

Module Date.

Definition msPerSecond : Z := 1000.
Definition msPerMinute : Z := 60000.
Definition msPerHour : Z := 3600000.
Definition msPerDay : Z := 86400000.

Definition Day (t : Z) : Z := t / msPerDay.
Definition TimeWithinDay (t : Z) : Z := t mod msPerDay.

Definition DaysInYear (y : Z) : Z :=
  if negb (y mod 4 =? 0) then 365
  else if negb (y mod 100 =? 0) then 366
  else if negb (y mod 400 =? 0) then 365
  else 366.

Definition DayFromYear (y : Z) : Z :=
  365 * (y - 1970) + (y - 1969) / 4 - (y - 1901) / 100 + (y - 1601) / 400.

Definition TimeFromYear (y : Z) : Z := msPerDay * DayFromYear y.

(** ECMA-262 defines [YearFromTime(t)] as the largest [y] with
    [TimeFromYear(y) <= t]; this computes it from an estimate that is off
    by at most one ([YearFromTime_spec] below). *)
Definition YearFromTime (t : Z) : Z :=
  let d := Day t in
  let y := 1970 + (400 * d) / 146097 in
  if d <? DayFromYear y then y - 1
  else if DayFromYear (y + 1) <=? d then y + 1
  else y.

Definition InLeapYear (t : Z) : Z :=
  if DaysInYear (YearFromTime t) =? 366 then 1 else 0.

Definition DayWithinYear (t : Z) : Z :=
  Day t - DayFromYear (YearFromTime t).

Definition MonthFromTime (t : Z) : Z :=
  let d := DayWithinYear t in
  let l := InLeapYear t in
  if d <? 31 then 0
  else if d <? 59 + l then 1
  else if d <? 90 + l then 2
  else if d <? 120 + l then 3
  else if d <? 151 + l then 4
  else if d <? 181 + l then 5
  else if d <? 212 + l then 6
  else if d <? 243 + l then 7
  else if d <? 273 + l then 8
  else if d <? 304 + l then 9
  else if d <? 334 + l then 10
  else 11.

Definition DateFromTime (t : Z) : Z :=
  let d := DayWithinYear t in
  let l := InLeapYear t in
  match MonthFromTime t with
  | 0 => d + 1
  | 1 => d - 30
  | 2 => d - 58 - l
  | 3 => d - 89 - l
  | 4 => d - 119 - l
  | 5 => d - 150 - l
  | 6 => d - 180 - l
  | 7 => d - 211 - l
  | 8 => d - 242 - l
  | 9 => d - 272 - l
  | 10 => d - 303 - l
  | _ => d - 333 - l
  end.

Definition WeekDay (t : Z) : Z := (Day t + 4) mod 7.

Definition HourFromTime (t : Z) : Z := (t / msPerHour) mod 24.
Definition MinFromTime (t : Z) : Z := (t / msPerMinute) mod 60.
Definition SecFromTime (t : Z) : Z := (t / msPerSecond) mod 60.

(** [MakeDay]/[MakeTime]/[MakeDate] for a date given by its fields, used to
    write instants down ([month] counts from 0). *)
Definition daysBeforeMonth (y month : Z) : Z :=
  let l := if DaysInYear y =? 366 then 1 else 0 in
  match month with
  | 0 => 0
  | 1 => 31
  | 2 => 59 + l
  | 3 => 90 + l
  | 4 => 120 + l
  | 5 => 151 + l
  | 6 => 181 + l
  | 7 => 212 + l
  | 8 => 243 + l
  | 9 => 273 + l
  | 10 => 304 + l
  | _ => 334 + l
  end.

Definition UTC (y month date h m s : Z) : Z :=
  (DayFromYear y + daysBeforeMonth y month + (date - 1)) * msPerDay
  + h * msPerHour + m * msPerMinute + s * msPerSecond.

(** The length of month [month] (from 0) in a year that is a leap year
    when [leap] is 1. *)
Definition daysInMonth (month leap : Z) : Z :=
  match month with
  | 1 => 28 + leap
  | 3 | 5 | 8 | 10 => 30
  | _ => 31
  end.

End Date.

(** ** The [en-US] locale of [Intl.DateTimeFormat] (ECMA-402 with the CLDR
    data of the locale): the field renderings the three calls of
    [ClockContent] select. *)

Module Intl.

Local Open Scope string_scope.

Definition digit (d : Z) : ascii := ascii_of_nat (48 + Z.to_nat d).

(** ['2-digit']: two decimal digits, a leading zero when needed. *)
Definition twoDigit (n : Z) : string :=
  String (digit ((n mod 100) / 10)) (String (digit (n mod 10)) EmptyString).

(** ['numeric'] for a day of the month: no padding. *)
Definition numeric (n : Z) : string :=
  if (n <? 10)%Z then String (digit n) EmptyString else twoDigit n.

(** [weekday: 'long'] *)
Definition weekdayLong (wd : Z) : string :=
  match wd with
  | 0 => "Sunday"
  | 1 => "Monday"
  | 2 => "Tuesday"
  | 3 => "Wednesday"
  | 4 => "Thursday"
  | 5 => "Friday"
  | _ => "Saturday"
  end.

Definition weekdaysLong : list string :=
  ["Sunday"; "Monday"; "Tuesday"; "Wednesday"; "Thursday"; "Friday";
   "Saturday"].

(** [month: 'short'] *)
Definition monthShort (m : Z) : string :=
  match m with
  | 0 => "Jan"
  | 1 => "Feb"
  | 2 => "Mar"
  | 3 => "Apr"
  | 4 => "May"
  | 5 => "Jun"
  | 6 => "Jul"
  | 7 => "Aug"
  | 8 => "Sep"
  | 9 => "Oct"
  | 10 => "Nov"
  | _ => "Dec"
  end.

Definition monthsShort : list string :=
  ["Jan"; "Feb"; "Mar"; "Apr"; "May"; "Jun"; "Jul"; "Aug"; "Sep"; "Oct";
   "Nov"; "Dec"].

(** [hour12: false] resolves to one of the two 24-hour cycles: [h23]
    (hours 0-23) or, in engines that follow the older resolution rule for
    locales whose default is a 12-hour clock, [h24] (hours 1-24, midnight
    written 24). *)
Inductive hourCycle : Type := h23 | h24.

Definition hourField (hc : hourCycle) (h : Z) : Z :=
  match hc with
  | h23 => h
  | h24 => if (h =? 0)%Z then 24 else h
  end.

End Intl.

(** ** ClockContent *)

Module ClockContent.

Record snapshot : Type := mkSnapshot {
  dayString : string;
  timeString : string;
  dateString : string
}.

Section Body.
(** The host environment: the offset of local time from UTC at a time
    value, in milliseconds, and the hour cycle the engine resolves. *)
Variable LocalTZA : Z -> Z.
Variable hc : Intl.hourCycle.

Definition LocalTime (t : Z) : Z := t + LocalTZA t.

(** [time.toLocaleTimeString('en-US', { hour: '2-digit',
    minute: '2-digit', second: '2-digit', hour12: false })] *)
Definition toLocaleTimeString (time : Z) : string :=
  let t := LocalTime time in
  (Intl.twoDigit (Intl.hourField hc (Date.HourFromTime t)) ++ ":" ++
   Intl.twoDigit (Date.MinFromTime t) ++ ":" ++
   Intl.twoDigit (Date.SecFromTime t))%string.

(** [time.toLocaleDateString('en-US', { weekday: 'long' })] *)
Definition toLocaleDateString_weekday (time : Z) : string :=
  Intl.weekdayLong (Date.WeekDay (LocalTime time)).

(** [time.toLocaleDateString('en-US', { month: 'short',
    day: 'numeric' })] *)
Definition toLocaleDateString_monthDay (time : Z) : string :=
  let t := LocalTime time in
  (Intl.monthShort (Date.MonthFromTime t) ++ " " ++
   Intl.numeric (Date.DateFromTime t))%string.

(** The three strings the component renders from its [time] state. *)
Definition render (time : Z) : snapshot :=
  {| dayString := toLocaleDateString_weekday time;
     timeString := toLocaleTimeString time;
     dateString := toLocaleDateString_monthDay time |}.

(** [setInterval(() => setTime(new Date()), 1000)]: each tick replaces
    the state by the current instant. *)
Definition tick (now : Z) (time : Z) : Z := now.
End Body.

(** Recognisers for the shapes of the strings. *)
Definition isDigit (c : ascii) : bool :=
  (48 <=? Z.of_nat (nat_of_ascii c)) && (Z.of_nat (nat_of_ascii c) <=? 57).

Definition isLetter (c : ascii) : bool :=
  let n := Z.of_nat (nat_of_ascii c) in
  ((65 <=? n) && (n <=? 90)) || ((97 <=? n) && (n <=? 122)).

(** Exactly [dd:dd:dd]. *)
Definition isHHMMSS (s : string) : bool :=
  match list_ascii_of_string s with
  | [h1; h2; c1; m1; m2; c2; s1; s2] =>
      isDigit h1 && isDigit h2 && Ascii.eqb c1 ":" &&
      isDigit m1 && isDigit m2 && Ascii.eqb c2 ":" &&
      isDigit s1 && isDigit s2
  | _ => false
  end%char.

(** Exactly three letters, a space, and one or two digits. *)
Definition isMonD (s : string) : bool :=
  match list_ascii_of_string s with
  | [a; b; c; sp; d1] =>
      isLetter a && isLetter b && isLetter c && Ascii.eqb sp " " &&
      isDigit d1
  | [a; b; c; sp; d1; d2] =>
      isLetter a && isLetter b && isLetter c && Ascii.eqb sp " " &&
      isDigit d1 && isDigit d2
  | _ => false
  end%char.

(** Reading a decimal numeral back. *)
Definition digitValue (c : ascii) : Z := Z.of_nat (nat_of_ascii c) - 48.

Fixpoint parseDecimalFrom (acc : Z) (s : string) : Z :=
  match s with
  | EmptyString => acc
  | String c s' => parseDecimalFrom (10 * acc + digitValue c) s'
  end.

Definition parseDecimal (s : string) : Z := parseDecimalFrom 0 s.

End ClockContent.

(** ** Proof automation *)

(** Goals about [Rabs] of explicit expressions: split on the signs. *)
Ltac split_Rabs :=
  unfold Rabs in *;
  repeat match goal with
         | |- context [Rcase_abs ?x] => destruct (Rcase_abs x)
         | H : context [Rcase_abs ?x] |- _ => destruct (Rcase_abs x)
         end.

(** Linear integer goals with division and remainder by constants. *)
Ltac div_mod_lia := Z.div_mod_to_equations; lia.

(** * Properties *)

Local Open Scope R_scope.

(** ** Numeric facts used below *)

Lemma PI_bounds : 3.14159 < PI < 3.1416.
Proof.
  pose proof (PI_2_3_7_ineq 3) as [Hlo Hhi].
  unfold sum_f_R0, tg_alt, PI_2_3_7_tg, Ratan_seq in Hlo, Hhi.
  simpl in Hlo, Hhi.
  split; lra.
Qed.

Lemma sin_PI_7_bounds : 0.43388 < sin (PI / 7) < 0.43389.
Proof.
  pose proof PI_bounds as [Hlo Hhi].
  split.
  - apply Rlt_le_trans with (sin (3.14159 / 7)).
    + apply Rlt_le_trans with (sin_approx (3.14159 / 7) (2 * 1 + 1)).
      * unfold sin_approx, sin_term, sum_f_R0. simpl. lra.
      * apply sin_bound; lra.
    + apply sin_incr_1; lra.
  - apply Rle_lt_trans with (sin (3.1416 / 7)).
    + apply sin_incr_1; lra.
    + apply Rle_lt_trans with (sin_approx (3.1416 / 7) (2 * (0 + 1))).
      * apply sin_bound; lra.
      * unfold sin_approx, sin_term, sum_f_R0. simpl. lra.
Qed.

(** ** Face angles and widths *)

Lemma Tray_faceAngle_spec (p : Tray.props) :
  Tray.faceAngle p = Spec.faceCenterAngle (Tray.segments p) (Tray.index p).
Proof.
  unfold Tray.faceAngle, Tray.angleStep, Spec.faceCenterAngle, Rdiv. ring.
Qed.

Lemma SideBox_faceAngle_spec (p : SideBox.props) :
  SideBox.faceAngle p =
  Spec.faceCenterAngle (SideBox.segments p) (SideBox.index p).
Proof.
  unfold SideBox.faceAngle, SideBox.angleStep, Spec.faceCenterAngle, Rdiv.
  ring.
Qed.

Lemma faceCenterAngle_7_3 : Spec.faceCenterAngle 7 3 = PI.
Proof. unfold Spec.faceCenterAngle. lra. Qed.

Lemma Tray_angleStep_half (p : Tray.props) :
  Tray.segments p <> 0 -> Tray.angleStep p / 2 = PI / Tray.segments p.
Proof. intros Hs. unfold Tray.angleStep. field. exact Hs. Qed.

Lemma Tray_width_chord (p : Tray.props) :
  Tray.segments p <> 0 ->
  Tray.width p =
  Spec.chordWidthAtRadius (Tray.innerRadius p) (Tray.segments p) - 0.15.
Proof.
  intros Hs. unfold Tray.width, Spec.chordWidthAtRadius.
  rewrite (Tray_angleStep_half p Hs). reflexivity.
Qed.

Lemma chordWidth_septagon_bounds :
  1.04131 < Spec.chordWidthAtRadius 1.2 7 < 1.04134.
Proof.
  unfold Spec.chordWidthAtRadius.
  pose proof sin_PI_7_bounds. lra.
Qed.

Lemma Tray_render_normal (p : Tray.props) :
  Tray.render p =
  Normal {| position := Tray.initialPosition p;
            rotation := Vector3.mk 0 (- Tray.faceAngle p) 0;
            boxGeometry := (Tray.length p, Tray.trayHeight p, Tray.width p) |}.
Proof. reflexivity. Qed.

Lemma Normal_not_throws {A : Type} (c : completion A) (a : A) :
  c = Normal a -> ~ throws c.
Proof. intros -> [e He]. discriminate He. Qed.

(** C5. For every segment count of at least 3 and every face index in
    range, the face angle that [Tray] and [SideBox] compute is
    [(faceIndex + 0.5) * (2 PI / segmentCount)]; for the tray of the case
    (seven segments, face 3) it is [PI]. *)
Theorem faceAngle_is_faceCenterAngle
    (segments index radius innerRadius height : R) :
  3 <= segments -> 0 <= index < segments ->
  Tray.faceAngle (Tray.mkProps index radius innerRadius height segments)
    = (index + 0.5) * (2 * PI / segments)
  /\ SideBox.faceAngle (SideBox.mkProps index radius height segments)
    = (index + 0.5) * (2 * PI / segments)
  /\ Spec.faceCenterAngle segments index = (index + 0.5) * (2 * PI / segments)
  /\ Spec.faceCenterAngle 7 3 = 3.5 * (2 * PI / 7)
  /\ Tray.faceAngle SeptagonCase.tray = PI.
Proof.
  intros _ _. repeat split.
  - apply Tray_faceAngle_spec.
  - apply SideBox_faceAngle_spec.
  - unfold Spec.faceCenterAngle. lra.
  - rewrite Tray_faceAngle_spec. apply faceCenterAngle_7_3.
Qed.

Lemma faceAngle_is_faceCenterAngle_witness :
  3 <= 7 /\ 0 <= 3 < 7 /\
  Tray.faceAngle (Tray.mkProps 3 3 1.2 1.5 7) = (3 + 0.5) * (2 * PI / 7).
Proof.
  split; [lra | split; [lra | ]].
  apply (faceAngle_is_faceCenterAngle 7 3 3 1.2 1.5); lra.
Defined.

(** C6, as the code has it.  For every inner radius and every segment count
    of at least 3 the chord the tray is sized by,
    [2 * innerRadius * sin (angleStep / 2)], is
    [2 * radius * sin (PI / segmentCount)], and the tray's width is that
    chord less a clearance of 0.15; at radius 1.2 with seven segments the
    chord is 1.0413 to four places. *)
Theorem width_is_chord_less_clearance (p : Tray.props) :
  0 < Tray.innerRadius p -> 3 <= Tray.segments p ->
  2 * Tray.innerRadius p * sin (Tray.angleStep p / 2)
    = Spec.chordWidthAtRadius (Tray.innerRadius p) (Tray.segments p)
  /\ Spec.chordWidthAtRadius (Tray.innerRadius p) (Tray.segments p)
    = 2 * Tray.innerRadius p * sin (PI / Tray.segments p)
  /\ Tray.width p
    = Spec.chordWidthAtRadius (Tray.innerRadius p) (Tray.segments p) - 0.15
  /\ Spec.approx4 (Spec.chordWidthAtRadius 1.2 7) 1.0413.
Proof.
  intros _ Hs.
  assert (Hs0 : Tray.segments p <> 0) by lra.
  repeat split.
  - unfold Spec.chordWidthAtRadius.
    rewrite (Tray_angleStep_half p Hs0). reflexivity.
  - apply Tray_width_chord, Hs0.
  - unfold Spec.approx4. pose proof chordWidth_septagon_bounds.
    apply Rabs_le. lra.
Qed.

Lemma width_is_chord_less_clearance_witness :
  0 < 1.2 /\ 3 <= 7 /\
  Tray.width SeptagonCase.tray = Spec.chordWidthAtRadius 1.2 7 - 0.15.
Proof.
  split; [lra | split; [lra | ]].
  apply (width_is_chord_less_clearance SeptagonCase.tray); simpl;
    unfold SeptagonCase.innerRadius, SeptagonCase.segments; lra.
Defined.

(** C6, as the specification words it, fails in its example: the chord at
    radius 1.2 with seven segments does not round to 1.0419. *)
Lemma chordWidth_1_2_7_is_not_1_0419 :
  ~ Spec.approx4 (Spec.chordWidthAtRadius 1.2 7) 1.0419.
Proof.
  unfold Spec.approx4. intros H.
  pose proof chordWidth_septagon_bounds as [_ Hhi].
  split_Rabs; lra.
Qed.

(** ** No validation of the index or of the segment count *)

Lemma SideBox_render_normal (p : SideBox.props) :
  SideBox.render p =
  Normal {| position :=
              Vector3.mk (cos (SideBox.faceAngle p) * SideBox.dist p)
                         (SideBox.height p / 2)
                         (sin (SideBox.faceAngle p) * SideBox.dist p);
            rotation := Vector3.mk 0 (- SideBox.faceAngle p) 0;
            boxGeometry := (1.5, 0.8, 0.4) |}.
Proof. reflexivity. Qed.

Lemma Tray_render_returns (p : Tray.props) : ~ throws (Tray.render p).
Proof. eapply Normal_not_throws, Tray_render_normal. Qed.

Lemma SideBox_render_returns (p : SideBox.props) :
  ~ throws (SideBox.render p).
Proof. eapply Normal_not_throws, SideBox_render_normal. Qed.

Lemma Tray_faceAngle_shift (index radius innerRadius height segments : R) :
  segments <> 0 ->
  Tray.faceAngle
    (Tray.mkProps (index + segments) radius innerRadius height segments)
  = Tray.faceAngle (Tray.mkProps index radius innerRadius height segments)
    + 2 * PI.
Proof.
  intros Hs. unfold Tray.faceAngle, Tray.angleStep. simpl. field. exact Hs.
Qed.

Lemma Tray_faceAngle_increasing
    (index index' radius innerRadius height segments : R) :
  0 < segments -> index < index' ->
  Tray.faceAngle (Tray.mkProps index radius innerRadius height segments)
  < Tray.faceAngle (Tray.mkProps index' radius innerRadius height segments).
Proof.
  intros Hs Hi. unfold Tray.faceAngle, Tray.angleStep. simpl.
  apply Rmult_lt_compat_l; [ | lra].
  apply Rdiv_lt_0_compat; [ | exact Hs].
  pose proof PI_RGT_0. lra.
Qed.

(** C3, as the specification words it, fails: with seven segments the index
    7 is out of range, and both components return, turned by the
    extrapolated angle [15 PI / 7]. *)
Lemma faceAngle_index_7_of_7_returns :
  ~ (0 <= 7 < 7)
  /\ ~ throws (Tray.render (Tray.mkProps 7 3 1.2 1.5 7))
  /\ ~ throws (SideBox.render (SideBox.mkProps 7 3 1.5 7))
  /\ Tray.faceAngle (Tray.mkProps 7 3 1.2 1.5 7) = 15 * PI / 7
  /\ SideBox.faceAngle (SideBox.mkProps 7 3 1.5 7) = 15 * PI / 7.
Proof.
  split; [lra | ].
  split; [apply Tray_render_returns | ].
  split; [apply SideBox_render_returns | ].
  split.
  - unfold Tray.faceAngle, Tray.angleStep. simpl. lra.
  - unfold SideBox.faceAngle, SideBox.angleStep. simpl. lra.
Qed.

(** C3, as the code has it.  The face angle is computed with no range
    check: for every positive segment count and every index, in range or
    not, [Tray] and [SideBox] return, turned by
    [-(index + 0.5) * (2 PI / segments)]; the angle is not wrapped (an index
    one full turn further gives an angle [2 PI] larger) and not clamped (it
    is strictly increasing in the index). *)
Theorem faceAngle_is_unchecked
    (index radius innerRadius height segments : R) :
  0 < segments ->
  (exists m,
      Tray.render (Tray.mkProps index radius innerRadius height segments)
        = Normal m
      /\ rotation m
         = Vector3.mk 0 (- Spec.faceCenterAngle segments index) 0)
  /\ (exists m,
      SideBox.render (SideBox.mkProps index radius height segments)
        = Normal m
      /\ rotation m
         = Vector3.mk 0 (- Spec.faceCenterAngle segments index) 0)
  /\ Tray.faceAngle
       (Tray.mkProps (index + segments) radius innerRadius height segments)
     = Tray.faceAngle
         (Tray.mkProps index radius innerRadius height segments) + 2 * PI
  /\ (forall index', index < index' ->
      Tray.faceAngle (Tray.mkProps index radius innerRadius height segments)
      < Tray.faceAngle
          (Tray.mkProps index' radius innerRadius height segments)).
Proof.
  intros Hs. repeat split.
  - eexists. split; [apply Tray_render_normal | ].
    simpl. rewrite Tray_faceAngle_spec. reflexivity.
  - eexists. split; [apply SideBox_render_normal | ].
    simpl. rewrite SideBox_faceAngle_spec. reflexivity.
  - apply Tray_faceAngle_shift. lra.
  - intros index' Hi. apply Tray_faceAngle_increasing; assumption.
Qed.

Lemma faceAngle_is_unchecked_witness :
  0 < 7 /\
  Tray.faceAngle (Tray.mkProps (7 + 7) 3 1.2 1.5 7)
  = Tray.faceAngle (Tray.mkProps 7 3 1.2 1.5 7) + 2 * PI.
Proof.
  split; [lra | ].
  apply (faceAngle_is_unchecked 7 3 1.2 1.5 7). lra.
Defined.

(** C4, as the specification words it, fails: a tray and a side box given
    two segments return; nothing raises a configuration error. *)
Lemma segmentCount_2_returns :
  ~ (3 <= 2)
  /\ ~ throws (Tray.render (Tray.mkProps 3 3 1.2 1.5 2))
  /\ ~ throws_with ConfigurationError
         (Tray.render (Tray.mkProps 3 3 1.2 1.5 2))
  /\ ~ throws (SideBox.render (SideBox.mkProps 0 3 1.5 2)).
Proof.
  split; [lra | ].
  split; [apply Tray_render_returns | ].
  split; [ | apply SideBox_render_returns].
  unfold throws_with. rewrite Tray_render_normal. discriminate.
Qed.

(** C4, as the code has it.  The dimensions of the case are constants that
    satisfy the constraints of a [PolygonSpec]; nothing validates them, and
    [Tray] and [SideBox] return for every props: given two segments they
    lay out a degenerate two-sided polygon, faces a half turn apart and a
    tray as wide as the inner diameter less the clearance. *)
Theorem segmentCount_is_unchecked :
  Spec.validPolygonSpec SeptagonCase.segments SeptagonCase.radius
                        SeptagonCase.innerRadius SeptagonCase.height
  /\ (forall p, exists m, Tray.render p = Normal m)
  /\ (forall p, exists m, SideBox.render p = Normal m)
  /\ (forall index radius innerRadius height,
        let p := Tray.mkProps index radius innerRadius height 2 in
        Tray.faceAngle p = PI * (index + 0.5)
        /\ Tray.width p = 2 * innerRadius - 0.15).
Proof.
  split; [ | split; [ | split]].
  - unfold Spec.validPolygonSpec, SeptagonCase.segments, SeptagonCase.radius,
      SeptagonCase.innerRadius, SeptagonCase.height. lra.
  - intros p. eexists. apply Tray_render_normal.
  - intros p. eexists. apply SideBox_render_normal.
  - intros index radius innerRadius height p. split.
    + unfold Tray.faceAngle, Tray.angleStep. simpl. field.
    + unfold Tray.width, Tray.angleStep. simpl.
      replace (PI * 2 / 2 / 2) with (PI / 2) by field.
      rewrite sin_PI2. ring.
Qed.

(** ** The scenarios in binary64 *)

Set Warnings "-inexact-float".

(** The tray of the case: face angle [Math.PI], closed at 2, open at 3.5,
    all exactly. *)
Example Float64_septagon_tray :
  Float64.faceAngle 7 3 = Float64.PI
  /\ Float64.closedDist 3 1.2 = 2%float
  /\ Float64.openDist 3 1.2 = 3.5%float.
Proof. repeat split. Qed.

(** Ten frames of 0.1 s against one frame of 1 s, from 2 towards 3.5. *)
Example Float64_ten_short_frames_one_long_frame :
  (3.49 <? Float64.newDistN 10 2 3.5 0.1)%float = true
  /\ (Float64.newDistN 10 2 3.5 0.1 <? 3.5)%float = true
  /\ Float64.newDistN 1 2 3.5 1 = 14%float.
Proof. repeat split. Qed.

(** A frame of 1 s when closing from 3.5 towards 2 interpolates to -8.5;
    on the ray of angle [Math.PI], whose cosine is -1 and whose sine is the
    double 1.2246467991473532e-16, that is the point read back at distance
    8.5. *)
Example Float64_negative_distance_read_back :
  Float64.newDist 3.5 2 1 = (-8.5)%float
  /\ Float64.currentDist (-1 * -8.5) (1.2246467991473532e-16 * -8.5)
     = 8.5%float.
Proof. repeat split. Qed.

(** The tray clicked open, a frame of 1/8 s, the tray clicked closed and a
    frame of 1 s, as above; the frame after that, of length 0, interpolates
    from the 8.5 read back to 8.5: the coordinate along the ray goes from
    8.5 to -8.5. *)
Example Float64_zero_length_frame_jump :
  Float64.newDist 2 3.5 0.125 = 3.5%float
  /\ Float64.newDist 3.5 2 1 = (-8.5)%float
  /\ (-1 * -8.5 = 8.5)%float
  /\ Float64.currentDist (-1 * -8.5) (1.2246467991473532e-16 * -8.5)
     = 8.5%float
  /\ Float64.newDist 8.5 2 0 = 8.5%float
  /\ (-1 * 8.5 = -8.5)%float.
Proof. repeat split. Qed.

(** The double 1.2246467991473532e-16, the sine of [Math.PI], is
    4967757600021511 * 2 ^ -105. *)
Example Float64_sine_of_PI :
  Prim2SF 1.2246467991473532e-16
  = SpecFloat.S754_finite false 4967757600021511 (-105).
Proof. reflexivity. Qed.

(** Rounding alone moves a tray: at its target 3.5 a frame of 0.0166 s
    interpolates to the double below 3.5, and just above its target 2 a
    frame of 1/60 s interpolates away from the target; both by less than
    1e-15. *)
Example Float64_rounding_widens_gap :
  Float64.newDist 3.5 3.5 0.0166 = 3.4999999999999996%float
  /\ Float64.newDist 2.000000000000002 2 (1 / 60)
     = 2.0000000000000022%float
  /\ (3.5 - Float64.newDist 3.5 3.5 0.0166 <? 1e-15)%float = true
  /\ (Float64.newDist 2.000000000000002 2 (1 / 60) - 2.000000000000002
      <? 1e-15)%float = true.
Proof. repeat split. Qed.

Set Warnings "+inexact-float".

(** ** The frame callback *)

Section TrayFacts.
Variable p : Tray.props.

Lemma currentDist_nonneg (pos : Vector3.t) : 0 <= Tray.currentDist pos.
Proof. unfold Tray.currentDist. apply sqrt_pos. Qed.

(** Reading the distance back from a point of the ray gives the absolute
    value of its signed distance. *)
Lemma currentDist_onRay (d h : R) :
  Tray.currentDist (Tray.onRay p d h) = Rabs d.
Proof.
  unfold Tray.currentDist, Tray.onRay. simpl.
  set (a := Tray.faceAngle p).
  replace (cos a * d * (cos a * d) + sin a * d * (sin a * d))
    with ((Rsqr (sin a) + Rsqr (cos a)) * Rsqr d)
    by (unfold Rsqr; ring).
  rewrite sin2_cos2, Rmult_1_l. apply sqrt_Rsqr_abs.
Qed.

Lemma useFrame_mounted (delta : R) (s : Tray.state) (pos : Vector3.t) :
  Tray.meshRef s = Some pos ->
  Tray.useFrame p delta s =
  {| Tray.isOpen := Tray.isOpen s;
     Tray.meshRef :=
       Some (Tray.onRay p
               (Tray.newDist (Tray.currentDist pos)
                             (Tray.targetDist p s) delta)
               (Vector3.y pos)) |}.
Proof. intros H. unfold Tray.useFrame. rewrite H. reflexivity. Qed.

Lemma useFrame_unmounted (delta : R) (s : Tray.state) :
  Tray.meshRef s = None -> Tray.useFrame p delta s = s.
Proof. intros H. unfold Tray.useFrame. rewrite H. reflexivity. Qed.

Lemma useFrame_isOpen (delta : R) (s : Tray.state) :
  Tray.isOpen (Tray.useFrame p delta s) = Tray.isOpen s.
Proof. unfold Tray.useFrame. destruct (Tray.meshRef s); reflexivity. Qed.

Lemma useFrame_targetDist (delta : R) (s : Tray.state) :
  Tray.targetDist p (Tray.useFrame p delta s) = Tray.targetDist p s.
Proof. unfold Tray.targetDist. rewrite useFrame_isOpen. reflexivity. Qed.

Lemma useFrame_distance (delta : R) (s : Tray.state) (pos : Vector3.t) :
  Tray.meshRef s = Some pos ->
  Tray.distance (Tray.useFrame p delta s) =
  Some (Rabs (Tray.newDist (Tray.currentDist pos)
                           (Tray.targetDist p s) delta)).
Proof.
  intros H. rewrite (useFrame_mounted delta s pos H).
  unfold Tray.distance. simpl. rewrite currentDist_onRay. reflexivity.
Qed.




End TrayFacts.

(** The interpolation line scales the signed gap to the target. *)
Lemma newDist_gap (c t delta : R) :
  Tray.newDist c t delta - t = (1 - delta * 8) * (c - t).
Proof. unfold Tray.newDist, MathUtils.lerp. ring. Qed.

Lemma newDistN_S (n : nat) (c t delta : R) :
  Tray.newDistN (S n) c t delta
  = Tray.newDist (Tray.newDistN n c t delta) t delta.
Proof. reflexivity. Qed.

Lemma newDistN_gap (n : nat) (c t delta : R) :
  Tray.newDistN n c t delta - t = (1 - delta * 8) ^ n * (c - t).
Proof.
  induction n as [ | n IH].
  - simpl. unfold Tray.newDistN. simpl. ring.
  - rewrite newDistN_S, newDist_gap, IH. simpl. ring.
Qed.

(** With frames short enough not to overshoot and a target that is not
    negative, the read-back never takes an absolute value, and [n] frames
    move the tray as [n] applications of the interpolation line. *)
Lemma newDist_nonneg (c t delta : R) :
  0 <= c -> 0 <= t -> 0 <= delta * 8 <= 1 -> 0 <= Tray.newDist c t delta.
Proof.
  intros Hc Ht Hd. unfold Tray.newDist, MathUtils.lerp.
  assert (0 <= (1 - delta * 8) * c) by (apply Rmult_le_pos; lra).
  assert (0 <= delta * 8 * t) by (apply Rmult_le_pos; lra).
  lra.
Qed.

Lemma run_frames_distance (p : Tray.props) (n : nat) (delta : R)
    (s : Tray.state) (pos : Vector3.t) :
  Tray.meshRef s = Some pos ->
  0 <= Tray.targetDist p s -> 0 <= delta * 8 <= 1 ->
  Tray.distance (Tray.run p (Tray.frames n delta) s)
  = Some (Tray.newDistN n (Tray.currentDist pos) (Tray.targetDist p s) delta).
Proof.
  revert s pos. induction n as [ | n IH]; intros s pos Hm Ht Hd.
  - simpl. unfold Tray.distance. rewrite Hm. reflexivity.
  - change (Tray.run p (Tray.frames (S n) delta) s)
      with (Tray.run p (Tray.frames n delta) (Tray.useFrame p delta s)).
    pose proof (currentDist_nonneg pos) as Hc.
    pose proof (newDist_nonneg _ _ _ Hc Ht Hd) as Hn.
    pose proof (useFrame_mounted p delta s pos Hm) as Hs'.
    pose proof (useFrame_targetDist p delta s) as Ht'.
    set (s' := Tray.useFrame p delta s) in *.
    assert (Hm' : Tray.meshRef s' = Some
              (Tray.onRay p (Tray.newDist (Tray.currentDist pos)
                                          (Tray.targetDist p s) delta)
                          (Vector3.y pos)))
      by (rewrite Hs'; reflexivity).
    rewrite (IH s' _ Hm'); rewrite ?Ht'; try assumption.
    rewrite currentDist_onRay, (Rabs_pos_eq _ Hn).
    f_equal. clear.
    induction n as [ | n IHn].
    + reflexivity.
    + rewrite !newDistN_S. rewrite IHn. reflexivity.
Qed.

(** ** The tray of the case *)

Lemma septagon_closedDist : Tray.closedDist SeptagonCase.tray = 2.
Proof.
  unfold Tray.closedDist, Tray.startRadius, Tray.length. simpl.
  unfold SeptagonCase.radius, SeptagonCase.innerRadius. lra.
Qed.

Lemma septagon_openDist : Tray.openDist SeptagonCase.tray = 3.5.
Proof. unfold Tray.openDist. rewrite septagon_closedDist. lra. Qed.

(** The tray of the case just after a click: mounted at distance 2, target
    3.5. *)
Lemma septagon_clicked :
  let s := Tray.onClick (Tray.mounted SeptagonCase.tray) in
  Tray.meshRef s = Some (Tray.initialPosition SeptagonCase.tray)
  /\ Tray.currentDist (Tray.initialPosition SeptagonCase.tray) = 2
  /\ Tray.targetDist SeptagonCase.tray s = 3.5.
Proof.
  simpl. split; [reflexivity | split].
  - change (Tray.initialPosition SeptagonCase.tray)
      with (Tray.onRay SeptagonCase.tray (Tray.closedDist SeptagonCase.tray)
                       (Tray.height SeptagonCase.tray / 2)).
    rewrite currentDist_onRay, septagon_closedDist. apply Rabs_pos_eq. lra.
  - unfold Tray.targetDist. simpl. apply septagon_openDist.
Qed.

(** The tray of the case points along the negative x axis. *)
Lemma septagon_faceAngle : Tray.faceAngle SeptagonCase.tray = PI.
Proof.
  rewrite Tray_faceAngle_spec. simpl. unfold SeptagonCase.segments.
  apply faceCenterAngle_7_3.
Qed.

Lemma septagon_onRay (d h : R) :
  Tray.onRay SeptagonCase.tray d h = Vector3.mk (- d) h 0.
Proof.
  unfold Tray.onRay. rewrite septagon_faceAngle, cos_PI, sin_PI.
  f_equal; ring.
Qed.

(** ** The callback in rounded arithmetic *)

Section RoundedFacts.
Variables (u tau Omega : R) (E : Rounded.env).
Hypothesis Harith : Rounded.arithmetic u tau Omega (Rounded.rnd E).


Lemma Rabs_le_both (x y : R) : Rabs x <= y -> - y <= x <= y.
Proof. intros H. split_Rabs; lra. Qed.

Lemma rnd_near (x b : R) :
  Rabs x <= b -> b <= Omega ->
  - (u * b + tau * tau) <= Rounded.rnd E x - x <= u * b + tau * tau.
Proof.
  intros Hx Hb. destruct Harith as [[Hu0 Hu1] _ _ Herr _].
  assert (H : Rabs (Rounded.rnd E x - x) <= u * Rabs x + tau * tau)
    by (apply Herr; lra).
  assert (Hub : u * Rabs x <= u * b) by (apply Rmult_le_compat_l; lra).
  apply Rabs_le_both. lra.
Qed.

Lemma sq_small : 0 <= tau * tau <= tau /\ tau * tau <= / 1024.
Proof.
  pose proof (Rounded.tau_range _ _ _ _ Harith) as [Ht0 Ht1].
  assert (H0 : 0 <= tau * tau) by (apply Rmult_le_pos; lra).
  assert (H1 : tau * tau <= tau * 1) by (apply Rmult_le_compat_l; lra).
  lra.
Qed.

Lemma u_times (x : R) : 0 <= x -> 0 <= u * x <= x / 1024.
Proof.
  intros Hx. pose proof (Rounded.u_range _ _ _ _ Harith) as [Hu0 Hu1].
  split; [apply Rmult_le_pos; lra | ].
  unfold Rdiv. rewrite (Rmult_comm x). apply Rmult_le_compat_r; lra.
Qed.

Lemma tt_times (x : R) : 0 <= x -> 0 <= tau * tau * x <= u * x.
Proof.
  intros Hx. pose proof (Rounded.tau_u _ _ _ _ Harith) as Htu.
  pose proof sq_small as [[H0 _] _].
  split; [apply Rmult_le_pos; lra | apply Rmult_le_compat_r; lra].
Qed.

Lemma lerp_error (c t k : R) :
  0 <= c -> 0 <= t -> 0 <= k <= 8 -> 16 * (c + t + 1) <= Omega ->
  Rabs (Rounded.lerp E c t k - ((1 - k) * c + k * t))
  <= 32 * u * (c + t) + 4 * (tau * tau).
Proof.
  intros Hc Ht Hk HO.
  pose proof (Rounded.u_range _ _ _ _ Harith) as [Hu0 Hu1].
  pose proof sq_small as [[Htt0 _] Htt1].
  pose proof (u_times c Hc) as Huc.
  pose proof (u_times t Ht) as Hut.
  pose proof (tt_times c Hc) as Httc.
  pose proof (u_times (tau * tau) Htt0) as Hutt.
  unfold Rounded.lerp.
  set (a1 := Rounded.rnd E (1 - k)).
  assert (H1 : - (u * 7 + tau * tau) <= a1 - (1 - k) <= u * 7 + tau * tau).
  { apply rnd_near; [split_Rabs; lra | lra]. }
  assert (Ha1 : -8 <= a1 <= 8) by lra.
  set (m1 := Rounded.rnd E (a1 * c)).
  assert (Ha1c : - (8 * c) <= a1 * c <= 8 * c).
  { split.
    - replace (- (8 * c)) with (-8 * c) by ring.
      apply Rmult_le_compat_r; lra.
    - apply Rmult_le_compat_r; lra. }
  assert (H2 : - (u * (8 * c) + tau * tau) <= m1 - a1 * c
               <= u * (8 * c) + tau * tau).
  { apply rnd_near; [apply Rabs_le; lra | lra]. }
  set (m2 := Rounded.rnd E (k * t)).
  assert (Hkt : 0 <= k * t <= 8 * t).
  { split; [apply Rmult_le_pos; lra | apply Rmult_le_compat_r; lra]. }
  assert (H3 : - (u * (8 * t) + tau * tau) <= m2 - k * t
               <= u * (8 * t) + tau * tau).
  { apply rnd_near; [apply Rabs_le; lra | lra]. }
  assert (H4 : - (u * (9 * (c + t) + 2 * (tau * tau)) + tau * tau)
               <= Rounded.rnd E (m1 + m2) - (m1 + m2)
               <= u * (9 * (c + t) + 2 * (tau * tau)) + tau * tau).
  { apply rnd_near; [apply Rabs_le; lra | lra]. }
  assert (Hd : - ((u * 7 + tau * tau) * c) <= (a1 - (1 - k)) * c
               <= (u * 7 + tau * tau) * c).
  { split.
    - replace (- ((u * 7 + tau * tau) * c))
        with ((- (u * 7 + tau * tau)) * c) by ring.
      apply Rmult_le_compat_r; lra.
    - apply Rmult_le_compat_r; lra. }
  apply Rabs_le. split; lra.
Qed.

Lemma abs_sq (x : R) : Rabs x * Rabs x = x * x.
Proof. split_Rabs; ring. Qed.

Lemma abs_le_of_sq (x y : R) : 0 <= y -> x * x <= y * y -> Rabs x <= y.
Proof.
  intros Hy H. rewrite <- (Rabs_pos_eq y Hy).
  apply Rsqr_le_abs_0. unfold Rsqr. exact H.
Qed.

Lemma sq_error (X x b e : R) :
  Rabs X <= b -> Rabs (x - X) <= e ->
  Rabs (x * x - X * X) <= 2 * (b * e) + e * e.
Proof.
  intros HX He.
  assert (Hb : 0 <= b) by (pose proof (Rabs_pos X); lra).
  assert (He0 : 0 <= e) by (pose proof (Rabs_pos (x - X)); lra).
  replace (x * x - X * X) with ((x - X) * (x - X) + 2 * (X * (x - X)))
    by ring.
  eapply Rle_trans; [apply Rabs_triang | ].
  rewrite !Rabs_mult, (Rabs_pos_eq 2) by lra.
  assert (H1 : Rabs (x - X) * Rabs (x - X) <= e * e)
    by (apply Rmult_le_compat; try apply Rabs_pos; assumption).
  assert (H2 : Rabs X * Rabs (x - X) <= b * e)
    by (apply Rmult_le_compat; try apply Rabs_pos; assumption).
  lra.
Qed.

Hypothesis Htrig : Rounded.trigAccurate u E.

(** The square of a computed coordinate against the exact square. *)
Lemma coord_sq (f d : R) :
  f * f <= 4 -> 2 * Rabs d <= Omega ->
  let a := Rabs d in
  let W := tau * tau in
  Rabs (Rounded.rnd E (f * d) * Rounded.rnd E (f * d) - (f * d) * (f * d))
  <= 9 * (u * (a * a)) + 5 * (a * W) + W * W.
Proof.
  intros Hf HO a W.
  pose proof (Rounded.u_range _ _ _ _ Harith) as [Hu0 Hu1].
  pose proof sq_small as [[HW0 _] HW1]. fold W in HW0, HW1.
  assert (Ha : 0 <= a) by apply Rabs_pos.
  assert (HA : 0 <= a * a) by (apply Rmult_le_pos; exact Ha).
  assert (HX : Rabs (f * d) <= 2 * a).
  { apply abs_le_of_sq; [lra | ].
    replace (f * d * (f * d)) with (f * f * (d * d)) by ring.
    rewrite <- (abs_sq d). fold a.
    replace (2 * a * (2 * a)) with (4 * (a * a)) by ring.
    apply Rmult_le_compat_r; lra. }
  assert (He : Rabs (Rounded.rnd E (f * d) - f * d) <= u * (2 * a) + W).
  { apply Rabs_le. apply rnd_near; [exact HX | exact HO]. }
  eapply Rle_trans; [apply (sq_error _ _ _ _ HX He) | ].
  pose proof (u_times (a * a) HA) as H1.
  pose proof (u_times (u * (a * a)) (proj1 H1)) as H2.
  assert (HaW : 0 <= a * W) by (apply Rmult_le_pos; lra).
  pose proof (u_times (a * W) HaW) as H3.
  lra.
Qed.

Lemma trig_bounds :
  1 - 8 * u
  <= Rounded.cosFace E * Rounded.cosFace E
     + Rounded.sinFace E * Rounded.sinFace E
  <= 1 + 8 * u
  /\ Rounded.cosFace E * Rounded.cosFace E <= 4
  /\ Rounded.sinFace E * Rounded.sinFace E <= 4.
Proof.
  pose proof (Rounded.u_range _ _ _ _ Harith) as [Hu0 Hu1].
  unfold Rounded.trigAccurate in Htrig. apply Rabs_le_both in Htrig.
  pose proof (Rle_0_sqr (Rounded.cosFace E)) as Hc.
  pose proof (Rle_0_sqr (Rounded.sinFace E)) as Hs.
  unfold Rsqr in Hc, Hs. repeat split; lra.
Qed.

Lemma sqrt_below (s hi : R) : 0 <= hi -> s <= hi * hi -> sqrt s <= hi.
Proof.
  intros Hhi H. rewrite <- (sqrt_square hi Hhi). apply sqrt_le_1_alt, H.
Qed.

Lemma sqrt_above (s lo : R) : 0 <= lo -> lo * lo <= s -> lo <= sqrt s.
Proof.
  intros Hlo H. rewrite <- (sqrt_square lo Hlo). apply sqrt_le_1_alt, H.
Qed.

Lemma readBack_error (d h : R) :
  16 * ((Rabs d + 1) * (Rabs d + 1)) <= Omega ->
  Rabs (Rounded.currentDist E (Rounded.onRay E d h)
        - Rabs d)
  <= 64 * u * Rabs d + 8 * tau.
Proof.
  intros HO.
  pose proof (Rounded.u_range _ _ _ _ Harith) as [Hu0 Hu1].
  pose proof (Rounded.tau_range _ _ _ _ Harith) as [Ht0 Ht1].
  pose proof sq_small as [[HW0 HWt] HW1].
  pose proof trig_bounds as [[Hg0 Hg1] [Hcc Hss]].
  unfold Rounded.currentDist, Rounded.onRay. simpl.
  set (a := Rabs d) in *. set (W := tau * tau) in *.
  assert (Ha : 0 <= a) by apply Rabs_pos.
  assert (HA : 0 <= a * a) by (apply Rmult_le_pos; exact Ha).
  assert (HaW : 0 <= a * W) by (apply Rmult_le_pos; lra).
  assert (Hat : 0 <= a * tau) by (apply Rmult_le_pos; lra).
  (* monomial facts *)
  pose proof (u_times (a * a) HA) as M1.
  pose proof (u_times (a * W) HaW) as M2.
  pose proof (u_times W HW0) as M3.
  pose proof (u_times (W * W) ltac:(apply Rmult_le_pos; lra)) as M4.
  pose proof (u_times a Ha) as M5.
  pose proof (u_times tau Ht0) as M6.
  pose proof (u_times (a * tau) Hat) as M7.
  pose proof (u_times (u * (a * a)) (proj1 M1)) as M8.
  assert (M9 : W * W <= W / 1024).
  { unfold Rdiv. apply Rmult_le_compat_l; lra. }
  assert (M10 : a * W <= a * tau / 1024).
  { unfold W, Rdiv. rewrite <- Rmult_assoc.
    apply Rmult_le_compat_l; lra. }
  assert (M11 : a * W <= a / 1024).
  { unfold Rdiv. apply Rmult_le_compat_l; lra. }
  assert (HOa : 2 * a <= Omega) by lra.
  (* the two coordinates *)
  set (X := Rounded.cosFace E * d). set (Z := Rounded.sinFace E * d).
  pose proof (coord_sq (Rounded.cosFace E) d Hcc HOa) as Hx.
  pose proof (coord_sq (Rounded.sinFace E) d Hss HOa) as Hz.
  cbv zeta in Hx, Hz. fold a W X Z in Hx, Hz.
  set (x := Rounded.rnd E X) in *. set (z := Rounded.rnd E Z) in *.
  apply Rabs_le_both in Hx. apply Rabs_le_both in Hz.
  assert (HXZ : X * X + Z * Z
                = (Rounded.cosFace E * Rounded.cosFace E
                   + Rounded.sinFace E * Rounded.sinFace E) * (a * a)).
  { unfold X, Z, a. rewrite abs_sq. ring. }
  assert (Hgam : (1 - 8 * u) * (a * a) <= X * X + Z * Z
                 <= (1 + 8 * u) * (a * a)).
  { rewrite HXZ. split; apply Rmult_le_compat_r; lra. }
  pose proof (Rle_0_sqr X) as HX0. pose proof (Rle_0_sqr Z) as HZ0.
  pose proof (Rle_0_sqr x) as Hx0. pose proof (Rle_0_sqr z) as Hz0.
  unfold Rsqr in HX0, HZ0, Hx0, Hz0.
  (* the rounded squares *)
  set (bx := 2 * (a * a) + 5 * (a * W) + W * W).
  assert (Hsx : - (u * bx + W) <= Rounded.rnd E (x * x) - x * x <= u * bx + W).
  { apply rnd_near; [apply Rabs_le; unfold bx; lra | unfold bx; lra]. }
  assert (Hsz : - (u * bx + W) <= Rounded.rnd E (z * z) - z * z <= u * bx + W).
  { apply rnd_near; [apply Rabs_le; unfold bx; lra | unfold bx; lra]. }
  pose proof (Rounded.rnd_nonneg _ _ _ _ Harith _ Hx0) as Hsx0.
  pose proof (Rounded.rnd_nonneg _ _ _ _ Harith _ Hz0) as Hsz0.
  set (sx := Rounded.rnd E (x * x)) in *.
  set (sz := Rounded.rnd E (z * z)) in *.
  assert (Ubx : u * bx
                = 2 * (u * (a * a)) + 5 * (u * (a * W)) + u * (W * W))
    by (unfold bx; ring).
  (* their rounded sum *)
  set (bs := 2 * (a * a) + 11 * (a * W) + 3 * W).
  assert (Hs : - (u * bs + W) <= Rounded.rnd E (sx + sz) - (sx + sz)
               <= u * bs + W).
  { apply rnd_near; [apply Rabs_le; unfold bs; lra | unfold bs; lra]. }
  assert (Ubs : u * bs = 2 * (u * (a * a)) + 11 * (u * (a * W)) + 3 * (u * W))
    by (unfold bs; ring).
  assert (Hs0 : 0 <= Rounded.rnd E (sx + sz))
    by (apply (Rounded.rnd_nonneg _ _ _ _ Harith); lra).
  set (s := Rounded.rnd E (sx + sz)) in *.
  assert (Hsa : - (32 * (u * (a * a)) + 11 * (a * W) + 4 * W)
                <= s - a * a
                <= 32 * (u * (a * a)) + 11 * (a * W) + 4 * W) by lra.
  (* the square root *)
  set (hi := a * (1 + 16 * u) + 4 * tau).
  assert (Hhi0 : 0 <= hi).
  { unfold hi. apply Rplus_le_le_0_compat; [apply Rmult_le_pos | ]; lra. }
  assert (Hr_hi : sqrt s <= hi).
  { apply sqrt_below; [exact Hhi0 | ].
    replace (hi * hi)
      with (a * a + 32 * (u * (a * a)) + 256 * (u * (u * (a * a)))
            + 8 * (a * tau) + 128 * (u * (a * tau)) + 16 * W)
      by (unfold hi, W; ring).
    lra. }
  set (lo := a * (1 - 32 * u) - 4 * tau).
  assert (Hr_lo : lo <= sqrt s).
  { destruct (Rle_lt_dec lo 0) as [Hneg | Hpos].
    - pose proof (sqrt_pos s). lra.
    - apply sqrt_above; [lra | ].
      assert (Hlt : 0 <= lo * tau) by (apply Rmult_le_pos; lra).
      replace (lo * tau) with (a * tau - 32 * (u * (a * tau)) - 4 * W) in Hlt
        by (unfold lo, W; ring).
      replace (lo * lo)
        with (a * a - 64 * (u * (a * a)) + 1024 * (u * (u * (a * a)))
              - 8 * (a * tau) + 256 * (u * (a * tau)) + 16 * W)
        by (unfold lo, W; ring).
      lra. }
  (* the last rounding *)
  assert (Hr0 : 0 <= sqrt s) by apply sqrt_pos.
  assert (Hc : - (u * (2 * a + 4 * tau) + W) <= Rounded.rnd E (sqrt s) - sqrt s
               <= u * (2 * a + 4 * tau) + W).
  { apply rnd_near; [apply Rabs_le; unfold hi in Hr_hi; lra | lra]. }
  replace (u * (2 * a + 4 * tau)) with (2 * (u * a) + 4 * (u * tau)) in Hc
    by ring.
  unfold hi in Hr_hi. unfold lo in Hr_lo.
  replace (a * (1 + 16 * u)) with (a + 16 * (u * a)) in Hr_hi by ring.
  replace (a * (1 - 32 * u)) with (a - 32 * (u * a)) in Hr_lo by ring.
  replace (64 * u * a) with (64 * (u * a)) by ring.
  apply Rabs_le. lra.
Qed.

Lemma currentDist_nonneg_rounded (pos : Vector3.t) :
  0 <= Rounded.currentDist E pos.
Proof.
  unfold Rounded.currentDist.
  apply (Rounded.rnd_nonneg _ _ _ _ Harith), sqrt_pos.
Qed.

(** One frame: the interpolated distance against the exact interpolation
    with the computed factor, and the distance read back after it. *)
Lemma frame_law (t delta : R) (pos : Vector3.t) :
  let c := Rounded.currentDist E pos in
  let k := Rounded.rnd E (delta * 8) in
  let L := (1 - k) * c + k * t in
  0 <= t -> 0 <= k <= 8 ->
  4096 * ((c + t + 1) * (c + t + 1)) <= Omega ->
  Rabs (Rounded.newDist E c t delta - L)
    <= 32 * u * (c + t) + 4 * (tau * tau)
  /\ Rabs (Rounded.currentDist E
             (Rounded.onRay E (Rounded.newDist E c t delta) (Vector3.y pos))
           - Rabs L)
     <= 1024 * u * (c + t) + 16 * tau.
Proof.
  intros c k L Ht Hk HO.
  pose proof (currentDist_nonneg_rounded pos) as Hc. fold c in Hc.
  pose proof (Rounded.u_range _ _ _ _ Harith) as [Hu0 Hu1].
  pose proof (Rounded.tau_range _ _ _ _ Harith) as [Ht0 Ht1].
  pose proof sq_small as [[HW0 HWt] HW1].
  set (W := tau * tau) in *.
  set (q := c + t) in *.
  assert (Hq : 0 <= q) by (unfold q; lra).
  assert (Hqq : 0 <= q * q) by (apply Rmult_le_pos; exact Hq).
  replace ((q + 1) * (q + 1)) with (q * q + 2 * q + 1) in HO by ring.
  assert (HE : Rabs (Rounded.newDist E c t delta - L)
               <= 32 * u * q + 4 * W).
  { unfold Rounded.newDist. fold k. apply lerp_error; try assumption.
    fold q. lra. }
  split; [exact HE | ].
  set (nd := Rounded.newDist E c t delta) in *.
  assert (HL : Rabs L <= 8 * q).
  { unfold L, q. apply Rabs_le.
    assert (H1 : -7 * c <= (1 - k) * c <= 1 * c)
      by (split; apply Rmult_le_compat_r; lra).
    assert (H2 : 0 <= k * t <= 8 * t)
      by (split; [apply Rmult_le_pos; lra | apply Rmult_le_compat_r; lra]).
    lra. }
  pose proof (u_times q Hq) as M1.
  replace (32 * u * q) with (32 * (u * q)) in HE by ring.
  assert (Hnd : Rabs nd <= 9 * q + 4 * W).
  { replace nd with ((nd - L) + L) by ring.
    eapply Rle_trans; [apply Rabs_triang | ]. lra. }
  assert (Hnd0 : 0 <= Rabs nd) by apply Rabs_pos.
  assert (HOn : 16 * ((Rabs nd + 1) * (Rabs nd + 1)) <= Omega).
  { assert (H1 : (Rabs nd + 1) * (Rabs nd + 1)
                 <= (9 * q + 2) * (9 * q + 2))
      by (apply Rmult_le_compat; lra).
    replace ((9 * q + 2) * (9 * q + 2)) with (81 * (q * q) + 36 * q + 4)
      in H1 by ring.
    lra. }
  pose proof (readBack_error nd (Vector3.y pos) HOn) as Hrb.
  set (c' := Rounded.currentDist E (Rounded.onRay E nd (Vector3.y pos)))
    in *.
  assert (Hun : u * Rabs nd <= u * (9 * q + 4 * W))
    by (apply Rmult_le_compat_l; lra).
  pose proof (u_times W HW0) as M2.
  replace (u * (9 * q + 4 * W)) with (9 * (u * q) + 4 * (u * W)) in Hun
    by ring.
  replace (64 * u * Rabs nd) with (64 * (u * Rabs nd)) in Hrb by ring.
  pose proof (Rabs_triang_inv2 nd L) as Htri.
  replace (1024 * u * q) with (1024 * (u * q)) by ring.
  replace (c' - Rabs L) with ((c' - Rabs nd) + (Rabs nd - Rabs L)) by ring.
  eapply Rle_trans; [apply Rabs_triang | ]. lra.
Qed.

End RoundedFacts.

(** *** The callback on states *)

Lemma Rounded_useFrame_mounted (E : Rounded.env) (delta : R)
    (s : Tray.state) (pos : Vector3.t) :
  Tray.meshRef s = Some pos ->
  Rounded.useFrame E delta s =
  {| Tray.isOpen := Tray.isOpen s;
     Tray.meshRef :=
       Some (Rounded.onRay E
               (Rounded.newDist E (Rounded.currentDist E pos)
                                (Rounded.targetDist E s) delta)
               (Vector3.y pos)) |}.
Proof. intros H. unfold Rounded.useFrame. rewrite H. reflexivity. Qed.

Lemma Rounded_useFrame_targetDist (E : Rounded.env) (delta : R)
    (s : Tray.state) :
  Rounded.targetDist E (Rounded.useFrame E delta s) = Rounded.targetDist E s.
Proof.
  unfold Rounded.targetDist, Rounded.useFrame.
  destruct (Tray.meshRef s); reflexivity.
Qed.

Lemma Rounded_run_frames_S (E : Rounded.env) (n : nat) (delta : R)
    (s : Tray.state) :
  Rounded.run E (Tray.frames (S n) delta) s
  = Rounded.useFrame E delta (Rounded.run E (Tray.frames n delta) s).
Proof.
  unfold Rounded.run, Tray.frames.
  change (repeat (Tray.Frame delta) (S n))
    with (Tray.Frame delta :: repeat (Tray.Frame delta) n).
  rewrite repeat_cons, fold_left_app. reflexivity.
Qed.

(** Without rounding the callback is the one of [Tray]. *)
Lemma Rounded_exactly_useFrame (p : Tray.props) (delta : R)
    (s : Tray.state) :
  Rounded.useFrame (Rounded.exactly p) delta s = Tray.useFrame p delta s.
Proof. reflexivity. Qed.

Lemma Rounded_exactly_run (p : Tray.props) (es : list Tray.event)
    (s : Tray.state) :
  Rounded.run (Rounded.exactly p) es s = Tray.run p es s.
Proof.
  revert s. induction es as [ | ev es IH]; intros s.
  - reflexivity.
  - destruct ev; apply IH.
Qed.

Lemma Rounded_exactly_arithmetic (p : Tray.props) :
  Rounded.arithmetic Rounded.u64 Rounded.tau64 Rounded.Omega64
                     (Rounded.rnd (Rounded.exactly p)).
Proof.
  unfold Rounded.u64, Rounded.tau64, Rounded.Omega64.
  assert (Hp : 0 < / 2 ^ 537) by (apply Rinv_0_lt_compat, pow_lt; lra).
  assert (Hq : / 2 ^ 537 <= / 2 ^ 53).
  { apply Rinv_le_contravar; [apply pow_lt; lra | ].
    apply Rle_pow; [lra | lia]. }
  assert (Hr : / 2 ^ 53 <= / 1024).
  { replace 1024 with (2 ^ 10) by (simpl; lra).
    apply Rinv_le_contravar; [apply pow_lt; lra | ].
    apply Rle_pow; [lra | lia]. }
  assert (Hs : / 2 ^ 537 * / 2 ^ 537 <= / 2 ^ 537 * 1)
    by (apply Rmult_le_compat_l; lra).
  split; simpl Rounded.rnd.
  - split; [ | exact Hr]. lra.
  - lra.
  - lra.
  - intros x _. replace (x - x) with 0 by ring. rewrite Rabs_R0.
    assert (0 <= / 2 ^ 53 * Rabs x)
      by (apply Rmult_le_pos; [lra | apply Rabs_pos]).
    assert (0 <= / 2 ^ 537 * / 2 ^ 537) by (apply Rmult_le_pos; lra).
    lra.
  - intros x Hx. exact Hx.
Qed.

Lemma Rounded_exactly_trigAccurate (p : Tray.props) :
  Rounded.trigAccurate Rounded.u64 (Rounded.exactly p).
Proof.
  unfold Rounded.trigAccurate, Rounded.u64. simpl.
  replace (cos (Tray.faceAngle p) * cos (Tray.faceAngle p)
           + sin (Tray.faceAngle p) * sin (Tray.faceAngle p) - 1)
    with (Rsqr (sin (Tray.faceAngle p)) + Rsqr (cos (Tray.faceAngle p)) - 1)
    by (unfold Rsqr; ring).
  rewrite sin2_cos2. replace (1 - 1) with 0 by ring. rewrite Rabs_R0.
  assert (0 < / 2 ^ 53) by (apply Rinv_0_lt_compat, pow_lt; lra).
  lra.
Qed.

Lemma Omega64_large : 2 ^ 40 <= Rounded.Omega64.
Proof. unfold Rounded.Omega64. apply Rle_pow; [lra | lia]. Qed.

Lemma tolerance64_small (c t : R) :
  0 <= c + t <= 16 -> 0 <= Rounded.tolerance Rounded.u64 Rounded.tau64 c t
                      <= / 2 ^ 20.
Proof.
  intros H. unfold Rounded.tolerance, Rounded.u64, Rounded.tau64.
  assert (Hp : 0 < / 2 ^ 537) by (apply Rinv_0_lt_compat, pow_lt; lra).
  assert (Hq : / 2 ^ 537 <= / 2 ^ 53).
  { apply Rinv_le_contravar; [apply pow_lt; lra | ].
    apply Rle_pow; [lra | lia]. }
  assert (Hu : 0 < / 2 ^ 53) by (apply Rinv_0_lt_compat, pow_lt; lra).
  assert (Hm : 0 <= / 2 ^ 53 * (c + t) <= / 2 ^ 53 * 16).
  { split; [apply Rmult_le_pos; lra | apply Rmult_le_compat_l; lra]. }
  assert (E : / 2 ^ 53 = / 2 ^ 33 * / 2 ^ 20).
  { rewrite <- Rinv_mult. f_equal. rewrite <- pow_add. reflexivity. }
  assert (H33 : 2 ^ 15 * / 2 ^ 33 <= 1).
  { replace (/ 2 ^ 33) with (/ 2 ^ 15 * / 2 ^ 18).
    - assert (0 < 2 ^ 15) by (apply pow_lt; lra).
      assert (/ 2 ^ 18 <= 1).
      { rewrite <- Rinv_1. apply Rinv_le_contravar; [lra | ].
        apply pow_R1_Rle. lra. }
      rewrite <- Rmult_assoc, Rinv_r by lra. lra.
    - rewrite <- Rinv_mult. f_equal. rewrite <- pow_add. reflexivity. }
  assert (H20 : 0 < / 2 ^ 20) by (apply Rinv_0_lt_compat, pow_lt; lra).
  assert (F : 2 ^ 15 * / 2 ^ 53 <= / 2 ^ 20).
  { rewrite E, <- Rmult_assoc.
    rewrite <- (Rmult_1_l (/ 2 ^ 20)) at 2.
    apply Rmult_le_compat_r; lra. }
  replace (2 ^ 15) with 32768 in F by (simpl; lra).
  lra.
Qed.

(** *** One frame *)

Lemma gap_step (u tau Omega : R) (E : Rounded.env) (t delta : R)
    (pos : Vector3.t) :
  Rounded.arithmetic u tau Omega (Rounded.rnd E) ->
  Rounded.trigAccurate u E ->
  let c := Rounded.currentDist E pos in
  let k := Rounded.rnd E (delta * 8) in
  0 <= t -> 0 <= k <= 8 ->
  4096 * ((c + t + 1) * (c + t + 1)) <= Omega ->
  Rabs (Rounded.currentDist E
          (Rounded.onRay E (Rounded.newDist E c t delta) (Vector3.y pos))
        - t)
  <= Rabs (1 - k) * Rabs (c - t) + (1024 * u * (c + t) + 16 * tau).
Proof.
  intros Harith Htrig c k Ht Hk HO.
  destruct (frame_law _ _ _ _ Harith Htrig t delta pos Ht Hk HO)
    as [_ Hrb].
  fold c k in Hrb.
  set (c' := Rounded.currentDist E
               (Rounded.onRay E (Rounded.newDist E c t delta)
                              (Vector3.y pos))) in *.
  set (L := (1 - k) * c + k * t) in *.
  assert (HL : Rabs (Rabs L - t) <= Rabs (1 - k) * Rabs (c - t)).
  { rewrite <- Rabs_mult.
    replace ((1 - k) * (c - t)) with (L - t) by (unfold L; ring).
    rewrite <- (Rabs_pos_eq t Ht) at 1. apply Rabs_triang_inv2. }
  replace (c' - t) with ((c' - Rabs L) + (Rabs L - t)) by ring.
  eapply Rle_trans; [apply Rabs_triang | ]. lra.
Qed.

Lemma tolerance_slack (u tau Omega : R) (rnd : R -> R) (c t : R) :
  Rounded.arithmetic u tau Omega rnd -> 0 <= c + t ->
  1024 * u * (c + t) + 16 * tau <= Rounded.tolerance u tau c t
  /\ 0 <= Rounded.tolerance u tau c t.
Proof.
  intros Harith H.
  pose proof (Rounded.u_range _ _ _ _ Harith) as [Hu0 Hu1].
  pose proof (Rounded.tau_range _ _ _ _ Harith) as [Ht0 Ht1].
  assert (0 <= u * (c + t)) by (apply Rmult_le_pos; lra).
  unfold Rounded.tolerance. lra.
Qed.

(** *** Frames of one length *)

Lemma pow_unit (q : R) (n : nat) : 0 <= q <= 1 -> 0 <= q ^ n <= 1.
Proof.
  intros [H0 H1]. split; [apply pow_le; exact H0 | ].
  rewrite <- (pow1 n). apply pow_incr. lra.
Qed.

Lemma between_scaled (q x y : R) :
  0 <= q <= 1 -> 0 <= x -> 0 <= y ->
  0 <= y + q * (x - y) /\ y + q * (x - y) <= Rmax x y.
Proof.
  intros [H0 H1] Hx Hy.
  replace (y + q * (x - y)) with (q * x + (1 - q) * y) by ring.
  assert (A : 0 <= q * x) by (apply Rmult_le_pos; lra).
  assert (B : 0 <= (1 - q) * y) by (apply Rmult_le_pos; lra).
  assert (C : q * x <= q * Rmax x y)
    by (apply Rmult_le_compat_l; [lra | apply Rmax_l]).
  assert (D : (1 - q) * y <= (1 - q) * Rmax x y)
    by (apply Rmult_le_compat_l; [lra | apply Rmax_r]).
  split; [lra | ].
  replace (Rmax x y) with (q * Rmax x y + (1 - q) * Rmax x y) by ring. lra.
Qed.

(** [n] frames of one length, with a factor between 0 and 1: the distance
    read back follows the geometric law of the exact interpolation, each
    frame adding at most the tolerance [T] of distances up to [2 * B]. *)
Lemma frames_law (u tau Omega : R) (E : Rounded.env) (delta B : R)
    (n : nat) (s : Tray.state) (pos : Vector3.t) :
  Rounded.arithmetic u tau Omega (Rounded.rnd E) ->
  Rounded.trigAccurate u E ->
  Tray.meshRef s = Some pos ->
  let c := Rounded.currentDist E pos in
  let t := Rounded.targetDist E s in
  let k := Rounded.rnd E (delta * 8) in
  let T := Rounded.tolerance u tau (2 * B) B in
  0 <= t <= B -> c <= B -> 0 <= k <= 1 -> INR n * T <= B ->
  4096 * ((3 * B + 1) * (3 * B + 1)) <= Omega ->
  exists posn,
    Tray.meshRef (Rounded.run E (Tray.frames n delta) s) = Some posn
    /\ Rounded.targetDist E (Rounded.run E (Tray.frames n delta) s) = t
    /\ Rabs (Rounded.currentDist E posn - (t + (1 - k) ^ n * (c - t)))
       <= INR n * T.
Proof.
  intros Harith Htrig Hm c t k T Ht Hc Hk HnT HO.
  pose proof (Rounded.u_range _ _ _ _ Harith) as [Hu0 Hu1].
  pose proof (Rounded.tau_range _ _ _ _ Harith) as [Ht0 Ht1].
  pose proof (currentDist_nonneg_rounded _ _ _ _ Harith pos) as Hc0.
  fold c in Hc0.
  assert (HB : 0 <= B) by lra.
  assert (HuB : 0 <= u * B) by (apply Rmult_le_pos; lra).
  assert (HT : 0 <= T) by (unfold T, Rounded.tolerance; lra).
  induction n as [ | n IH].
  - exists pos. split; [exact Hm | split; [reflexivity | ]].
    fold c. simpl.
    replace (c - (t + 1 * (c - t))) with 0 by ring.
    rewrite Rabs_R0. lra.
  - rewrite S_INR in HnT |- *.
    assert (HnT' : INR n * T <= B) by lra.
    destruct (IH HnT') as [posn [Hmn [Htn IHn]]]. clear IH.
    rewrite Rounded_run_frames_S.
    set (sn := Rounded.run E (Tray.frames n delta) s) in *.
    rewrite (Rounded_useFrame_mounted E delta sn posn Hmn).
    rewrite Htn.
    eexists. split; [reflexivity | split].
    { unfold Rounded.targetDist. simpl.
      change (Rounded.targetDist E sn = t). exact Htn. }
    set (cn := Rounded.currentDist E posn) in *.
    pose proof (currentDist_nonneg_rounded _ _ _ _ Harith posn) as Hcn0.
    fold cn in Hcn0.
    destruct (pow_unit (1 - k) n ltac:(lra)) as [Hq0 Hq1].
    set (q := (1 - k) ^ n) in *.
    destruct (between_scaled q c t (conj Hq0 Hq1) Hc0 (proj1 Ht))
      as [HP0 HP1].
    assert (HPB : t + q * (c - t) <= B).
    { eapply Rle_trans; [exact HP1 | ]. apply Rmax_lub; lra. }
    set (P := t + q * (c - t)) in *.
    apply Rabs_le_both in IHn.
    assert (Hcn : cn <= 2 * B) by lra.
    assert (HOn : 4096 * ((cn + t + 1) * (cn + t + 1)) <= Omega).
    { assert (H1 : (cn + t + 1) * (cn + t + 1)
                   <= (3 * B + 1) * (3 * B + 1))
        by (apply Rmult_le_compat; lra).
      lra. }
    destruct (frame_law _ _ _ _ Harith Htrig t delta posn
                (proj1 Ht) ltac:(fold k; lra) HOn) as [_ Hstep].
    fold cn k in Hstep.
    set (cn1 := Rounded.currentDist E
                  (Rounded.onRay E (Rounded.newDist E cn t delta)
                                 (Vector3.y posn))) in *.
    assert (HL0 : 0 <= (1 - k) * cn + k * t).
    { apply Rplus_le_le_0_compat; apply Rmult_le_pos; lra. }
    rewrite (Rabs_pos_eq _ HL0) in Hstep.
    apply Rabs_le_both in Hstep.
    assert (Hucn : u * cn <= u * (2 * B))
      by (apply Rmult_le_compat_l; lra).
    assert (Hut : u * t <= u * B) by (apply Rmult_le_compat_l; lra).
    assert (Hstep' : - T <= cn1 - ((1 - k) * cn + k * t) <= T).
    { unfold T, Rounded.tolerance. lra. }
    assert (Hd : - (INR n * T) <= (1 - k) * (cn - P) <= INR n * T).
    { assert (H1 : - (INR n * T) * (1 - k) <= (cn - P) * (1 - k))
        by (apply Rmult_le_compat_r; lra).
      assert (H2 : (cn - P) * (1 - k) <= INR n * T * (1 - k))
        by (apply Rmult_le_compat_r; lra).
      assert (H3 : 0 <= INR n * T * k).
      { apply Rmult_le_pos; [ | lra].
        apply Rmult_le_pos; [apply pos_INR | exact HT]. }
      lra. }
    replace (t + (1 - k) ^ S n * (c - t))
      with ((1 - k) * cn + k * t - (1 - k) * (cn - P))
      by (unfold P, q; simpl; ring).
    apply Rabs_le. lra.
Qed.

(** *** From a point of the ray *)

(** A frame from the point at signed distance [d]: the interpolated
    distance against the exact interpolation from [|d|]. *)
Lemma newDist_from_onRay (u tau Omega : R) (E : Rounded.env)
    (t delta d h : R) :
  Rounded.arithmetic u tau Omega (Rounded.rnd E) ->
  Rounded.trigAccurate u E ->
  let k := Rounded.rnd E (delta * 8) in
  0 <= t -> 0 <= k <= 8 ->
  16384 * ((Rabs d + t + 1) * (Rabs d + t + 1)) <= Omega ->
  Rabs (Rounded.newDist E (Rounded.currentDist E (Rounded.onRay E d h))
                        t delta
        - (Rabs d + k * (t - Rabs d)))
  <= Rounded.tolerance u tau (Rabs d) t.
Proof.
  intros Harith Htrig k Ht Hk HO.
  pose proof (Rounded.u_range _ _ _ _ Harith) as [Hu0 Hu1].
  pose proof (Rounded.tau_range _ _ _ _ Harith) as [Ht0 Ht1].
  pose proof (sq_small _ _ _ _ Harith) as [[HW0 HWt] HW1].
  set (a := Rabs d) in *.
  assert (Ha : 0 <= a) by apply Rabs_pos.
  set (q := a + t) in *.
  assert (Hq : 0 <= q) by (unfold q; lra).
  assert (Hqq : 0 <= q * q) by (apply Rmult_le_pos; exact Hq).
  replace ((q + 1) * (q + 1)) with (q * q + 2 * q + 1) in HO by ring.
  assert (Haq : (a + 1) * (a + 1) <= q * q + 2 * q + 1).
  { replace (q * q + 2 * q + 1) with ((q + 1) * (q + 1)) by ring.
    apply Rmult_le_compat; unfold q; lra. }
  pose proof (readBack_error _ _ _ _ Harith Htrig d h ltac:(fold a; lra))
    as Hrb.
  fold a in Hrb.
  pose proof (currentDist_nonneg_rounded _ _ _ _ Harith
                (Rounded.onRay E d h)) as Hc0.
  set (c := Rounded.currentDist E (Rounded.onRay E d h)) in *.
  pose proof (u_times _ _ _ _ Harith a Ha) as Mua.
  pose proof (u_times _ _ _ _ Harith t Ht) as Mut.
  pose proof (u_times _ _ _ _ Harith tau Ht0) as Mutau.
  pose proof (u_times _ _ _ _ Harith (u * a) (proj1 Mua)) as Muua.
  replace (64 * u * a) with (64 * (u * a)) in Hrb by ring.
  apply Rabs_le_both in Hrb.
  assert (Hca : c <= 2 * a + 1) by lra.
  assert (Hqe : q = a + t) by reflexivity.
  pose proof (lerp_error _ _ _ _ Harith c t k Hc0 Ht Hk ltac:(lra))
    as Hle.
  change (Rounded.lerp E c t k) with (Rounded.newDist E c t delta) in Hle.
  set (nd := Rounded.newDist E c t delta) in *.
  apply Rabs_le_both in Hle.
  assert (Huc : u * c <= u * a + (64 * (u * (u * a)) + 8 * (u * tau))).
  { replace (u * a + (64 * (u * (u * a)) + 8 * (u * tau)))
      with (u * (a + (64 * (u * a) + 8 * tau))) by ring.
    apply Rmult_le_compat_l; lra. }
  assert (Huc0 : 0 <= u * c) by (apply Rmult_le_pos; lra).
  replace (32 * u * (c + t)) with (32 * (u * c) + 32 * (u * t)) in Hle
    by ring.
  assert (Hd : - (7 * (64 * (u * a) + 8 * tau)) <= (1 - k) * (c - a)
               <= 7 * (64 * (u * a) + 8 * tau)).
  { destruct (Rle_lt_dec a c) as [Hge | Hlt].
    - assert (H1 : -7 * (c - a) <= (1 - k) * (c - a) <= 1 * (c - a))
        by (split; apply Rmult_le_compat_r; lra).
      lra.
    - assert (H1 : -7 * (a - c) <= (1 - k) * (a - c) <= 1 * (a - c))
        by (split; apply Rmult_le_compat_r; lra).
      replace ((1 - k) * (c - a)) with (- ((1 - k) * (a - c))) by ring.
      lra. }
  replace (nd - (a + k * (t - a)))
    with ((nd - ((1 - k) * c + k * t)) + (1 - k) * (c - a)) by ring.
  unfold Rounded.tolerance.
  replace (1024 * u * (a + t)) with (1024 * (u * a) + 1024 * (u * t))
    by ring.
  apply Rabs_le. lra.
Qed.

(** Every state the tray reaches after mounting holds a mesh on the ray. *)
Lemma Rounded_reachable (E : Rounded.env) (es : list Tray.event)
    (s : Tray.state) :
  (exists d h, Tray.meshRef s = Some (Rounded.onRay E d h)) ->
  exists d h, Tray.meshRef (Rounded.run E es s) = Some (Rounded.onRay E d h).
Proof.
  revert s. induction es as [ | ev es IH]; intros s H.
  - exact H.
  - apply IH. destruct H as [d [h Hm]]. destruct ev as [delta | ].
    + simpl. rewrite (Rounded_useFrame_mounted E delta s _ Hm).
      eexists. eexists. reflexivity.
    + exists d, h. exact Hm.
Qed.

(** ** Rounding to binary64 meets the standard model *)

Lemma nearestEven_error (y : R) :
  Rabs (IZR (Binary64.nearestEven y) - y) <= / 2.
Proof.
  unfold Binary64.nearestEven.
  pose proof (Zfloor_bound y) as [Hlo Hhi].
  set (f := Zfloor y) in *.
  destruct (Rlt_dec (y - IZR f) (/ 2)) as [H1 | H1].
  - apply Rabs_le. lra.
  - destruct (Rlt_dec (/ 2) (y - IZR f)) as [H2 | H2].
    + rewrite plus_IZR. apply Rabs_le. lra.
    + destruct (Z.even f).
      * apply Rabs_le. lra.
      * rewrite plus_IZR. apply Rabs_le. lra.
Qed.

Lemma nearestEven_nonneg (y : R) :
  0 <= y -> 0 <= IZR (Binary64.nearestEven y).
Proof.
  intros Hy. unfold Binary64.nearestEven.
  pose proof (Zfloor_bound y) as [Hlo Hhi].
  set (f := Zfloor y) in *.
  assert (Hf : (0 <= f)%Z).
  { apply Z.lt_succ_r. apply lt_IZR. rewrite succ_IZR. lra. }
  assert (Hf' : 0 <= IZR f) by (apply IZR_le; exact Hf).
  destruct (Rlt_dec (y - IZR f) (/ 2)); [exact Hf' | ].
  destruct (Rlt_dec (/ 2) (y - IZR f)); [rewrite plus_IZR; lra | ].
  destruct (Z.even f); [exact Hf' | rewrite plus_IZR; lra].
Qed.

Lemma exponentFrom_spec (n : nat) (a : R) :
  (-1022 <= Binary64.exponentFrom n a)%Z
  /\ ((-1022 < Binary64.exponentFrom n a)%Z ->
      powerRZ 2 (Binary64.exponentFrom n a) <= a).
Proof.
  induction n as [ | n IH].
  - simpl. split; lia.
  - cbn [Binary64.exponentFrom].
    destruct (Rle_dec (powerRZ 2 (Z.of_nat (S n) - 1022)) a) as [H | H].
    + split; [lia | intros _; exact H].
    + exact IH.
Qed.

Lemma ulp_pos (x : R) : 0 < Binary64.ulp x.
Proof. unfold Binary64.ulp. apply powerRZ_lt. lra. Qed.

Lemma half_ulp (x : R) :
  Binary64.ulp x * / 2 <= Rounded.u64 * Rabs x + Rounded.tau64 * Rounded.tau64.
Proof.
  unfold Binary64.ulp, Binary64.exponent.
  destruct (exponentFrom_spec 2045 (Rabs x)) as [Hlo Hnormal].
  set (e := Binary64.exponentFrom 2045 (Rabs x)) in *. clearbody e.
  assert (Hu : powerRZ 2 (-53) = Rounded.u64) by reflexivity.
  assert (Hhalf : / 2 = powerRZ 2 (-1)) by (simpl; lra).
  assert (Hsplit : powerRZ 2 (e - 52) * / 2 = powerRZ 2 e * Rounded.u64).
  { rewrite Hhalf, <- powerRZ_add by lra.
    replace (e - 52 + -1)%Z with (e + -53)%Z by lia.
    rewrite powerRZ_add by lra. rewrite Hu. reflexivity. }
  rewrite Hsplit.
  assert (Hu0 : 0 < Rounded.u64).
  { unfold Rounded.u64. apply Rinv_0_lt_compat, pow_lt. lra. }
  assert (Htt : 0 < Rounded.tau64 * Rounded.tau64).
  { unfold Rounded.tau64. apply Rmult_lt_0_compat;
      apply Rinv_0_lt_compat, pow_lt; lra. }
  assert (Hx : 0 <= Rabs x) by apply Rabs_pos.
  destruct (Z.eq_dec e (-1022)) as [He | He].
  - rewrite He.
    assert (Hsub : powerRZ 2 (-1022) * Rounded.u64
                   <= Rounded.tau64 * Rounded.tau64).
    { rewrite <- Hu, <- powerRZ_add by lra.
      change (-1022 + -53)%Z with (-1075)%Z.
      change (powerRZ 2 (-1075)) with (/ 2 ^ Pos.to_nat 1075).
      replace (Pos.to_nat 1075) with (S (537 + 537)) by reflexivity.
      unfold Rounded.tau64. rewrite <- Rinv_mult, <- pow_add.
      assert (Hp : 0 < 2 ^ (537 + 537)) by (apply pow_lt; lra).
      apply Rinv_le_contravar; [exact Hp | ].
      change (2 ^ S (537 + 537)) with (2 * 2 ^ (537 + 537)). lra. }
    assert (0 <= Rounded.u64 * Rabs x) by (apply Rmult_le_pos; lra).
    lra.
  - assert (Hn : powerRZ 2 e <= Rabs x) by (apply Hnormal; lia).
    assert (powerRZ 2 e * Rounded.u64 <= Rabs x * Rounded.u64)
      by (apply Rmult_le_compat_r; lra).
    lra.
Qed.

Lemma scaled_error (x p N : R) :
  0 < p -> Rabs (N - x / p) <= / 2 -> Rabs (N * p - x) <= p * / 2.
Proof.
  intros Hp Hn.
  replace (N * p - x) with ((N - x / p) * p) by (field; lra).
  rewrite Rabs_mult, (Rabs_pos_eq p) by lra.
  rewrite (Rmult_comm p). apply Rmult_le_compat_r; lra.
Qed.

Lemma Binary64_round_error (x : R) :
  Rabs (Binary64.round x - x)
  <= Rounded.u64 * Rabs x + Rounded.tau64 * Rounded.tau64.
Proof.
  unfold Binary64.round.
  eapply Rle_trans; [ | apply half_ulp].
  apply scaled_error; [apply ulp_pos | apply nearestEven_error].
Qed.

Lemma Binary64_round_nonneg (x : R) : 0 <= x -> 0 <= Binary64.round x.
Proof.
  intros Hx. unfold Binary64.round.
  pose proof (ulp_pos x) as Hp.
  apply Rmult_le_pos; [ | lra].
  apply nearestEven_nonneg. apply Rmult_le_pos; [exact Hx | ].
  apply Rlt_le, Rinv_0_lt_compat, Hp.
Qed.

(** Binary64 is an arithmetic of the standard model, with the unit
    roundoff [u64] and the underflow term [tau64 * tau64]. *)
Lemma Binary64_arithmetic :
  Rounded.arithmetic Rounded.u64 Rounded.tau64 Rounded.Omega64
                     Binary64.round.
Proof.
  unfold Rounded.u64, Rounded.tau64.
  assert (Hp : 0 < / 2 ^ 537) by (apply Rinv_0_lt_compat, pow_lt; lra).
  assert (Hq : / 2 ^ 537 <= / 2 ^ 53).
  { apply Rinv_le_contravar; [apply pow_lt; lra | ].
    apply Rle_pow; [lra | lia]. }
  assert (Hr : / 2 ^ 53 <= / 1024).
  { replace 1024 with (2 ^ 10) by (simpl; lra).
    apply Rinv_le_contravar; [apply pow_lt; lra | ].
    apply Rle_pow; [lra | lia]. }
  assert (Hs : / 2 ^ 537 * / 2 ^ 537 <= / 2 ^ 537 * 1)
    by (apply Rmult_le_compat_l; lra).
  split.
  - split; [ | exact Hr]. lra.
  - lra.
  - lra.
  - intros x _. apply Binary64_round_error.
  - apply Binary64_round_nonneg.
Qed.

Lemma powerRZ_2_ge_1 (n : Z) : (0 <= n)%Z -> 1 <= powerRZ 2 n.
Proof.
  intros Hn. rewrite <- (Z2Nat.id n Hn), <- pow_powerRZ.
  apply pow_R1_Rle. lra.
Qed.

Lemma powerRZ_2_le (a b : Z) : (a <= b)%Z -> powerRZ 2 a <= powerRZ 2 b.
Proof.
  intros H. replace b with (a + (b - a))%Z by lia.
  rewrite powerRZ_add by lra.
  pose proof (powerRZ_lt 2 a ltac:(lra)) as Ha.
  pose proof (powerRZ_2_ge_1 (b - a) ltac:(lia)) as Hb.
  rewrite <- (Rmult_1_r (powerRZ 2 a)) at 1.
  apply Rmult_le_compat_l; lra.
Qed.

Lemma powerRZ_2_lt (a b : Z) : (a < b)%Z -> powerRZ 2 a < powerRZ 2 b.
Proof.
  intros H.
  apply Rlt_le_trans with (powerRZ 2 (a + 1)).
  - rewrite powerRZ_add by lra.
    pose proof (powerRZ_lt 2 a ltac:(lra)) as Ha.
    simpl (powerRZ 2 1). lra.
  - apply powerRZ_2_le. lia.
Qed.

(** Below the top of its range the exponent found is the greatest. *)
Lemma exponentFrom_upper (n : nat) (a : R) :
  (Binary64.exponentFrom n a <= Z.of_nat n - 1022)%Z
  /\ ((Binary64.exponentFrom n a < Z.of_nat n - 1022)%Z ->
      a < powerRZ 2 (Binary64.exponentFrom n a + 1)).
Proof.
  induction n as [ | n [IHle IHlt]].
  - simpl. split; lia.
  - cbn [Binary64.exponentFrom].
    destruct (Rle_dec (powerRZ 2 (Z.of_nat (S n) - 1022)) a) as [H | H].
    + split; lia.
    + split; [lia | ]. intros _.
      destruct (Z.eq_dec (Binary64.exponentFrom n a) (Z.of_nat n - 1022))
        as [E | E].
      * rewrite E.
        replace (Z.of_nat n - 1022 + 1)%Z with (Z.of_nat (S n) - 1022)%Z
          by lia.
        lra.
      * apply IHlt. lia.
Qed.

Lemma exponent_powerRZ (j : Z) :
  (-1022 <= j <= 1023)%Z -> Binary64.exponent (powerRZ 2 j) = j.
Proof.
  intros Hj. unfold Binary64.exponent.
  pose proof (powerRZ_lt 2 j ltac:(lra)) as Hp.
  rewrite (Rabs_pos_eq _ (Rlt_le _ _ Hp)).
  destruct (exponentFrom_spec 2045 (powerRZ 2 j)) as [Hlo Hnormal].
  destruct (exponentFrom_upper 2045 (powerRZ 2 j)) as [Hhi Hnext].
  replace (Z.of_nat 2045 - 1022)%Z with 1023%Z in Hhi, Hnext by reflexivity.
  set (e := Binary64.exponentFrom 2045 (powerRZ 2 j)) in *. clearbody e.
  destruct (Z.lt_trichotomy e j) as [H | [H | H]]; [ | exact H | ].
  - exfalso. pose proof (Hnext ltac:(lia)) as H1.
    pose proof (powerRZ_2_le (e + 1) j ltac:(lia)). lra.
  - exfalso. pose proof (Hnormal ltac:(lia)) as H1.
    pose proof (powerRZ_2_lt j e H). lra.
Qed.

(** A power of two within the normal range is a double. *)
Lemma Binary64_round_powerRZ (j : Z) :
  (-1022 <= j <= 1023)%Z -> Binary64.round (powerRZ 2 j) = powerRZ 2 j.
Proof.
  intros Hj. unfold Binary64.round, Binary64.ulp.
  rewrite (exponent_powerRZ j Hj).
  pose proof (powerRZ_lt 2 (j - 52) ltac:(lra)) as Hp.
  assert (Hy : powerRZ 2 j / powerRZ 2 (j - 52) = IZR (2 ^ 52)).
  { replace j with (j - 52 + 52)%Z at 1 by lia.
    rewrite powerRZ_add by lra.
    replace (powerRZ 2 52) with (IZR (2 ^ 52)).
    - field. lra.
    - change (2 ^ 52)%Z with (Z.pow_pos 2 52).
      apply Zpower_pos_powerRZ. }
  rewrite Hy.
  assert (Hn : Binary64.nearestEven (IZR (2 ^ 52)) = (2 ^ 52)%Z).
  { unfold Binary64.nearestEven. rewrite ZfloorZ.
    destruct (Rlt_dec (IZR (2 ^ 52) - IZR (2 ^ 52)) (/ 2)) as [H | H];
      [reflexivity | ].
    exfalso. apply H. lra. }
  rewrite Hn, <- Hy. field. lra.
Qed.

(** *** The tray of the case in binary64 *)

Lemma septagon64_arithmetic :
  Rounded.arithmetic Rounded.u64 Rounded.tau64 Rounded.Omega64
                     (Rounded.rnd Rounded.septagon64).
Proof. exact Binary64_arithmetic. Qed.

Lemma septagon64_trigAccurate :
  Rounded.trigAccurate Rounded.u64 Rounded.septagon64.
Proof.
  unfold Rounded.trigAccurate, Rounded.u64.
  change (Rounded.cosFace Rounded.septagon64) with (-1).
  change (Rounded.sinFace Rounded.septagon64)
    with (4967757600021511 / 2 ^ 105).
  set (sn := 4967757600021511 / 2 ^ 105).
  assert (Hs : 0 <= sn <= / 2 ^ 52).
  { unfold sn. split.
    - apply Rmult_le_pos; [lra | ].
      apply Rlt_le, Rinv_0_lt_compat, pow_lt. lra.
    - replace (2 ^ 105) with (2 ^ 53 * 2 ^ 52)
        by (rewrite <- pow_add; reflexivity).
      assert (H53 : 0 < 2 ^ 53) by (apply pow_lt; lra).
      assert (H52 : 0 < / 2 ^ 52) by (apply Rinv_0_lt_compat, pow_lt; lra).
      unfold Rdiv. rewrite Rinv_mult, <- Rmult_assoc.
      rewrite <- (Rmult_1_l (/ 2 ^ 52)) at 2.
      apply Rmult_le_compat_r; [lra | ].
      apply Rmult_le_reg_r with (2 ^ 53); [exact H53 | ].
      rewrite Rmult_assoc, Rinv_l, Rmult_1_r, Rmult_1_l by lra.
      simpl. lra. }
  assert (H1 : / 2 ^ 52 <= 1).
  { rewrite <- Rinv_1. apply Rinv_le_contravar; [lra | ].
    apply pow_R1_Rle. lra. }
  assert (H2 : sn * sn <= sn * 1) by (apply Rmult_le_compat_l; lra).
  assert (H3 : 0 <= sn * sn) by (apply Rmult_le_pos; lra).
  assert (H4 : / 2 ^ 52 = 2 * / 2 ^ 53).
  { change (2 ^ 53) with (2 * 2 ^ 52).
    assert (0 < 2 ^ 52) by (apply pow_lt; lra). field. }
  assert (H5 : 0 < / 2 ^ 53) by (apply Rinv_0_lt_compat, pow_lt; lra).
  apply Rabs_le. lra.
Qed.

(** A result up to 1 is rounded to at most 1/512 more. *)
Lemma rnd_unit (u tau Omega : R) (E : Rounded.env) (x : R) :
  Rounded.arithmetic u tau Omega (Rounded.rnd E) ->
  0 <= x <= 1 -> 1 <= Omega ->
  0 <= Rounded.rnd E x <= x + / 512.
Proof.
  intros Harith Hx HO.
  pose proof (Rounded.u_range _ _ _ _ Harith) as [Hu0 Hu1].
  pose proof (sq_small _ _ _ _ Harith) as [[HW0 _] HW1].
  pose proof (rnd_near _ _ _ _ Harith x 1 ltac:(apply Rabs_le; lra) HO)
    as Hn.
  split; [apply (Rounded.rnd_nonneg _ _ _ _ Harith); lra | lra].
Qed.

Lemma Omega64_ge_1 : 1 <= Rounded.Omega64.
Proof.
  pose proof Omega64_large.
  assert (1 <= 2 ^ 40) by (apply pow_R1_Rle; lra). lra.
Qed.

(** The tray of the case just after a click, in binary64: mounted at a
    distance read back as 2 up to rounding, target 3.5. *)
Lemma septagon64_clicked :
  let E := Rounded.septagon64 in
  let s := Tray.onClick (Rounded.mounted E) in
  Tray.meshRef s = Some (Rounded.initialPosition E)
  /\ 0 <= Rounded.currentDist E (Rounded.initialPosition E) <= 3
  /\ Rounded.targetDist E s = 3.5.
Proof.
  intros E s. subst s. subst E.
  split; [reflexivity | split; [ | reflexivity]].
  pose proof (readBack_error _ _ _ _ septagon64_arithmetic
                septagon64_trigAccurate 2
                (Rounded.rnd Rounded.septagon64
                   (Rounded.height Rounded.septagon64 / 2))) as H.
  change (Rounded.onRay Rounded.septagon64 2
            (Rounded.rnd Rounded.septagon64
               (Rounded.height Rounded.septagon64 / 2)))
    with (Rounded.initialPosition Rounded.septagon64) in H.
  rewrite (Rabs_pos_eq 2) in H by lra.
  assert (HO : 16 * ((2 + 1) * (2 + 1)) <= Rounded.Omega64).
  { pose proof Omega64_large as HO.
    apply Rle_trans with (2 ^ 40); [ | exact HO]. simpl. lra. }
  specialize (H HO). apply Rabs_le_both in H.
  pose proof (Rounded.u_range _ _ _ _ septagon64_arithmetic) as Hu.
  pose proof (Rounded.tau_range _ _ _ _ septagon64_arithmetic) as Ht.
  split; [ | lra].
  apply (currentDist_nonneg_rounded _ _ _ _ septagon64_arithmetic).
Qed.

(** ** Frame-rate dependence *)

(** C1, as the specification words it, fails.  The tray of the case is
    clicked open at distance 2 with target 3.5.  Ten frames of 0.1 s leave
    it just short of 3.5; one frame of 1 s puts it at 14. *)
Lemma ten_short_frames_differ_from_one_long_frame :
  let s := Tray.onClick (Tray.mounted SeptagonCase.tray) in
  exists ten one,
    Tray.distance (Tray.run SeptagonCase.tray (Tray.frames 10 0.1) s)
      = Some ten
    /\ Tray.distance (Tray.run SeptagonCase.tray (Tray.frames 1 1) s)
      = Some one
    /\ ten = Tray.newDistN 10 2 3.5 0.1
    /\ one = Tray.newDistN 1 2 3.5 1
    /\ 3.49 < ten < 3.5
    /\ one = 14
    /\ 10 < Rabs (ten - one).
Proof.
  intros s. destruct septagon_clicked as [Hm [Hd Ht]]. fold s in Hm, Ht.
  assert (Hten : 3.49 < Tray.newDistN 10 2 3.5 0.1 < 3.5).
  { pose proof (newDistN_gap 10 2 3.5 0.1) as H. simpl pow in H. lra. }
  assert (Hone : Tray.newDistN 1 2 3.5 1 = 14).
  { unfold Tray.newDistN, Tray.newDist, MathUtils.lerp. simpl. lra. }
  exists (Tray.newDistN 10 2 3.5 0.1), (Tray.newDistN 1 2 3.5 1).
  split; [ | split; [ | split; [reflexivity | split; [reflexivity | ]]]].
  - rewrite (run_frames_distance _ _ _ _ _ Hm); rewrite ?Ht, ?Hd;
      try reflexivity; lra.
  - change (Tray.run SeptagonCase.tray (Tray.frames 1 1) s)
      with (Tray.useFrame SeptagonCase.tray 1 s).
    rewrite (useFrame_distance _ _ _ _ Hm), Ht, Hd.
    change (Tray.newDist 2 3.5 1) with (Tray.newDistN 1 2 3.5 1).
    rewrite Hone. f_equal. apply Rabs_pos_eq. lra.
  - split; [exact Hten | split; [exact Hone | ]].
    rewrite Hone. split_Rabs; lra.
Qed.

(** C1, as the code has it, in rounded arithmetic.  The distance [n]
    frames of length [delta] leave depends on how the time is cut into
    frames.  With a target that is not negative and a computed factor
    [k = delta * 8] between 0 and 1, [n] frames leave the distance within
    [n] tolerances of [t + (1 - k) ^ n * (c - t)]; [2 * n] frames of half
    the length leave it within [2 * n] tolerances of
    [t + (1 - k + k * k / 4) ^ n * (c - t)]; so one frame and two frames of
    half its length end [k * k / 4] times the gap apart, up to three
    tolerances.  One frame with a factor [k1] up to 8 leaves the distance
    within a tolerance of [|t + (1 - k1) * (c - t)|]: the frame of one
    second has [k1 = 8] and leaves [|t - 7 * (c - t)|].  [B] bounds the
    distances and [T] is the tolerance for distances up to [2 * B]. *)
Theorem frame_length_changes_the_distance
    (u tau Omega : R) (E : Rounded.env) (delta B : R) (n : nat)
    (s : Tray.state) (pos : Vector3.t) :
  Rounded.arithmetic u tau Omega (Rounded.rnd E) ->
  Rounded.trigAccurate u E ->
  Tray.meshRef s = Some pos ->
  let c := Rounded.currentDist E pos in
  let t := Rounded.targetDist E s in
  let k := Rounded.rnd E (delta * 8) in
  let T := Rounded.tolerance u tau (2 * B) B in
  0 <= t <= B -> c <= B -> 0 <= k <= 1 ->
  Rounded.rnd E (delta / 2 * 8) = k / 2 ->
  (1 <= n)%nat -> INR (2 * n) * T <= B ->
  4096 * ((3 * B + 1) * (3 * B + 1)) <= Omega ->
  (exists d,
     Rounded.distance E (Rounded.run E (Tray.frames n delta) s) = Some d
     /\ Rabs (d - (t + (1 - k) ^ n * (c - t))) <= INR n * T)
  /\ (exists d,
        Rounded.distance E
          (Rounded.run E (Tray.frames (2 * n) (delta / 2)) s) = Some d
        /\ Rabs (d - (t + (1 - k + k * k / 4) ^ n * (c - t)))
           <= INR (2 * n) * T)
  /\ (exists one two,
        Rounded.distance E (Rounded.run E (Tray.frames 1 delta) s)
          = Some one
        /\ Rounded.distance E
             (Rounded.run E (Tray.frames 2 (delta / 2)) s) = Some two
        /\ k * k / 4 * Rabs (c - t) - 3 * T <= Rabs (two - one))
  /\ (forall delta1,
        0 <= Rounded.rnd E (delta1 * 8) <= 8 ->
        exists d,
          Rounded.distance E (Rounded.useFrame E delta1 s) = Some d
          /\ Rabs (d - Rabs (t + (1 - Rounded.rnd E (delta1 * 8)) * (c - t)))
             <= T).
Proof.
  intros Harith Htrig Hm c t k T Ht Hc Hk Hhalf Hn HnT HO.
  pose proof (Rounded.u_range _ _ _ _ Harith) as [Hu0 Hu1].
  pose proof (currentDist_nonneg_rounded _ _ _ _ Harith pos) as Hc0.
  fold c in Hc0.
  assert (HB : 0 <= B) by lra.
  destruct (tolerance_slack u tau Omega _ (2 * B) B Harith ltac:(lra))
    as [_ HT].
  fold T in HT.
  assert (Hn1 : 1 <= INR n) by (apply (le_INR 1 n), Hn).
  assert (HnR : INR (2 * n) = 2 * INR n)
    by (rewrite mult_INR; simpl; ring).
  assert (HnT1 : INR n * T <= B).
  { rewrite HnR in HnT.
    assert (0 <= INR n * T) by (apply Rmult_le_pos; lra). lra. }
  assert (HTT : T <= INR n * T).
  { rewrite <- (Rmult_1_l T) at 1. apply Rmult_le_compat_r; lra. }
  assert (Hhalf' : 0 <= Rounded.rnd E (delta / 2 * 8) <= 1)
    by (rewrite Hhalf; lra).
  assert (Hsq : (1 - k / 2) ^ 2 = 1 - k + k * k / 4) by (simpl; field).
  split; [ | split; [ | split]].
  - destruct (frames_law u tau Omega E delta B n s pos Harith Htrig Hm
                Ht Hc Hk HnT1 HO) as [posn [Hmn [_ Hlaw]]].
    exists (Rounded.currentDist E posn). split; [ | exact Hlaw].
    unfold Rounded.distance. rewrite Hmn. reflexivity.
  - destruct (frames_law u tau Omega E (delta / 2) B (2 * n) s pos
                Harith Htrig Hm Ht Hc Hhalf' HnT HO)
      as [posn [Hmn [_ Hlaw]]].
    exists (Rounded.currentDist E posn). split.
    + unfold Rounded.distance. rewrite Hmn. reflexivity.
    + rewrite Hhalf, pow_mult, Hsq in Hlaw. exact Hlaw.
  - assert (H1T : INR 1 * T <= B) by (simpl; lra).
    assert (H2T : INR 2 * T <= B).
    { change (INR 2) with (1 + 1). rewrite HnR in HnT.
      assert (0 <= (INR n - 1) * T) by (apply Rmult_le_pos; lra). lra. }
    destruct (frames_law u tau Omega E delta B 1 s pos Harith Htrig Hm
                Ht Hc Hk H1T HO) as [pos1 [Hm1 [_ Hlaw1]]].
    destruct (frames_law u tau Omega E (delta / 2) B 2 s pos
                Harith Htrig Hm Ht Hc Hhalf' H2T HO)
      as [pos2 [Hm2 [_ Hlaw2]]].
    exists (Rounded.currentDist E pos1), (Rounded.currentDist E pos2).
    split; [unfold Rounded.distance; rewrite Hm1; reflexivity | ].
    split; [unfold Rounded.distance; rewrite Hm2; reflexivity | ].
    rewrite Hhalf, Hsq in Hlaw2. fold c t k in Hlaw1, Hlaw2.
    set (d1 := Rounded.currentDist E pos1) in *.
    set (d2 := Rounded.currentDist E pos2) in *.
    simpl pow in Hlaw1. change (INR 1) with 1 in Hlaw1.
    change (INR 2) with (1 + 1) in Hlaw2.
    assert (Hkk : 0 <= k * k / 4).
    { unfold Rdiv. apply Rmult_le_pos; [apply Rmult_le_pos | ]; lra. }
    assert (Hg : k * k / 4 * Rabs (c - t) = Rabs (k * k / 4 * (c - t))).
    { rewrite Rabs_mult, (Rabs_pos_eq _ Hkk). reflexivity. }
    rewrite Hg.
    set (g := k * k / 4 * (c - t)) in *.
    replace ((1 - k + k * k / 4) * (c - t)) with ((1 - k) * (c - t) + g)
      in Hlaw2 by (unfold g; ring).
    apply Rabs_le_both in Hlaw1. apply Rabs_le_both in Hlaw2.
    fold T in Hlaw1, Hlaw2. split_Rabs; lra.
  - intros delta1 Hk1.
    assert (HO1 : 4096 * ((c + t + 1) * (c + t + 1)) <= Omega).
    { assert (H1 : (c + t + 1) * (c + t + 1)
                   <= (3 * B + 1) * (3 * B + 1))
        by (apply Rmult_le_compat; lra).
      lra. }
    destruct (frame_law _ _ _ _ Harith Htrig t delta1 pos
                (proj1 Ht) Hk1 HO1) as [_ Hrb].
    fold c in Hrb.
    rewrite (Rounded_useFrame_mounted E delta1 s pos Hm).
    unfold Rounded.distance. simpl Tray.meshRef. simpl option_map.
    eexists. split; [reflexivity | ].
    fold c t.
    replace (t + (1 - Rounded.rnd E (delta1 * 8)) * (c - t))
      with ((1 - Rounded.rnd E (delta1 * 8)) * c
            + Rounded.rnd E (delta1 * 8) * t) by ring.
    eapply Rle_trans; [exact Hrb | ].
    assert (Hu1' : u * (c + t) <= u * (2 * B + B))
      by (apply Rmult_le_compat_l; lra).
    pose proof (Rounded.tau_range _ _ _ _ Harith) as [Ht0 _].
    unfold T, Rounded.tolerance. lra.
Qed.

Lemma frame_length_changes_the_distance_witness :
  let E := Rounded.septagon64 in
  let s := Tray.onClick (Rounded.mounted E) in
  let c := Rounded.currentDist E (Rounded.initialPosition E) in
  let T := Rounded.tolerance Rounded.u64 Rounded.tau64 (2 * 4) 4 in
  Rounded.rnd E (1 / 16 * 8) = 1 / 2
  /\ Rounded.rnd E (1 / 16 / 2 * 8) = 1 / 2 / 2
  /\ INR (2 * 1) * T <= 4
  /\ exists one two,
       Rounded.distance E (Rounded.run E (Tray.frames 1 (1 / 16)) s)
         = Some one
       /\ Rounded.distance E
            (Rounded.run E (Tray.frames 2 (1 / 16 / 2)) s) = Some two
       /\ 1 / 2 * (1 / 2) / 4 * Rabs (c - 3.5) - 3 * T <= Rabs (two - one).
Proof.
  intros E s c T. subst c. subst s. subst E.
  destruct septagon64_clicked as [Hm [Hc Ht]].
  assert (Hk : Rounded.rnd Rounded.septagon64 (1 / 16 * 8) = 1 / 2).
  { change (Rounded.rnd Rounded.septagon64) with Binary64.round.
    replace (1 / 16 * 8) with (powerRZ 2 (-1)) by (simpl; lra).
    rewrite Binary64_round_powerRZ by lia. simpl. lra. }
  assert (Hk2 : Rounded.rnd Rounded.septagon64 (1 / 16 / 2 * 8)
                = 1 / 2 / 2).
  { change (Rounded.rnd Rounded.septagon64) with Binary64.round.
    replace (1 / 16 / 2 * 8) with (powerRZ 2 (-2)) by (simpl; lra).
    rewrite Binary64_round_powerRZ by lia. simpl. lra. }
  assert (HT : INR (2 * 1) * T <= 4).
  { pose proof (tolerance64_small (2 * 4) 4 ltac:(lra)) as [_ H].
    fold T in H. simpl INR.
    assert (/ 2 ^ 20 <= 1).
    { rewrite <- Rinv_1. apply Rinv_le_contravar; [lra | ].
      apply pow_R1_Rle. lra. }
    lra. }
  split; [exact Hk | split; [exact Hk2 | split; [exact HT | ]]].
  assert (H1 : 0 <= Rounded.targetDist Rounded.septagon64
                      (Tray.onClick (Rounded.mounted Rounded.septagon64))
               <= 4) by (rewrite Ht; lra).
  assert (H2 : Rounded.currentDist Rounded.septagon64
                 (Rounded.initialPosition Rounded.septagon64) <= 4) by lra.
  assert (H3 : 0 <= Rounded.rnd Rounded.septagon64 (1 / 16 * 8) <= 1)
    by (rewrite Hk; lra).
  assert (Hhalf : Rounded.rnd Rounded.septagon64 (1 / 16 / 2 * 8)
                  = Rounded.rnd Rounded.septagon64 (1 / 16 * 8) / 2)
    by (rewrite Hk, Hk2; reflexivity).
  assert (H4 : 4096 * ((3 * 4 + 1) * (3 * 4 + 1)) <= Rounded.Omega64).
  { pose proof Omega64_large as HO.
    apply Rle_trans with (2 ^ 40); [ | exact HO]. simpl. lra. }
  destruct (frame_length_changes_the_distance
              Rounded.u64 Rounded.tau64 Rounded.Omega64 Rounded.septagon64
              (1 / 16) 4 1
              (Tray.onClick (Rounded.mounted Rounded.septagon64))
              (Rounded.initialPosition Rounded.septagon64)
              septagon64_arithmetic septagon64_trigAccurate Hm
              H1 H2 H3 Hhalf (le_n 1) HT H4)
    as [_ [_ [[one [two [Hone [Htwo H]]]] _]]].
  exists one, two. split; [exact Hone | split; [exact Htwo | ]].
  rewrite Hk, Ht in H. exact H.
Defined.

(** ** Convergence *)

(** C2, as the specification words it, fails.  The tray of the case,
    clicked open, is 1.5 from its target; after one frame of 1 s it is 10.5
    from it. *)
Lemma long_frame_widens_gap :
  let s := Tray.onClick (Tray.mounted SeptagonCase.tray) in
  0 < 1
  /\ Tray.gap SeptagonCase.tray s = 1.5
  /\ Tray.gap SeptagonCase.tray (Tray.useFrame SeptagonCase.tray 1 s) = 10.5
  /\ ~ (Tray.gap SeptagonCase.tray (Tray.useFrame SeptagonCase.tray 1 s)
        <= Tray.gap SeptagonCase.tray s).
Proof.
  intros s. destruct septagon_clicked as [Hm [Hd Ht]]. fold s in Hm, Ht.
  assert (H0 : Tray.gap SeptagonCase.tray s = 1.5).
  { unfold Tray.gap. rewrite Hm, Hd, Ht. split_Rabs; lra. }
  assert (H1 : Tray.gap SeptagonCase.tray
                 (Tray.useFrame SeptagonCase.tray 1 s) = 10.5).
  { unfold Tray.gap. rewrite useFrame_targetDist.
    rewrite (useFrame_mounted _ _ _ _ Hm). simpl Tray.meshRef. cbv iota.
    rewrite currentDist_onRay, Ht, Hd.
    unfold Tray.newDist, MathUtils.lerp. split_Rabs; lra. }
  split; [lra | split; [exact H0 | split; [exact H1 | ]]].
  rewrite H0, H1. lra.
Qed.

(** C2, as the code has it, in rounded arithmetic.  For a target that is
    not negative and a frame whose computed factor [delta * 8] lies between
    0 and 2 (a frame of at most a quarter of a second), the gap after the
    frame is at most [|1 - delta * 8|] times, and so at most once, the gap
    before it, plus the rounding tolerance: the gap can grow, but by
    rounding error only.  ([Omega] bounds the squares the callback
    computes.) *)
Theorem gap_grows_by_rounding_only
    (u tau Omega : R) (E : Rounded.env) (delta : R) (s : Tray.state)
    (pos : Vector3.t) :
  Rounded.arithmetic u tau Omega (Rounded.rnd E) ->
  Rounded.trigAccurate u E ->
  Tray.meshRef s = Some pos ->
  let c := Rounded.currentDist E pos in
  let t := Rounded.targetDist E s in
  let k := Rounded.rnd E (delta * 8) in
  0 <= t -> 0 <= k <= 2 ->
  4096 * ((c + t + 1) * (c + t + 1)) <= Omega ->
  Rounded.gap E (Rounded.useFrame E delta s)
    <= Rabs (1 - k) * Rounded.gap E s + Rounded.tolerance u tau c t
  /\ Rounded.gap E (Rounded.useFrame E delta s)
    <= Rounded.gap E s + Rounded.tolerance u tau c t.
Proof.
  intros Harith Htrig Hm c t k Ht Hk HO.
  pose proof (currentDist_nonneg_rounded _ _ _ _ Harith pos) as Hc.
  fold c in Hc.
  destruct (tolerance_slack u tau Omega _ c t Harith ltac:(lra))
    as [Hslack _].
  pose proof (gap_step u tau Omega E t delta pos Harith Htrig Ht
                ltac:(fold k; lra) HO) as Hg.
  fold c k in Hg.
  assert (Hgap : Rounded.gap E s = Rabs (c - t)).
  { unfold Rounded.gap. rewrite Hm. reflexivity. }
  assert (Hgap' : Rounded.gap E (Rounded.useFrame E delta s)
                  = Rabs (Rounded.currentDist E
                            (Rounded.onRay E (Rounded.newDist E c t delta)
                                           (Vector3.y pos)) - t)).
  { unfold Rounded.gap. rewrite Rounded_useFrame_targetDist.
    rewrite (Rounded_useFrame_mounted E delta s pos Hm). reflexivity. }
  rewrite Hgap', Hgap.
  assert (H1 : Rabs (1 - k) * Rabs (c - t) <= 1 * Rabs (c - t)).
  { apply Rmult_le_compat_r; [apply Rabs_pos | split_Rabs; lra]. }
  split; lra.
Qed.

Lemma gap_grows_by_rounding_only_witness :
  let E := Rounded.septagon64 in
  let s := Tray.onClick (Rounded.mounted E) in
  let c := Rounded.currentDist E (Rounded.initialPosition E) in
  Rounded.targetDist E s = 3.5
  /\ 0 <= Rounded.rnd E (1 / 60 * 8) <= 2
  /\ Rounded.gap E (Rounded.useFrame E (1 / 60) s)
     <= Rounded.gap E s + Rounded.tolerance Rounded.u64 Rounded.tau64 c 3.5.
Proof.
  intros E s c. subst c. subst s. subst E.
  destruct septagon64_clicked as [Hm [Hc Ht]].
  assert (Hk : 0 <= Rounded.rnd Rounded.septagon64 (1 / 60 * 8) <= 2).
  { pose proof (rnd_unit _ _ _ _ (1 / 60 * 8) septagon64_arithmetic
                  ltac:(lra) Omega64_ge_1).
    lra. }
  split; [exact Ht | split; [exact Hk | ]].
  assert (H1 : 0 <= Rounded.targetDist Rounded.septagon64
                      (Tray.onClick (Rounded.mounted Rounded.septagon64)))
    by (rewrite Ht; lra).
  assert (H3 : 4096 * ((Rounded.currentDist Rounded.septagon64
                          (Rounded.initialPosition Rounded.septagon64)
                        + Rounded.targetDist Rounded.septagon64
                            (Tray.onClick
                               (Rounded.mounted Rounded.septagon64)) + 1)
                       * (Rounded.currentDist Rounded.septagon64
                            (Rounded.initialPosition Rounded.septagon64)
                          + Rounded.targetDist Rounded.septagon64
                              (Tray.onClick
                                 (Rounded.mounted Rounded.septagon64)) + 1))
               <= Rounded.Omega64).
  { rewrite Ht.
    set (c := Rounded.currentDist Rounded.septagon64
                (Rounded.initialPosition Rounded.septagon64)) in *.
    assert (Hsq : (c + 3.5 + 1) * (c + 3.5 + 1) <= 8 * 8)
      by (apply Rmult_le_compat; lra).
    pose proof Omega64_large as HO.
    apply Rle_trans with (2 ^ 40); [ | exact HO].
    apply Rle_trans with (4096 * (8 * 8)); [lra | simpl; lra]. }
  destruct (gap_grows_by_rounding_only
              Rounded.u64 Rounded.tau64 Rounded.Omega64 Rounded.septagon64
              (1 / 60) (Tray.onClick (Rounded.mounted Rounded.septagon64))
              (Rounded.initialPosition Rounded.septagon64)
              septagon64_arithmetic septagon64_trigAccurate Hm
              H1 Hk H3) as [_ H].
  rewrite Ht in H. exact H.
Defined.

(** ** Toggling *)

(** C7. Clicking twice restores [isOpen] (and the whole state); a click
    leaves the mesh, and so the distance read from it, as it is; and the
    frame after a click interpolates from that same distance towards the
    other target. *)
Theorem onClick_twice_and_distance
    (p : Tray.props) (s : Tray.state) (delta : R) :
  Tray.isOpen (Tray.onClick s) = negb (Tray.isOpen s)
  /\ Tray.isOpen (Tray.onClick (Tray.onClick s)) = Tray.isOpen s
  /\ Tray.onClick (Tray.onClick s) = s
  /\ Tray.meshRef (Tray.onClick s) = Tray.meshRef s
  /\ Tray.distance (Tray.onClick s) = Tray.distance s
  /\ Tray.distance (Tray.onClick (Tray.onClick s)) = Tray.distance s
  /\ Tray.meshRef (Tray.useFrame p delta (Tray.onClick s))
     = option_map
         (fun pos =>
            Tray.onRay p
              (Tray.newDist (Tray.currentDist pos)
                            (Tray.targetDist p (Tray.onClick s)) delta)
              (Vector3.y pos))
         (Tray.meshRef s).
Proof.
  destruct s as [o m]. unfold Tray.onClick, Tray.distance. simpl.
  rewrite negb_involutive.
  repeat split.
  unfold Tray.useFrame. simpl. destruct m; reflexivity.
Qed.

(** ** Seeding and continuity *)

(** C9, as the specification words it, fails.  The tray of the case is
    clicked open, a frame of 1/8 s puts it at its open distance 3.5, it is
    clicked closed, and a frame of 1 s interpolates to -8.5: the mesh is at
    x = 8.5, on the far side of the centre.  The next frame, of length 0,
    reads the distance 8.5 back and puts the mesh at x = -8.5: it jumps by
    17 in no time, while the distance read back stays 8.5. *)
Lemma zero_length_frame_jumps_across_centre :
  let p := SeptagonCase.tray in
  let s := Tray.run p [Tray.Click; Tray.Frame (1 / 8); Tray.Click;
                        Tray.Frame 1] (Tray.mounted p) in
  Tray.meshRef s = Some (Tray.onRay p (-8.5) 0.75)
  /\ Tray.meshRef (Tray.useFrame p 0 s) = Some (Tray.onRay p 8.5 0.75)
  /\ Tray.onRay p (-8.5) 0.75 = Vector3.mk 8.5 0.75 0
  /\ Tray.onRay p 8.5 0.75 = Vector3.mk (-8.5) 0.75 0
  /\ Tray.distance s = Some 8.5
  /\ Tray.distance (Tray.useFrame p 0 s) = Some 8.5.
Proof.
  intros p s. subst s. subst p.
  destruct septagon_clicked as [Hm [Hd Ht]].
  set (p := SeptagonCase.tray) in *.
  set (s1 := Tray.onClick (Tray.mounted p)) in *.
  set (s := Tray.run p [Tray.Click; Tray.Frame (1 / 8); Tray.Click;
                        Tray.Frame 1] (Tray.mounted p)).
  assert (Hh : Vector3.y (Tray.initialPosition p) = 0.75).
  { simpl. unfold SeptagonCase.height. lra. }
  assert (H2 : Tray.useFrame p (1 / 8) s1
               = {| Tray.isOpen := true;
                    Tray.meshRef := Some (Tray.onRay p 3.5 0.75) |}).
  { rewrite (useFrame_mounted p (1 / 8) s1 _ Hm).
    rewrite Ht, Hd, Hh. f_equal. f_equal. f_equal.
    unfold Tray.newDist, MathUtils.lerp. lra. }
  assert (H4 : s = {| Tray.isOpen := false;
                      Tray.meshRef := Some (Tray.onRay p (-8.5) 0.75) |}).
  { unfold s. simpl Tray.run. fold s1. rewrite H2.
    unfold Tray.onClick. simpl Tray.isOpen. simpl Tray.meshRef.
    erewrite useFrame_mounted by reflexivity.
    simpl Tray.isOpen. rewrite currentDist_onRay.
    unfold Tray.targetDist. simpl Tray.isOpen. cbv iota.
    unfold p. rewrite septagon_closedDist.
    f_equal. f_equal. f_equal.
    rewrite Rabs_pos_eq by lra.
    unfold Tray.newDist, MathUtils.lerp. lra. }
  assert (H5 : Tray.useFrame p 0 s
               = {| Tray.isOpen := false;
                    Tray.meshRef := Some (Tray.onRay p 8.5 0.75) |}).
  { rewrite H4. erewrite useFrame_mounted by reflexivity.
    simpl Tray.isOpen. rewrite currentDist_onRay.
    unfold Tray.targetDist. simpl Tray.isOpen. cbv iota.
    unfold p. rewrite septagon_closedDist.
    f_equal. f_equal. f_equal.
    replace (Rabs (-8.5)) with 8.5 by (split_Rabs; lra).
    unfold Tray.newDist, MathUtils.lerp. lra. }
  split; [rewrite H4; reflexivity | ].
  split; [rewrite H5; reflexivity | ].
  split; [unfold p; rewrite septagon_onRay; f_equal; lra | ].
  split; [unfold p; rewrite septagon_onRay; f_equal; lra | ].
  split.
  - rewrite H4. unfold Tray.distance. simpl. rewrite currentDist_onRay.
    f_equal. split_Rabs; lra.
  - rewrite H5. unfold Tray.distance. simpl. rewrite currentDist_onRay.
    f_equal. split_Rabs; lra.
Qed.

(** C9, as the code has it, in rounded arithmetic.  The tray is mounted
    with its mesh on the ray at [closedDist], and the distance read back
    from there is [closedDist] up to rounding.  The component keeps no
    distance: in every state reached after mounting the mesh is on the ray
    at some signed distance [d], a click leaves it there, and a frame puts
    it at the signed distance [nd] interpolated from [|d|], which is
    [|d| + k * (t - |d|)] up to the tolerance.  A mesh at [d >= 0] is
    moved by at most [k * |t - d|] plus the tolerance, so by little when
    the frame is short; a mesh at [d < 0] is moved across the centre, by
    at least [2 * |d| - k * |t - |d||] less the tolerance, however short
    the frame. *)
Theorem mesh_seeded_and_moved_along_ray
    (u tau Omega : R) (E : Rounded.env) (es : list Tray.event) :
  Rounded.arithmetic u tau Omega (Rounded.rnd E) ->
  Rounded.trigAccurate u E ->
  0 <= Rounded.closedDist E -> 0 <= Rounded.openDist E ->
  16 * ((Rounded.closedDist E + 1) * (Rounded.closedDist E + 1)) <= Omega ->
  let s := Rounded.run E es (Rounded.mounted E) in
  Tray.meshRef (Rounded.mounted E)
    = Some (Rounded.onRay E (Rounded.closedDist E)
                          (Rounded.rnd E (Rounded.height E / 2)))
  /\ (exists c0,
        Rounded.distance E (Rounded.mounted E) = Some c0
        /\ Rabs (c0 - Rounded.closedDist E)
           <= 64 * u * Rounded.closedDist E + 8 * tau)
  /\ Tray.meshRef (Tray.onClick s) = Tray.meshRef s
  /\ exists d h,
       Tray.meshRef s = Some (Rounded.onRay E d h)
       /\ forall delta,
            let t := Rounded.targetDist E s in
            let k := Rounded.rnd E (delta * 8) in
            0 <= k <= 8 ->
            16384 * ((Rabs d + t + 1) * (Rabs d + t + 1)) <= Omega ->
            exists nd,
              Tray.meshRef (Rounded.useFrame E delta s)
                = Some (Rounded.onRay E nd h)
              /\ Rabs (nd - (Rabs d + k * (t - Rabs d)))
                 <= Rounded.tolerance u tau (Rabs d) t
              /\ (0 <= d ->
                  Rabs (nd - d)
                  <= k * Rabs (t - d) + Rounded.tolerance u tau d t)
              /\ (d < 0 ->
                  2 * Rabs d - k * Rabs (t - Rabs d)
                  - Rounded.tolerance u tau (Rabs d) t
                  <= nd - d).
Proof.
  intros Harith Htrig Hcl Hop HOc s.
  split; [reflexivity | ].
  split.
  { eexists. split; [reflexivity | ].
    pose proof (readBack_error _ _ _ _ Harith Htrig (Rounded.closedDist E)
                  (Rounded.rnd E (Rounded.height E / 2))) as H.
    rewrite (Rabs_pos_eq _ Hcl) in H. apply H, HOc. }
  split; [reflexivity | ].
  destruct (Rounded_reachable E es (Rounded.mounted E)) as [d [h Hm]].
  { eexists. eexists. reflexivity. }
  fold s in Hm. exists d, h. split; [exact Hm | ].
  intros delta t k Hk HO.
  assert (Ht : 0 <= t).
  { unfold t, Rounded.targetDist. destruct (Tray.isOpen s); assumption. }
  rewrite (Rounded_useFrame_mounted E delta s _ Hm). fold t.
  eexists. split; [reflexivity | ].
  pose proof (newDist_from_onRay u tau Omega E t delta d h Harith Htrig
                Ht Hk HO) as Hn.
  fold k in Hn.
  set (nd := Rounded.newDist E (Rounded.currentDist E (Rounded.onRay E d h))
                             t delta) in *.
  split; [exact Hn | ].
  apply Rabs_le_both in Hn.
  split.
  - intros Hd. rewrite (Rabs_pos_eq _ Hd) in Hn.
    assert (Hkt : k * Rabs (t - d) = Rabs (k * (t - d))).
    { rewrite Rabs_mult, (Rabs_pos_eq k) by lra. reflexivity. }
    rewrite Hkt. set (m := k * (t - d)) in *.
    split_Rabs; lra.
  - intros Hd. rewrite (Rabs_left _ Hd) in Hn |- *.
    assert (Hkt : k * Rabs (t - - d) = Rabs (k * (t - - d))).
    { rewrite Rabs_mult, (Rabs_pos_eq k) by lra. reflexivity. }
    rewrite Hkt. set (m := k * (t - - d)) in *.
    split_Rabs; lra.
Qed.

Lemma mesh_seeded_and_moved_along_ray_witness :
  let E := Rounded.septagon64 in
  Rounded.closedDist E = 2 /\ Rounded.openDist E = 3.5
  /\ exists c0,
       Rounded.distance E (Rounded.mounted E) = Some c0
       /\ Rabs (c0 - Rounded.closedDist E)
          <= 64 * Rounded.u64 * Rounded.closedDist E + 8 * Rounded.tau64.
Proof.
  intros E. subst E.
  split; [reflexivity | split; [reflexivity | ]].
  assert (H1 : 0 <= Rounded.closedDist Rounded.septagon64)
    by (change (Rounded.closedDist Rounded.septagon64) with 2; lra).
  assert (H2 : 0 <= Rounded.openDist Rounded.septagon64)
    by (change (Rounded.openDist Rounded.septagon64) with 3.5; lra).
  assert (H3 : 16 * ((Rounded.closedDist Rounded.septagon64 + 1)
                     * (Rounded.closedDist Rounded.septagon64 + 1))
               <= Rounded.Omega64).
  { change (Rounded.closedDist Rounded.septagon64) with 2.
    pose proof Omega64_large as HO.
    apply Rle_trans with (2 ^ 40); [ | exact HO]. simpl. lra. }
  apply (mesh_seeded_and_moved_along_ray
           Rounded.u64 Rounded.tau64 Rounded.Omega64 Rounded.septagon64
           [Tray.Click; Tray.Frame (1 / 60)]
           septagon64_arithmetic septagon64_trigAccurate H1 H2 H3).
Defined.

(** ** Position after a frame *)


(** ** The calendar *)

Local Open Scope Z_scope.

Lemma DayFromYear_bounds (y : Z) :
  146097 * (y - 1970) - 506 <= 400 * Date.DayFromYear y
  <= 146097 * (y - 1970) + 589.
Proof. unfold Date.DayFromYear. div_mod_lia. Qed.

Lemma DayFromYear_succ (y : Z) :
  Date.DayFromYear (y + 1) = Date.DayFromYear y + Date.DaysInYear y.
Proof.
  unfold Date.DayFromYear, Date.DaysInYear.
  destruct (Z.eqb_spec (y mod 4) 0); cbn [negb];
    destruct (Z.eqb_spec (y mod 100) 0); cbn [negb];
    destruct (Z.eqb_spec (y mod 400) 0); cbn [negb]; div_mod_lia.
Qed.

Lemma DaysInYear_cases (y : Z) :
  Date.DaysInYear y = 365 \/ Date.DaysInYear y = 366.
Proof.
  unfold Date.DaysInYear.
  repeat match goal with
         | |- context [if ?b then _ else _] => destruct b
         end; auto.
Qed.

(** [YearFromTime] meets its definition in ECMA-262: the year found starts
    on or before the day of [t], and the next year starts after it. *)
Lemma YearFromTime_spec (t : Z) :
  Date.DayFromYear (Date.YearFromTime t) <= Date.Day t
  < Date.DayFromYear (Date.YearFromTime t + 1).
Proof.
  unfold Date.YearFromTime.
  generalize (Date.Day t); intro d. cbv zeta.
  set (y := 1970 + 400 * d / 146097).
  assert (Hy : 146097 * (y - 1970) <= 400 * d
               < 146097 * (y - 1970) + 146097)
    by (subst y; div_mod_lia).
  clearbody y.
  pose proof (DayFromYear_bounds (y - 1)).
  pose proof (DayFromYear_bounds y).
  pose proof (DayFromYear_bounds (y + 1)).
  pose proof (DayFromYear_bounds (y + 1 + 1)).
  destruct (Z.ltb_spec d (Date.DayFromYear y)).
  - replace (y - 1 + 1) with y by lia. lia.
  - destruct (Z.leb_spec (Date.DayFromYear (y + 1)) d); lia.
Qed.

Lemma TimeFromYear_YearFromTime (t : Z) :
  Date.TimeFromYear (Date.YearFromTime t) <= t
  < Date.TimeFromYear (Date.YearFromTime t + 1).
Proof.
  pose proof (YearFromTime_spec t) as H.
  unfold Date.TimeFromYear, Date.Day, Date.msPerDay in *.
  revert H.
  generalize (Date.DayFromYear (Date.YearFromTime t)).
  generalize (Date.DayFromYear (Date.YearFromTime t + 1)).
  intros a b H. div_mod_lia.
Qed.

Lemma InLeapYear_cases (t : Z) :
  Date.InLeapYear t = 0 \/ Date.InLeapYear t = 1.
Proof. unfold Date.InLeapYear. destruct (_ =? _); auto. Qed.

Lemma DayWithinYear_range (t : Z) :
  0 <= Date.DayWithinYear t < 365 + Date.InLeapYear t.
Proof.
  unfold Date.DayWithinYear, Date.InLeapYear.
  pose proof (YearFromTime_spec t) as H.
  rewrite DayFromYear_succ in H.
  destruct (DaysInYear_cases (Date.YearFromTime t)) as [E | E];
    rewrite E in *; simpl; lia.
Qed.

Lemma MonthFromTime_range (t : Z) : 0 <= Date.MonthFromTime t <= 11.
Proof.
  unfold Date.MonthFromTime. cbv zeta.
  repeat match goal with
         | |- context [if ?b then _ else _] => destruct b
         end; lia.
Qed.

Lemma DateFromTime_range (t : Z) : 1 <= Date.DateFromTime t <= 31.
Proof.
  pose proof (DayWithinYear_range t) as Hd.
  pose proof (InLeapYear_cases t) as Hl.
  unfold Date.DateFromTime, Date.MonthFromTime. cbv zeta.
  revert Hd Hl.
  generalize (Date.DayWithinYear t) (Date.InLeapYear t). intros d l Hd Hl.
  repeat match goal with
         | |- context [if ?a <? ?b then _ else _] =>
             destruct (Z.ltb_spec a b)
         end; lia.
Qed.

Lemma WeekDay_range (t : Z) : 0 <= Date.WeekDay t < 7.
Proof. unfold Date.WeekDay. div_mod_lia. Qed.

Lemma HourFromTime_range (t : Z) : 0 <= Date.HourFromTime t < 24.
Proof. unfold Date.HourFromTime. div_mod_lia. Qed.

Lemma MinFromTime_range (t : Z) : 0 <= Date.MinFromTime t < 60.
Proof. unfold Date.MinFromTime. div_mod_lia. Qed.

Lemma SecFromTime_range (t : Z) : 0 <= Date.SecFromTime t < 60.
Proof. unfold Date.SecFromTime. div_mod_lia. Qed.

Lemma hourField_range (hc : Intl.hourCycle) (h : Z) :
  0 <= h < 24 -> 0 <= Intl.hourField hc h <= 24.
Proof.
  intros H. destruct hc; simpl; [lia | ].
  destruct (Z.eqb_spec h 0); lia.
Qed.

(** Known dates. *)
Example epoch_is_a_Thursday :
  Date.WeekDay 0 = 4 /\ Date.YearFromTime 0 = 1970
  /\ Date.MonthFromTime 0 = 0 /\ Date.DateFromTime 0 = 1.
Proof. repeat split. Qed.

Example leap_day_2000 :
  let t := Date.UTC 2000 1 29 12 0 0 in
  Date.YearFromTime t = 2000 /\ Date.MonthFromTime t = 1
  /\ Date.DateFromTime t = 29 /\ Date.WeekDay t = 2.
Proof. repeat split. Qed.

Example no_leap_day_1900 :
  let t := Date.UTC 1900 1 28 23 59 59 + 1000 in
  Date.YearFromTime t = 1900 /\ Date.MonthFromTime t = 2
  /\ Date.DateFromTime t = 1 /\ Date.WeekDay t = 4.
Proof. repeat split. Qed.

Example last_second_of_1969 :
  Date.YearFromTime (-1) = 1969 /\ Date.MonthFromTime (-1) = 11
  /\ Date.DateFromTime (-1) = 31 /\ Date.WeekDay (-1) = 3
  /\ Date.HourFromTime (-1) = 23 /\ Date.SecFromTime (-1) = 59.
Proof. repeat split. Qed.

(** ** The strings of the clock *)

Lemma digit_cases (k : Z) :
  0 <= k <= 9 ->
  k = 0 \/ k = 1 \/ k = 2 \/ k = 3 \/ k = 4 \/ k = 5 \/ k = 6 \/ k = 7
  \/ k = 8 \/ k = 9.
Proof. lia. Qed.

Lemma isDigit_digit (k : Z) :
  0 <= k <= 9 -> ClockContent.isDigit (Intl.digit k) = true.
Proof.
  intros H. destruct (digit_cases k H) as
    [-> | [-> | [-> | [-> | [-> | [-> | [-> | [-> | [-> | ->]]]]]]]]];
    reflexivity.
Qed.

Lemma digitValue_digit (k : Z) :
  0 <= k <= 9 -> ClockContent.digitValue (Intl.digit k) = k.
Proof.
  intros H. destruct (digit_cases k H) as
    [-> | [-> | [-> | [-> | [-> | [-> | [-> | [-> | [-> | ->]]]]]]]]];
    reflexivity.
Qed.

Lemma twoDigit_digits (n : Z) :
  exists d1 d2,
    Intl.twoDigit n = String d1 (String d2 EmptyString)
    /\ ClockContent.isDigit d1 = true /\ ClockContent.isDigit d2 = true.
Proof.
  unfold Intl.twoDigit. do 2 eexists. split; [reflexivity | ].
  split; apply isDigit_digit; div_mod_lia.
Qed.

Lemma parseDecimal_twoDigit (n : Z) :
  0 <= n < 100 -> ClockContent.parseDecimal (Intl.twoDigit n) = n.
Proof.
  intros H. unfold Intl.twoDigit, ClockContent.parseDecimal.
  cbn [ClockContent.parseDecimalFrom].
  rewrite !digitValue_digit by div_mod_lia. div_mod_lia.
Qed.

Lemma parseDecimal_numeric (n : Z) :
  0 <= n < 100 -> ClockContent.parseDecimal (Intl.numeric n) = n.
Proof.
  intros H. unfold Intl.numeric. destruct (Z.ltb_spec n 10).
  - unfold ClockContent.parseDecimal. cbn [ClockContent.parseDecimalFrom].
    rewrite digitValue_digit by lia. lia.
  - apply parseDecimal_twoDigit, H.
Qed.

(** Two digits, a colon, two digits, a colon, two digits: whatever the
    three numbers are. *)
Lemma isHHMMSS_twoDigits (h m s : Z) :
  ClockContent.isHHMMSS
    (Intl.twoDigit h ++ ":" ++ Intl.twoDigit m ++ ":" ++ Intl.twoDigit s)
  = true.
Proof.
  destruct (twoDigit_digits h) as [h1 [h2 [-> [Hh1 Hh2]]]].
  destruct (twoDigit_digits m) as [m1 [m2 [-> [Hm1 Hm2]]]].
  destruct (twoDigit_digits s) as [s1 [s2 [-> [Hs1 Hs2]]]].
  unfold ClockContent.isHHMMSS. simpl.
  rewrite Hh1, Hh2, Hm1, Hm2, Hs1, Hs2. reflexivity.
Qed.

Lemma substring_twoDigits (h m s : Z) :
  let str :=
    (Intl.twoDigit h ++ ":" ++ Intl.twoDigit m ++ ":" ++ Intl.twoDigit s)%string
  in
  substring 0 2 str = Intl.twoDigit h
  /\ substring 3 2 str = Intl.twoDigit m
  /\ substring 6 2 str = Intl.twoDigit s.
Proof. unfold Intl.twoDigit. simpl. repeat split. Qed.

Lemma weekdayLong_nth (wd : Z) :
  0 <= wd < 7 ->
  Intl.weekdayLong wd = nth (Z.to_nat wd) Intl.weekdaysLong EmptyString.
Proof.
  intros H.
  assert (C : wd = 0 \/ wd = 1 \/ wd = 2 \/ wd = 3 \/ wd = 4 \/ wd = 5
              \/ wd = 6) by lia.
  destruct C as [-> | [-> | [-> | [-> | [-> | [-> | ->]]]]]]; reflexivity.
Qed.

Lemma monthShort_nth (m : Z) :
  0 <= m <= 11 ->
  Intl.monthShort m = nth (Z.to_nat m) Intl.monthsShort EmptyString.
Proof.
  intros H.
  assert (C : m = 0 \/ m = 1 \/ m = 2 \/ m = 3 \/ m = 4 \/ m = 5 \/ m = 6
              \/ m = 7 \/ m = 8 \/ m = 9 \/ m = 10 \/ m = 11) by lia.
  destruct C as
    [-> | [-> | [-> | [-> | [-> | [-> | [-> | [-> | [-> | [-> | [-> | ->]]]]]]]]]]];
    reflexivity.
Qed.

Lemma nth_In_names (names : list string) (k : Z) :
  0 <= k < Z.of_nat (List.length names) ->
  In (nth (Z.to_nat k) names EmptyString) names.
Proof. intros H. apply nth_In. lia. Qed.

Lemma isMonD_month_day (m d : Z) :
  0 <= m <= 11 -> 1 <= d <= 31 ->
  ClockContent.isMonD (Intl.monthShort m ++ " " ++ Intl.numeric d) = true.
Proof.
  intros Hm Hd.
  assert (C : m = 0 \/ m = 1 \/ m = 2 \/ m = 3 \/ m = 4 \/ m = 5 \/ m = 6
              \/ m = 7 \/ m = 8 \/ m = 9 \/ m = 10 \/ m = 11) by lia.
  unfold Intl.numeric. destruct (Z.ltb_spec d 10) as [Hlt | Hge].
  - pose proof (isDigit_digit d ltac:(lia)) as Hdig.
    destruct C as
      [-> | [-> | [-> | [-> | [-> | [-> | [-> | [-> | [-> | [-> | [-> | ->]]]]]]]]]]];
      unfold ClockContent.isMonD; simpl; rewrite Hdig; reflexivity.
  - destruct (twoDigit_digits d) as [d1 [d2 [-> [H1 H2]]]].
    destruct C as
      [-> | [-> | [-> | [-> | [-> | [-> | [-> | [-> | [-> | [-> | [-> | ->]]]]]]]]]]];
      unfold ClockContent.isMonD; simpl; rewrite H1, H2; reflexivity.
Qed.

(** C8. For every instant, every offset of local time and either 24-hour
    cycle, the time string is two digits, a colon, two digits, a colon and
    two digits, and these numerals read back as the hour, the minute and the
    second of local time; the day string is the full English name of the
    weekday; the date string is the three-letter English month, a space and
    the day of the month in one or two digits, and nothing else.  An
    instant whose local time is a Saturday, 03:05:09, gives ["Saturday"]
    and ["03:05:09"]. *)
Theorem clock_strings (LocalTZA : Z -> Z) (hc : Intl.hourCycle) (time : Z) :
  let t := ClockContent.LocalTime LocalTZA time in
  let snap := ClockContent.render LocalTZA hc time in
  let hh := Intl.hourField hc (Date.HourFromTime t) in
  ClockContent.isHHMMSS (ClockContent.timeString snap) = true
  /\ ClockContent.parseDecimal
       (substring 0 2 (ClockContent.timeString snap)) = hh
  /\ ClockContent.parseDecimal
       (substring 3 2 (ClockContent.timeString snap)) = Date.MinFromTime t
  /\ ClockContent.parseDecimal
       (substring 6 2 (ClockContent.timeString snap)) = Date.SecFromTime t
  /\ 0 <= hh <= 24 /\ 0 <= Date.MinFromTime t < 60
  /\ 0 <= Date.SecFromTime t < 60
  /\ ClockContent.dayString snap
     = nth (Z.to_nat (Date.WeekDay t)) Intl.weekdaysLong EmptyString
  /\ In (ClockContent.dayString snap) Intl.weekdaysLong
  /\ (exists month day,
        ClockContent.dateString snap = (month ++ " " ++ day)%string
        /\ month
           = nth (Z.to_nat (Date.MonthFromTime t)) Intl.monthsShort EmptyString
        /\ In month Intl.monthsShort
        /\ day = Intl.numeric (Date.DateFromTime t)
        /\ ClockContent.parseDecimal day = Date.DateFromTime t
        /\ 1 <= Date.DateFromTime t <= 31)
  /\ ClockContent.isMonD (ClockContent.dateString snap) = true
  /\ (Date.WeekDay t = 6 -> Date.HourFromTime t = 3 ->
      Date.MinFromTime t = 5 -> Date.SecFromTime t = 9 ->
      ClockContent.dayString snap = "Saturday"%string
      /\ ClockContent.timeString snap = "03:05:09"%string).
Proof.
  intros t snap hh.
  pose proof (HourFromTime_range t) as Hh.
  pose proof (MinFromTime_range t) as Hm.
  pose proof (SecFromTime_range t) as Hs.
  pose proof (WeekDay_range t) as Hw.
  pose proof (MonthFromTime_range t) as Hmo.
  pose proof (DateFromTime_range t) as Hd.
  pose proof (hourField_range hc _ Hh) as Hhh. fold hh in Hhh.
  assert (Et : ClockContent.timeString snap
               = (Intl.twoDigit hh ++ ":" ++ Intl.twoDigit (Date.MinFromTime t)
                  ++ ":" ++ Intl.twoDigit (Date.SecFromTime t))%string)
    by reflexivity.
  assert (Ed : ClockContent.dateString snap
               = (Intl.monthShort (Date.MonthFromTime t) ++ " "
                  ++ Intl.numeric (Date.DateFromTime t))%string)
    by reflexivity.
  assert (Ew : ClockContent.dayString snap
               = Intl.weekdayLong (Date.WeekDay t)) by reflexivity.
  destruct (substring_twoDigits hh (Date.MinFromTime t) (Date.SecFromTime t))
    as [S1 [S2 S3]].
  split; [rewrite Et; apply isHHMMSS_twoDigits | ].
  split; [rewrite Et, S1; apply parseDecimal_twoDigit; lia | ].
  split; [rewrite Et, S2; apply parseDecimal_twoDigit; lia | ].
  split; [rewrite Et, S3; apply parseDecimal_twoDigit; lia | ].
  split; [exact Hhh | split; [exact Hm | split; [exact Hs | ]]].
  split; [rewrite Ew; apply weekdayLong_nth, Hw | ].
  split.
  { rewrite Ew, (weekdayLong_nth _ Hw). apply nth_In_names. simpl. lia. }
  split.
  { exists (Intl.monthShort (Date.MonthFromTime t)),
      (Intl.numeric (Date.DateFromTime t)).
    split; [exact Ed | ].
    split; [apply monthShort_nth, Hmo | ].
    split; [rewrite (monthShort_nth _ Hmo); apply nth_In_names; simpl; lia | ].
    split; [reflexivity | ].
    split; [apply parseDecimal_numeric; lia | exact Hd]. }
  split; [rewrite Ed; apply isMonD_month_day; assumption | ].
  intros Ewd Eh Em Es. split.
  - rewrite Ew, Ewd. reflexivity.
  - rewrite Et. unfold hh. rewrite Eh, Em, Es. destruct hc; reflexivity.
Qed.

Lemma clock_strings_witness :
  let time := Date.UTC 2024 0 6 3 5 9 in
  let snap := ClockContent.render (fun _ => 0) Intl.h23 time in
  Date.WeekDay time = 6 /\ Date.HourFromTime time = 3
  /\ Date.MinFromTime time = 5 /\ Date.SecFromTime time = 9
  /\ ClockContent.dayString snap = "Saturday"%string
  /\ ClockContent.timeString snap = "03:05:09"%string.
Proof.
  intros time snap.
  split; [reflexivity | split; [reflexivity | split; [reflexivity | ]]].
  split; [reflexivity | ].
  apply (clock_strings (fun _ => 0) Intl.h23 time); reflexivity.
Defined.

(** * Further properties of the code *)

Local Open Scope R_scope.

(** ** Placement in the frame of a mesh *)

Lemma sin_cos_square (a : R) : sin a * sin a + cos a * cos a = 1.
Proof. pose proof (sin2_cos2 a) as H. unfold Rsqr in H. exact H. Qed.

(** A point given by its coordinates [u] along and [v] across the direction
    [a], measured against the direction [a + b]. *)
Lemma side_turned (a b u v h : R) :
  Object3D.side (a + b)
    (Vector3.mk (cos a * u - sin a * v) h (sin a * u + cos a * v))
  = v * cos b - u * sin b.
Proof.
  unfold Object3D.side. simpl. rewrite cos_plus, sin_plus.
  pose proof (sin_cos_square a) as H.
  replace ((cos a * cos b - sin a * sin b) * (sin a * u + cos a * v) -
           (sin a * cos b + cos a * sin b) * (cos a * u - sin a * v))
    with ((sin a * sin a + cos a * cos a) * (v * cos b - u * sin b)) by ring.
  rewrite H. ring.
Qed.

Lemma along_turned (a b u v h : R) :
  Object3D.along (a + b)
    (Vector3.mk (cos a * u - sin a * v) h (sin a * u + cos a * v))
  = u * cos b + v * sin b.
Proof.
  unfold Object3D.along. simpl. rewrite cos_plus, sin_plus.
  pose proof (sin_cos_square a) as H.
  replace ((cos a * cos b - sin a * sin b) * (cos a * u - sin a * v) +
           (sin a * cos b + cos a * sin b) * (sin a * u + cos a * v))
    with ((sin a * sin a + cos a * cos a) * (u * cos b + v * sin b)) by ring.
  rewrite H. ring.
Qed.

Lemma localToWorld_meshAt (p : Tray.props) (d h : R) (v : Vector3.t) :
  Object3D.localToWorld (Tray.meshAt p d h) v
  = Vector3.mk
      (cos (Tray.faceAngle p) * (d + Vector3.x v)
       - sin (Tray.faceAngle p) * Vector3.z v)
      (h + Vector3.y v)
      (sin (Tray.faceAngle p) * (d + Vector3.x v)
       + cos (Tray.faceAngle p) * Vector3.z v).
Proof.
  unfold Object3D.localToWorld, Object3D.add, Object3D.rotateY, Tray.meshAt,
    Tray.onRay.
  simpl. rewrite cos_neg, sin_neg. f_equal; ring.
Qed.

Lemma localToWorld_meshAt_radial (p : Tray.props) (d h u : R) :
  Object3D.localToWorld (Tray.meshAt p d h) (Vector3.mk u 0 0)
  = Tray.onRay p (d + u) h.
Proof.
  rewrite localToWorld_meshAt. unfold Tray.onRay. simpl. f_equal; ring.
Qed.

(** X1. The box of the tray has its long side along the ray of its face:
    closed, it reaches from 0.1 outside the inner radius to 0.3 inside the
    outer radius; open, it is the same span moved out by 1.5. *)
Theorem tray_body_extent (p : Tray.props) (h : R) :
  Object3D.localToWorld (Tray.meshAt p (Tray.closedDist p) h)
    (Vector3.mk (- (Tray.length p / 2)) 0 0)
  = Tray.onRay p (Tray.innerRadius p + 0.1) h
  /\ Object3D.localToWorld (Tray.meshAt p (Tray.closedDist p) h)
       (Vector3.mk (Tray.length p / 2) 0 0)
     = Tray.onRay p (Tray.radius p - 0.3) h
  /\ Object3D.localToWorld (Tray.meshAt p (Tray.openDist p) h)
       (Vector3.mk (- (Tray.length p / 2)) 0 0)
     = Tray.onRay p (Tray.innerRadius p + 1.6) h
  /\ Object3D.localToWorld (Tray.meshAt p (Tray.openDist p) h)
       (Vector3.mk (Tray.length p / 2) 0 0)
     = Tray.onRay p (Tray.radius p + 1.2) h.
Proof.
  rewrite !localToWorld_meshAt_radial.
  unfold Tray.openDist, Tray.closedDist, Tray.startRadius, Tray.length.
  repeat split; f_equal; lra.
Qed.

(** X2. Wherever the frame callback has put the tray, the front plate sits
    on the ray of the face just beyond the outer end of the tray's box, its
    inner face flush with that end; the handle sits on the same ray with its
    inner face on the outer face of the plate; and the dark inset is 0.05
    above the centre of the tray. *)
Theorem tray_parts_placement (p : Tray.props) (d h : R) :
  let plate := Tray.frontPlate p in
  let grip := Tray.handle p in
  let thickness (part : Vector3.t * (R * R * R)) := fst (fst (snd part)) in
  Object3D.localToWorld (Tray.meshAt p d h) (fst plate)
  = Tray.onRay p (d + Tray.length p / 2 + 0.02) h
  /\ Object3D.localToWorld (Tray.meshAt p d h) (fst grip)
     = Tray.onRay p (d + Tray.length p / 2 + 0.05) h
  /\ Object3D.localToWorld (Tray.meshAt p d h) (fst (Tray.content p))
     = Tray.onRay p d (h + 0.05)
  /\ Vector3.x (fst plate) - thickness plate / 2 = Tray.length p / 2
  /\ Vector3.x (fst grip) - thickness grip / 2
     = Vector3.x (fst plate) + thickness plate / 2.
Proof.
  intros plate grip thickness.
  unfold plate, grip, thickness, Tray.frontPlate, Tray.handle, Tray.content.
  cbn [fst snd].
  rewrite !localToWorld_meshAt_radial.
  split; [f_equal; lra | ].
  split; [f_equal; lra | ].
  split.
  - rewrite localToWorld_meshAt. unfold Tray.onRay. simpl. f_equal; ring.
  - simpl. split; lra.
Qed.

(** ** Faces and dividers *)

Lemma Divider_angle_before_face (p : Tray.props) :
  Tray.segments p <> 0 ->
  Divider.angle (Tray.segments p) (Tray.index p)
  = Tray.faceAngle p + - (Tray.angleStep p / 2).
Proof.
  intros _. unfold Divider.angle, Tray.faceAngle, Tray.angleStep, Rdiv.
  lra.
Qed.

Lemma Divider_angle_after_face (p : Tray.props) :
  Tray.segments p <> 0 ->
  Divider.angle (Tray.segments p) (Tray.index p + 1)
  = Tray.faceAngle p + Tray.angleStep p / 2.
Proof.
  intros _. unfold Divider.angle, Tray.faceAngle, Tray.angleStep, Rdiv.
  lra.
Qed.

Lemma half_step_range (p : Tray.props) :
  3 <= Tray.segments p ->
  0 < Tray.angleStep p / 2 <= PI / 3.
Proof.
  intros Hs. rewrite Tray_angleStep_half by lra.
  pose proof PI_RGT_0 as Hpi.
  split.
  - apply Rdiv_lt_0_compat; lra.
  - unfold Rdiv. apply Rmult_le_compat_l; [lra | ].
    apply Rinv_le_contravar; lra.
Qed.

Lemma half_step_sin_cos (p : Tray.props) :
  3 <= Tray.segments p ->
  0 < sin (Tray.angleStep p / 2) /\ 1 / 2 <= cos (Tray.angleStep p / 2).
Proof.
  intros Hs. pose proof (half_step_range p Hs) as [Hlo Hhi].
  pose proof PI_RGT_0 as Hpi.
  split.
  - apply sin_gt_0; lra.
  - rewrite <- cos_PI3. apply cos_decr_1; lra.
Qed.

(** X3. Face [index] lies between divider [index] and divider [index + 1]:
    its angle is the mean of theirs, each of them is half a step away, and
    consecutive dividers are one step apart; [SideBox] uses the same
    angle. *)
Theorem face_between_dividers
    (index radius innerRadius height segments : R) :
  segments <> 0 ->
  let p := Tray.mkProps index radius innerRadius height segments in
  Tray.faceAngle p
  = (Divider.angle segments index + Divider.angle segments (index + 1)) / 2
  /\ Tray.faceAngle p - Divider.angle segments index = Tray.angleStep p / 2
  /\ Divider.angle segments (index + 1) - Tray.faceAngle p
     = Tray.angleStep p / 2
  /\ Divider.angle segments (index + 1) - Divider.angle segments index
     = Tray.angleStep p
  /\ SideBox.faceAngle (SideBox.mkProps index radius height segments)
     = Tray.faceAngle p
  /\ Divider.angle segments segments = 2 * PI.
Proof.
  intros Hs p.
  pose proof (Divider_angle_before_face p Hs) as Hb.
  pose proof (Divider_angle_after_face p Hs) as Ha.
  simpl in Hb, Ha.
  split; [lra | split; [lra | split; [lra | split; [lra | split]]]].
  - rewrite SideBox_faceAngle_spec, Tray_faceAngle_spec. reflexivity.
  - unfold Divider.angle. field. exact Hs.
Qed.

Lemma face_between_dividers_witness :
  7 <> 0 /\
  Tray.faceAngle SeptagonCase.tray
  = (Divider.angle 7 3 + Divider.angle 7 (3 + 1)) / 2.
Proof.
  split; [lra | ].
  apply (face_between_dividers 3 3 1.2 1.5 7). lra.
Defined.

Lemma localToWorld_Divider_box
    (radius innerRadius height segments i : R) (v : Vector3.t) :
  let a := Divider.angle segments i in
  Object3D.localToWorld (Divider.box radius innerRadius height segments i) v
  = Vector3.mk
      (cos a * (Divider.distFromCenter radius innerRadius + Vector3.x v)
       - sin a * Vector3.z v)
      (height / 2 + Vector3.y v)
      (sin a * (Divider.distFromCenter radius innerRadius + Vector3.x v)
       + cos a * Vector3.z v).
Proof.
  intros a.
  unfold Object3D.localToWorld, Object3D.add, Object3D.rotateY, Divider.box,
    Divider.x, Divider.z.
  simpl. fold a. rewrite cos_neg, sin_neg. f_equal; ring.
Qed.

(** X4. A divider is a wall along the ray of its vertex: a point of its box
    lies as far along that ray as the middle of the wall plus its first
    coordinate, and as far to the side of it as its third coordinate.  So
    the wall runs from the inner radius to 0.25 short of the outer radius,
    0.04 thick on either side of the ray. *)
Theorem divider_wall_extent
    (radius innerRadius height segments i : R) (v : Vector3.t) :
  let wall := Divider.box radius innerRadius height segments i in
  let a := Divider.angle segments i in
  Object3D.along a (Object3D.localToWorld wall v)
  = Divider.distFromCenter radius innerRadius + Vector3.x v
  /\ Object3D.side a (Object3D.localToWorld wall v) = Vector3.z v
  /\ Object3D.along a
       (Object3D.localToWorld wall
          (Vector3.mk (- (fst (fst (boxGeometry wall)) / 2)) 0 0))
     = innerRadius
  /\ Object3D.along a
       (Object3D.localToWorld wall
          (Vector3.mk (fst (fst (boxGeometry wall)) / 2) 0 0))
     = radius - 0.25
  /\ snd (boxGeometry wall) / 2 = 0.04.
Proof.
  intros wall a. unfold wall.
  assert (G : forall q,
             Object3D.along a
               (Object3D.localToWorld
                  (Divider.box radius innerRadius height segments i) q)
             = Divider.distFromCenter radius innerRadius + Vector3.x q).
  { intros q. rewrite localToWorld_Divider_box. fold a.
    rewrite <- (Rplus_0_r a) at 1. rewrite along_turned.
    rewrite cos_0, sin_0. ring. }
  split; [apply G | ].
  split.
  { rewrite localToWorld_Divider_box. fold a.
    rewrite <- (Rplus_0_r a) at 1. rewrite side_turned.
    rewrite cos_0, sin_0. ring. }
  rewrite !G. simpl.
  unfold Divider.distFromCenter, Divider.wallLength. repeat split; lra.
Qed.

Lemma tray_point_sides (p : Tray.props) (d h : R) (v : Vector3.t) :
  Tray.segments p <> 0 ->
  let w := Object3D.localToWorld (Tray.meshAt p d h) v in
  let s := sin (Tray.angleStep p / 2) in
  let c := cos (Tray.angleStep p / 2) in
  Object3D.side (Divider.angle (Tray.segments p) (Tray.index p)) w
  = Vector3.z v * c + (d + Vector3.x v) * s
  /\ Object3D.side (Divider.angle (Tray.segments p) (Tray.index p + 1)) w
     = Vector3.z v * c - (d + Vector3.x v) * s.
Proof.
  intros Hs w s c. unfold w.
  rewrite Divider_angle_before_face, Divider_angle_after_face by exact Hs.
  rewrite localToWorld_meshAt, !side_turned.
  rewrite cos_neg, sin_neg. fold s c. split; ring.
Qed.

(** X5. A tray whose box has a length and a width that are not negative
    fits between the two dividers of its face, at every distance from the
    closed one outwards: with at least three segments, every point of the
    box, which spans half the length and half the width to either side of
    the mesh, is more than 0.04, half the thickness of a divider, to the
    inside of the middle plane of each of the two dividers.  (A negative
    length or width, which the component does not exclude, gives a box as
    large as its absolute value, and that box need not fit.) *)
Theorem tray_clears_dividers
    (p : Tray.props) (d h : R) (v : Vector3.t) :
  3 <= Tray.segments p ->
  0 <= Tray.length p -> 0 <= Tray.width p ->
  Tray.closedDist p <= d ->
  Rabs (Vector3.x v) <= Tray.length p / 2 ->
  Rabs (Vector3.z v) <= Tray.width p / 2 ->
  let w := Object3D.localToWorld (Tray.meshAt p d h) v in
  let before := Divider.angle (Tray.segments p) (Tray.index p) in
  let after := Divider.angle (Tray.segments p) (Tray.index p + 1) in
  0.04 < Object3D.side before w /\ Object3D.side after w < - 0.04.
Proof.
  intros Hs Hlen Hwid Hd Hx Hz w before after.
  destruct (tray_point_sides p d h v ltac:(lra)) as [Eb Ea].
  fold w before in Eb. fold w after in Ea. rewrite Eb, Ea.
  destruct (half_step_sin_cos p Hs) as [Hsin Hcos].
  pose proof (sin_cos_square (Tray.angleStep p / 2)) as Hsc.
  assert (Hr : 0 <= Tray.innerRadius p).
  { unfold Tray.width in Hwid.
    destruct (Rle_lt_dec 0 (Tray.innerRadius p)) as [H | H]; [exact H | ].
    assert (Tray.innerRadius p * sin (Tray.angleStep p / 2) <= 0).
    { rewrite <- (Rmult_0_l (sin (Tray.angleStep p / 2))).
      apply Rmult_le_compat_r; lra. }
    lra. }
  clear Hlen Hwid.
  unfold Tray.width in Hz.
  unfold Tray.closedDist, Tray.startRadius in Hd.
  set (s := sin (Tray.angleStep p / 2)) in *.
  set (c := cos (Tray.angleStep p / 2)) in *.
  set (r := Tray.innerRadius p) in *.
  set (u := d + Vector3.x v).
  assert (Hu : r + 0.1 <= u) by (unfold u; split_Rabs; lra).
  assert (Hv : - (r * s - 0.075) <= Vector3.z v <= r * s - 0.075)
    by (split_Rabs; lra).
  assert (Hc1 : c <= 1) by (apply COS_bound).
  assert (Hus : (r + 0.1) * s <= u * s) by (apply Rmult_le_compat_r; lra).
  assert (Hw : 0 <= r * s - 0.075) by lra.
  assert (Hzc : - ((r * s - 0.075) * c) <= Vector3.z v * c
                <= (r * s - 0.075) * c) by (split; nra).
  assert (Hrs : 0 <= r * s * (1 - c))
    by (apply Rmult_le_pos; [apply Rmult_le_pos | ]; lra).
  assert (Hk : 0.04 < 0.1 * s + 0.075 * c) by nra.
  split; nra.
Qed.

Lemma tray_clears_dividers_witness :
  let p := Tray.mkProps 3 3 1.2 1.5 6 in
  let v := Vector3.mk 0 0 0 in
  3 <= 6 /\ 0 <= Tray.length p /\ 0 <= Tray.width p
  /\ Tray.closedDist p <= 3
  /\ Rabs (Vector3.x v) <= Tray.length p / 2
  /\ Rabs (Vector3.z v) <= Tray.width p / 2
  /\ 0.04 < Object3D.side (Divider.angle 6 3)
              (Object3D.localToWorld (Tray.meshAt p 3 0.75) v).
Proof.
  intros p v.
  assert (Hw : Tray.width p = 1.05).
  { unfold Tray.width, Tray.angleStep, p. simpl.
    replace (PI * 2 / 6 / 2) with (PI / 6) by field.
    rewrite sin_PI6. lra. }
  assert (H1 : 3 <= 6) by lra.
  assert (H2 : 0 <= Tray.length p)
    by (unfold Tray.length, p; simpl; lra).
  assert (H2' : 0 <= Tray.width p) by (rewrite Hw; lra).
  assert (H3 : Tray.closedDist p <= 3)
    by (unfold Tray.closedDist, Tray.startRadius, Tray.length, p; simpl; lra).
  assert (H4 : Rabs (Vector3.x v) <= Tray.length p / 2)
    by (unfold Tray.length, p, v; simpl; rewrite Rabs_R0; lra).
  assert (H5 : Rabs (Vector3.z v) <= Tray.width p / 2)
    by (rewrite Hw; unfold v; simpl; rewrite Rabs_R0; lra).
  split; [exact H1 | split; [exact H2 | split; [exact H2' | ]]].
  split; [exact H3 | split; [exact H4 | split; [exact H5 | ]]].
  apply (tray_clears_dividers p 3 0.75 v H1 H2 H2' H3 H4 H5).
Defined.

(** X6. The more segments, the narrower the tray: for an inner radius that
    is not negative and segment counts [2 <= n <= m], the width with [m]
    segments is at most the width with [n], which is at most the inner
    diameter less the clearance; and the width is never below minus the
    clearance. *)
Theorem width_shrinks_with_segments
    (index radius innerRadius height n m : R) :
  0 <= innerRadius -> 2 <= n <= m ->
  - 0.15 <= Tray.width (Tray.mkProps index radius innerRadius height m)
  /\ Tray.width (Tray.mkProps index radius innerRadius height m)
     <= Tray.width (Tray.mkProps index radius innerRadius height n)
  /\ Tray.width (Tray.mkProps index radius innerRadius height n)
     <= 2 * innerRadius - 0.15.
Proof.
  intros Hr [Hn Hm].
  pose proof PI_RGT_0 as Hpi.
  unfold Tray.width.
  rewrite !Tray_angleStep_half by (simpl; lra). simpl.
  assert (Hin : 0 < / n <= / 2).
  { split; [apply Rinv_0_lt_compat; lra | apply Rinv_le_contravar; lra]. }
  assert (Him : 0 < / m <= / n).
  { split; [apply Rinv_0_lt_compat; lra | apply Rinv_le_contravar; lra]. }
  assert (Hpn : 0 < PI / n <= PI / 2) by (unfold Rdiv; split; nra).
  assert (Hpm : 0 < PI / m <= PI / n) by (unfold Rdiv; split; nra).
  assert (Hsm : 0 < sin (PI / m)) by (apply sin_gt_0; lra).
  assert (Hmn : sin (PI / m) <= sin (PI / n)) by (apply sin_incr_1; lra).
  assert (Hs1 : sin (PI / n) <= 1) by apply SIN_bound.
  repeat split; nra.
Qed.

Lemma width_shrinks_with_segments_witness :
  0 <= 1.2 /\ 2 <= 2 <= 6 /\
  Tray.width (Tray.mkProps 3 3 1.2 1.5 6)
  <= Tray.width (Tray.mkProps 3 3 1.2 1.5 2).
Proof.
  split; [lra | split; [lra | ]].
  apply (width_shrinks_with_segments 3 3 1.2 1.5 2 6); lra.
Defined.

(** ** The side box *)

Lemma SideBox_group_point (p : SideBox.props) (m : mesh) (q : Vector3.t) :
  SideBox.render p = Normal m ->
  let w := Object3D.localToWorld m
             (Object3D.rotateY SideBox.groupRotationY q) in
  Object3D.along (SideBox.faceAngle p) w = SideBox.dist p + Vector3.z q
  /\ Object3D.side (SideBox.faceAngle p) w = - Vector3.x q.
Proof.
  intros Hm w. rewrite SideBox_render_normal in Hm.
  injection Hm as <-. unfold w.
  unfold Object3D.localToWorld, Object3D.add, Object3D.rotateY,
    Object3D.along, Object3D.side, SideBox.groupRotationY.
  simpl. rewrite cos_neg, sin_neg, cos_PI2, sin_PI2.
  set (a := SideBox.faceAngle p).
  pose proof (sin_cos_square a) as H.
  split.
  - replace (cos a *
             (cos a * SideBox.dist p +
              (cos a * (0 * Vector3.x q + 1 * Vector3.z q) +
               - sin a * (- (1) * Vector3.x q + 0 * Vector3.z q))) +
             sin a *
             (sin a * SideBox.dist p +
              (- - sin a * (0 * Vector3.x q + 1 * Vector3.z q) +
               cos a * (- (1) * Vector3.x q + 0 * Vector3.z q))))
      with ((sin a * sin a + cos a * cos a) * (SideBox.dist p + Vector3.z q))
      by ring.
    rewrite H. ring.
  - replace (cos a *
             (sin a * SideBox.dist p +
              (- - sin a * (0 * Vector3.x q + 1 * Vector3.z q) +
               cos a * (- (1) * Vector3.x q + 0 * Vector3.z q))) -
             sin a *
             (cos a * SideBox.dist p +
              (cos a * (0 * Vector3.x q + 1 * Vector3.z q) +
               - sin a * (- (1) * Vector3.x q + 0 * Vector3.z q))))
      with ((sin a * sin a + cos a * cos a) * (- Vector3.x q))
      by ring.
    rewrite H. ring.
Qed.

(** X7. The quarter turn of the inner group puts the third axis of the side
    box along the ray of its face and the first axis across it.  So the
    connection detail, at -0.22 on the third axis, is on the ray, 0.02
    inside the outer radius; and the glowing detail, at 0.76 on the first
    axis, is 0.76 beside the ray, 0.2 beyond the outer radius. *)
Theorem sidebox_parts_placement (p : SideBox.props) :
  exists m,
    SideBox.render p = Normal m
    /\ (let place q := Object3D.localToWorld m
                         (Object3D.rotateY SideBox.groupRotationY q) in
        let a := SideBox.faceAngle p in
        (forall q, Object3D.along a (place q) = SideBox.dist p + Vector3.z q
                   /\ Object3D.side a (place q) = - Vector3.x q)
        /\ Object3D.along a (place SideBox.connectionDetail)
           = SideBox.radius p - 0.02
        /\ Object3D.side a (place SideBox.connectionDetail) = 0
        /\ Object3D.along a (place SideBox.glowingDetail)
           = SideBox.radius p + 0.2
        /\ Object3D.side a (place SideBox.glowingDetail) = - 0.76).
Proof.
  eexists. split; [apply SideBox_render_normal | ].
  intros place a.
  assert (G : forall q,
             Object3D.along a (place q) = SideBox.dist p + Vector3.z q
             /\ Object3D.side a (place q) = - Vector3.x q).
  { intros q. apply (SideBox_group_point p _ q (SideBox_render_normal p)). }
  split; [exact G | ].
  pose proof (G SideBox.connectionDetail) as [G2 G3].
  pose proof (G SideBox.glowingDetail) as [G4 G5].
  unfold SideBox.connectionDetail, SideBox.glowingDetail, SideBox.dist in *.
  simpl in *.
  repeat split; lra.
Qed.

(** ** Runs of frames and clicks *)

Lemma run_cons (p : Tray.props) (e : Tray.event) (es : list Tray.event)
    (s : Tray.state) :
  Tray.run p (e :: es) s = Tray.run p es (Tray.step p s e).
Proof. reflexivity. Qed.

(** X8. Whatever frames come in between, the tray is open after a run
    exactly when it was open before and the number of clicks is even, or it
    was closed and the number is odd; the target of the next frame is the
    open or the closed distance accordingly. *)
Theorem isOpen_counts_clicks
    (p : Tray.props) (es : list Tray.event) (s : Tray.state) :
  Tray.isOpen (Tray.run p es s)
  = xorb (Tray.isOpen s) (Nat.odd (Tray.clicks es))
  /\ Tray.targetDist p (Tray.run p es s)
     = if xorb (Tray.isOpen s) (Nat.odd (Tray.clicks es))
       then Tray.openDist p else Tray.closedDist p.
Proof.
  assert (H : Tray.isOpen (Tray.run p es s)
              = xorb (Tray.isOpen s) (Nat.odd (Tray.clicks es))).
  { revert s. induction es as [ | e es IH]; intros s.
    - simpl. rewrite xorb_false_r. reflexivity.
    - rewrite run_cons, IH. destruct e as [delta | ]; simpl Tray.step.
      + rewrite useFrame_isOpen. reflexivity.
      + cbn [Tray.clicks Tray.onClick Tray.isOpen].
        rewrite Nat.odd_succ, <- Nat.negb_odd.
        destruct (Tray.isOpen s), (Nat.odd (Tray.clicks es)); reflexivity. }
  split; [exact H | ].
  unfold Tray.targetDist. rewrite H. reflexivity.
Qed.

(** X9. Until the mesh is mounted the frame callback does nothing: no run
    of frames and clicks gives an unmounted tray a position, and a run of
    frames alone leaves its state as it is. *)
Theorem frames_before_mount
    (p : Tray.props) (es : list Tray.event) (deltas : list R)
    (s : Tray.state) :
  Tray.meshRef s = None ->
  Tray.meshRef (Tray.run p es s) = None
  /\ Tray.distance (Tray.run p es s) = None
  /\ Tray.run p (Tray.frameList deltas) s = s.
Proof.
  intros Hm.
  assert (H : Tray.meshRef (Tray.run p es s) = None).
  { revert s Hm. induction es as [ | e es IH]; intros s Hm.
    - exact Hm.
    - rewrite run_cons. apply IH. destruct e as [delta | ]; simpl.
      + rewrite (useFrame_unmounted p delta s Hm). exact Hm.
      + exact Hm. }
  split; [exact H | split].
  - unfold Tray.distance. rewrite H. reflexivity.
  - induction deltas as [ | delta deltas IH].
    + reflexivity.
    + unfold Tray.frameList. simpl map. rewrite run_cons. simpl Tray.step.
      rewrite (useFrame_unmounted p delta s Hm). exact IH.
Qed.

Lemma frames_before_mount_witness :
  Tray.meshRef Tray.unmounted = None /\
  Tray.run SeptagonCase.tray (Tray.frameList [1 / 60; 1]) Tray.unmounted
  = Tray.unmounted.
Proof.
  split; [reflexivity | ].
  apply (frames_before_mount SeptagonCase.tray [] [1 / 60; 1] Tray.unmounted).
  reflexivity.
Defined.

(** X10. A frame cannot take the tray off its slide by more than the
    rounding tolerance.  With a target that is not negative and a computed
    factor [delta * 8] between 0 and 1, the distance read back after the
    frame lies between the distance read back before it and the target, up
    to the tolerance; so a tray between its closed and its open distance
    stays between them, up to the tolerance. *)
Theorem frame_stays_on_slide_up_to_rounding
    (u tau Omega : R) (E : Rounded.env) (delta : R) (s : Tray.state)
    (pos : Vector3.t) :
  Rounded.arithmetic u tau Omega (Rounded.rnd E) ->
  Rounded.trigAccurate u E ->
  Tray.meshRef s = Some pos ->
  let c := Rounded.currentDist E pos in
  let t := Rounded.targetDist E s in
  let k := Rounded.rnd E (delta * 8) in
  0 <= t -> 0 <= k <= 1 ->
  4096 * ((c + t + 1) * (c + t + 1)) <= Omega ->
  exists d,
    Rounded.distance E (Rounded.useFrame E delta s) = Some d
    /\ Rmin c t - Rounded.tolerance u tau c t <= d
       <= Rmax c t + Rounded.tolerance u tau c t
    /\ (Rounded.closedDist E <= Rounded.openDist E ->
        Rounded.closedDist E <= c <= Rounded.openDist E ->
        Rounded.closedDist E - Rounded.tolerance u tau c t <= d
        <= Rounded.openDist E + Rounded.tolerance u tau c t).
Proof.
  intros Harith Htrig Hm c t k Ht Hk HO.
  pose proof (currentDist_nonneg_rounded _ _ _ _ Harith pos) as Hc.
  fold c in Hc.
  destruct (tolerance_slack u tau Omega _ c t Harith ltac:(lra))
    as [Hslack _].
  destruct (frame_law _ _ _ _ Harith Htrig t delta pos Ht
              ltac:(fold k; lra) HO) as [_ Hrb].
  fold c k in Hrb.
  rewrite (Rounded_useFrame_mounted E delta s pos Hm).
  unfold Rounded.distance. simpl Tray.meshRef. simpl option_map.
  eexists. split; [reflexivity | ].
  fold c t.
  set (d := Rounded.currentDist E
              (Rounded.onRay E (Rounded.newDist E c t delta)
                             (Vector3.y pos))) in *.
  set (L := (1 - k) * c + k * t) in *.
  assert (HL0 : 0 <= L).
  { unfold L. apply Rplus_le_le_0_compat; apply Rmult_le_pos; lra. }
  rewrite (Rabs_pos_eq _ HL0) in Hrb. apply Rabs_le_both in Hrb.
  assert (Hlo : Rmin c t <= L).
  { replace (Rmin c t) with ((1 - k) * Rmin c t + k * Rmin c t) by ring.
    unfold L. apply Rplus_le_compat; apply Rmult_le_compat_l;
      try lra; [apply Rmin_l | apply Rmin_r]. }
  assert (Hhi : L <= Rmax c t).
  { replace (Rmax c t) with ((1 - k) * Rmax c t + k * Rmax c t) by ring.
    unfold L. apply Rplus_le_compat; apply Rmult_le_compat_l;
      try lra; [apply Rmax_l | apply Rmax_r]. }
  split; [lra | ].
  intros Hco Hcc.
  assert (Htt : Rounded.closedDist E <= t <= Rounded.openDist E).
  { unfold t, Rounded.targetDist. destruct (Tray.isOpen s); lra. }
  assert (Hmin : Rounded.closedDist E <= Rmin c t)
    by (apply Rmin_glb; lra).
  assert (Hmax : Rmax c t <= Rounded.openDist E)
    by (apply Rmax_lub; lra).
  lra.
Qed.

Lemma frame_stays_on_slide_up_to_rounding_witness :
  let E := Rounded.septagon64 in
  let s := Tray.onClick (Rounded.mounted E) in
  let c := Rounded.currentDist E (Rounded.initialPosition E) in
  Rounded.targetDist E s = 3.5
  /\ 0 <= Rounded.rnd E (1 / 60 * 8) <= 1
  /\ exists d,
       Rounded.distance E (Rounded.useFrame E (1 / 60) s) = Some d
       /\ Rmin c 3.5 - Rounded.tolerance Rounded.u64 Rounded.tau64 c 3.5
          <= d
          <= Rmax c 3.5 + Rounded.tolerance Rounded.u64 Rounded.tau64 c 3.5.
Proof.
  intros E s c. subst c. subst s. subst E.
  destruct septagon64_clicked as [Hm [Hc Ht]].
  assert (Hk : 0 <= Rounded.rnd Rounded.septagon64 (1 / 60 * 8) <= 1).
  { pose proof (rnd_unit _ _ _ _ (1 / 60 * 8) septagon64_arithmetic
                  ltac:(lra) Omega64_ge_1).
    lra. }
  split; [exact Ht | split; [exact Hk | ]].
  assert (H1 : 0 <= Rounded.targetDist Rounded.septagon64
                      (Tray.onClick (Rounded.mounted Rounded.septagon64)))
    by (rewrite Ht; lra).
  assert (H3 : 4096 * ((Rounded.currentDist Rounded.septagon64
                          (Rounded.initialPosition Rounded.septagon64)
                        + Rounded.targetDist Rounded.septagon64
                            (Tray.onClick
                               (Rounded.mounted Rounded.septagon64)) + 1)
                       * (Rounded.currentDist Rounded.septagon64
                            (Rounded.initialPosition Rounded.septagon64)
                          + Rounded.targetDist Rounded.septagon64
                              (Tray.onClick
                                 (Rounded.mounted Rounded.septagon64)) + 1))
               <= Rounded.Omega64).
  { rewrite Ht.
    set (c := Rounded.currentDist Rounded.septagon64
                (Rounded.initialPosition Rounded.septagon64)) in *.
    assert (Hsq : (c + 3.5 + 1) * (c + 3.5 + 1) <= 8 * 8)
      by (apply Rmult_le_compat; lra).
    pose proof Omega64_large as HO.
    apply Rle_trans with (2 ^ 40); [ | exact HO].
    apply Rle_trans with (4096 * (8 * 8)); [lra | simpl; lra]. }
  destruct (frame_stays_on_slide_up_to_rounding
              Rounded.u64 Rounded.tau64 Rounded.Omega64 Rounded.septagon64
              (1 / 60) (Tray.onClick (Rounded.mounted Rounded.septagon64))
              (Rounded.initialPosition Rounded.septagon64)
              septagon64_arithmetic septagon64_trigAccurate Hm
              H1 Hk H3) as [d [Hdist [H _]]].
  exists d. split; [exact Hdist | ].
  rewrite Ht in H. exact H.
Defined.

(** [n] frames of one length with a factor between 0 and 1: the gap
    shrinks geometrically down to the floor [F] the rounding leaves, which
    is the tolerance of one frame divided by the factor. *)
Lemma frames_floor (u tau Omega : R) (E : Rounded.env) (delta B F : R)
    (n : nat) (s : Tray.state) (pos : Vector3.t) :
  Rounded.arithmetic u tau Omega (Rounded.rnd E) ->
  Rounded.trigAccurate u E ->
  Tray.meshRef s = Some pos ->
  let c := Rounded.currentDist E pos in
  let t := Rounded.targetDist E s in
  let k := Rounded.rnd E (delta * 8) in
  let T := Rounded.tolerance u tau (2 * B) B in
  0 <= t <= B -> c <= B -> 0 <= k <= 1 -> T <= k * F -> 0 <= F <= B ->
  4096 * ((3 * B + 1) * (3 * B + 1)) <= Omega ->
  exists posn,
    Tray.meshRef (Rounded.run E (Tray.frames n delta) s) = Some posn
    /\ Rounded.targetDist E (Rounded.run E (Tray.frames n delta) s) = t
    /\ Rabs (Rounded.currentDist E posn - t)
       <= (1 - k) ^ n * Rabs (c - t) + (1 - (1 - k) ^ n) * F.
Proof.
  intros Harith Htrig Hm c t k T Ht Hc Hk HTF HF HO.
  pose proof (Rounded.u_range _ _ _ _ Harith) as [Hu0 Hu1].
  pose proof (Rounded.tau_range _ _ _ _ Harith) as [Ht0 Ht1].
  pose proof (currentDist_nonneg_rounded _ _ _ _ Harith pos) as Hc0.
  fold c in Hc0.
  assert (HB : 0 <= B) by lra.
  destruct (tolerance_slack u tau Omega _ (2 * B) B Harith ltac:(lra))
    as [_ HT].
  fold T in HT.
  assert (He0 : Rabs (c - t) <= B) by (split_Rabs; lra).
  induction n as [ | n IH].
  - exists pos. split; [exact Hm | split; [reflexivity | ]].
    fold c. simpl. lra.
  - destruct IH as [posn [Hmn [Htn IHn]]].
    rewrite Rounded_run_frames_S.
    set (sn := Rounded.run E (Tray.frames n delta) s) in *.
    rewrite (Rounded_useFrame_mounted E delta sn posn Hmn).
    rewrite Htn.
    eexists. split; [reflexivity | split].
    { unfold Rounded.targetDist. simpl.
      change (Rounded.targetDist E sn = t). exact Htn. }
    set (cn := Rounded.currentDist E posn) in *.
    pose proof (currentDist_nonneg_rounded _ _ _ _ Harith posn) as Hcn0.
    fold cn in Hcn0.
    destruct (pow_unit (1 - k) n ltac:(lra)) as [Hq0 Hq1].
    set (q := (1 - k) ^ n) in *.
    set (e0 := Rabs (c - t)) in *.
    assert (He00 : 0 <= e0) by apply Rabs_pos.
    assert (Hen : q * e0 + (1 - q) * F <= B).
    { assert (q * e0 <= q * B) by (apply Rmult_le_compat_l; lra).
      assert ((1 - q) * F <= (1 - q) * B)
        by (apply Rmult_le_compat_l; lra).
      lra. }
    assert (Hcn : cn <= 2 * B) by (split_Rabs; lra).
    assert (HOn : 4096 * ((cn + t + 1) * (cn + t + 1)) <= Omega).
    { assert (H1 : (cn + t + 1) * (cn + t + 1)
                   <= (3 * B + 1) * (3 * B + 1))
        by (apply Rmult_le_compat; lra).
      lra. }
    pose proof (gap_step u tau Omega E t delta posn Harith Htrig
                  (proj1 Ht) ltac:(fold k; lra) HOn) as Hg.
    fold cn k in Hg.
    rewrite (Rabs_pos_eq (1 - k)) in Hg by lra.
    assert (Hucn : u * (cn + t) <= u * (2 * B + B))
      by (apply Rmult_le_compat_l; lra).
    assert (Hstep : 1024 * u * (cn + t) + 16 * tau <= T)
      by (unfold T, Rounded.tolerance; lra).
    assert (Hmul : (1 - k) * Rabs (cn - t)
                   <= (1 - k) * (q * e0 + (1 - q) * F))
      by (apply Rmult_le_compat_l; lra).
    eapply Rle_trans; [exact Hg | ].
    replace ((1 - k) ^ S n * e0 + (1 - (1 - k) ^ S n) * F)
      with ((1 - k) * (q * e0 + (1 - q) * F) + k * F)
      by (unfold q; simpl; ring).
    lra.
Qed.

(** X12. Frames of one length bring the tray to its target up to the
    floor the rounding leaves.  With a target that is not negative and a
    computed factor [k = delta * 8] between 0 and 1, the gap after [n]
    frames is at most [(1 - k) ^ n] times the gap at the start plus the
    floor [F], which is at least the tolerance of one frame divided by
    [k]; and when [k] and [F] are positive the gap is at most [2 * F] from
    some frame on. *)
Theorem frames_converge_to_rounding_floor
    (u tau Omega : R) (E : Rounded.env) (delta B F : R) (n : nat)
    (s : Tray.state) (pos : Vector3.t) :
  Rounded.arithmetic u tau Omega (Rounded.rnd E) ->
  Rounded.trigAccurate u E ->
  Tray.meshRef s = Some pos ->
  let c := Rounded.currentDist E pos in
  let t := Rounded.targetDist E s in
  let k := Rounded.rnd E (delta * 8) in
  let T := Rounded.tolerance u tau (2 * B) B in
  0 <= t <= B -> c <= B -> 0 <= k <= 1 -> T <= k * F -> 0 <= F <= B ->
  4096 * ((3 * B + 1) * (3 * B + 1)) <= Omega ->
  Rounded.gap E (Rounded.run E (Tray.frames n delta) s)
    <= (1 - k) ^ n * Rounded.gap E s + F
  /\ (0 < k -> 0 < F ->
      exists N, forall m, (N <= m)%nat ->
        Rounded.gap E (Rounded.run E (Tray.frames m delta) s) <= 2 * F).
Proof.
  intros Harith Htrig Hm c t k T Ht Hc Hk HTF HF HO.
  assert (Hgap0 : Rounded.gap E s = Rabs (c - t)).
  { unfold Rounded.gap. rewrite Hm. reflexivity. }
  assert (Hall : forall m,
             Rounded.gap E (Rounded.run E (Tray.frames m delta) s)
             <= (1 - k) ^ m * Rabs (c - t) + (1 - (1 - k) ^ m) * F).
  { intros m.
    destruct (frames_floor u tau Omega E delta B F m s pos Harith Htrig Hm
                Ht Hc Hk HTF HF HO) as [posm [Hmm [Htm Hlaw]]].
    unfold Rounded.gap. rewrite Hmm, Htm. exact Hlaw. }
  split.
  - rewrite Hgap0. eapply Rle_trans; [apply Hall | ].
    destruct (pow_unit (1 - k) n ltac:(lra)) as [Hq0 Hq1].
    assert ((1 - (1 - k) ^ n) * F <= 1 * F)
      by (apply Rmult_le_compat_r; lra).
    lra.
  - intros Hk0 HF0.
    set (e0 := Rabs (c - t)) in *.
    assert (He0 : 0 <= e0) by apply Rabs_pos.
    assert (Hy : 0 < F / (e0 + 1)) by (apply Rdiv_lt_0_compat; lra).
    destruct (pow_lt_1_zero (1 - k) ltac:(split_Rabs; lra) _ Hy)
      as [N HN].
    exists N. intros m HmN.
    eapply Rle_trans; [apply Hall | ].
    destruct (pow_unit (1 - k) m ltac:(lra)) as [Hq0 Hq1].
    pose proof (HN m HmN) as Hsmall.
    rewrite (Rabs_pos_eq _ Hq0) in Hsmall.
    set (q := (1 - k) ^ m) in *.
    assert (H1 : q * e0 <= F / (e0 + 1) * e0)
      by (apply Rmult_le_compat_r; lra).
    assert (H2 : F / (e0 + 1) * e0 <= F).
    { unfold Rdiv. rewrite Rmult_assoc.
      rewrite <- (Rmult_1_r F) at 2.
      apply Rmult_le_compat_l; [lra | ].
      apply Rmult_le_reg_l with (e0 + 1); [lra | ].
      rewrite <- Rmult_assoc, Rinv_r by lra. lra. }
    assert (H3 : (1 - q) * F <= 1 * F) by (apply Rmult_le_compat_r; lra).
    lra.
Qed.

Lemma frames_converge_to_rounding_floor_witness :
  let E := Rounded.septagon64 in
  let s := Tray.onClick (Rounded.mounted E) in
  Rounded.rnd E (1 / 16 * 8) = 1 / 2
  /\ Rounded.tolerance Rounded.u64 Rounded.tau64 (2 * 4) 4
     <= 1 / 2 * / 2 ^ 19
  /\ Rounded.gap E (Rounded.run E (Tray.frames 20 (1 / 16)) s)
     <= (1 - 1 / 2) ^ 20 * Rounded.gap E s + / 2 ^ 19.
Proof.
  intros E s. subst s. subst E.
  destruct septagon64_clicked as [Hm [Hc Ht]].
  assert (Hk : Rounded.rnd Rounded.septagon64 (1 / 16 * 8) = 1 / 2).
  { change (Rounded.rnd Rounded.septagon64) with Binary64.round.
    replace (1 / 16 * 8) with (powerRZ 2 (-1)) by (simpl; lra).
    rewrite Binary64_round_powerRZ by lia. simpl. lra. }
  assert (H19 : / 2 ^ 19 = 2 * / 2 ^ 20).
  { change (2 ^ 20) with (2 * 2 ^ 19).
    assert (0 < 2 ^ 19) by (apply pow_lt; lra). field. }
  assert (H19' : 0 < / 2 ^ 19 <= 1).
  { split; [apply Rinv_0_lt_compat, pow_lt; lra | ].
    rewrite <- Rinv_1. apply Rinv_le_contravar; [lra | ].
    apply pow_R1_Rle. lra. }
  assert (HT : Rounded.tolerance Rounded.u64 Rounded.tau64 (2 * 4) 4
               <= 1 / 2 * / 2 ^ 19).
  { pose proof (tolerance64_small (2 * 4) 4 ltac:(lra)) as [_ H].
    rewrite H19. lra. }
  split; [exact Hk | split; [exact HT | ]].
  assert (H1 : 0 <= Rounded.targetDist Rounded.septagon64
                      (Tray.onClick (Rounded.mounted Rounded.septagon64))
               <= 4) by (rewrite Ht; lra).
  assert (H2 : Rounded.currentDist Rounded.septagon64
                 (Rounded.initialPosition Rounded.septagon64) <= 4) by lra.
  assert (H3 : 0 <= Rounded.rnd Rounded.septagon64 (1 / 16 * 8) <= 1)
    by (rewrite Hk; lra).
  assert (HT' : Rounded.tolerance Rounded.u64 Rounded.tau64 (2 * 4) 4
                <= Rounded.rnd Rounded.septagon64 (1 / 16 * 8) * / 2 ^ 19)
    by (rewrite Hk; exact HT).
  assert (H4 : 0 <= / 2 ^ 19 <= 4) by lra.
  assert (H5 : 4096 * ((3 * 4 + 1) * (3 * 4 + 1)) <= Rounded.Omega64).
  { pose proof Omega64_large as HO.
    apply Rle_trans with (2 ^ 40); [ | exact HO]. simpl. lra. }
  destruct (frames_converge_to_rounding_floor
              Rounded.u64 Rounded.tau64 Rounded.Omega64 Rounded.septagon64
              (1 / 16) 4 (/ 2 ^ 19) 20
              (Tray.onClick (Rounded.mounted Rounded.septagon64))
              (Rounded.initialPosition Rounded.septagon64)
              septagon64_arithmetic septagon64_trigAccurate Hm
              H1 H2 H3 HT' H4 H5) as [H _].
  rewrite Hk in H. exact H.
Defined.

(** ** The clock from tick to tick *)

Local Open Scope Z_scope.

Lemma timeString_fields (LocalTZA : Z -> Z) (hc : Intl.hourCycle) (time : Z) :
  let t := ClockContent.LocalTime LocalTZA time in
  let str := ClockContent.toLocaleTimeString LocalTZA hc time in
  ClockContent.parseDecimal (substring 0 2 str)
  = Intl.hourField hc (Date.HourFromTime t)
  /\ ClockContent.parseDecimal (substring 3 2 str) = Date.MinFromTime t
  /\ ClockContent.parseDecimal (substring 6 2 str) = Date.SecFromTime t.
Proof.
  intros t str.
  pose proof (HourFromTime_range t) as Hh.
  pose proof (MinFromTime_range t) as Hm.
  pose proof (SecFromTime_range t) as Hs.
  pose proof (hourField_range hc _ Hh) as Hhh.
  destruct (substring_twoDigits (Intl.hourField hc (Date.HourFromTime t))
              (Date.MinFromTime t) (Date.SecFromTime t)) as [S1 [S2 S3]].
  unfold str, ClockContent.toLocaleTimeString. fold t.
  rewrite S1, S2, S3.
  repeat split; apply parseDecimal_twoDigit; lia.
Qed.

Lemma SecFromTime_next (t : Z) :
  Date.SecFromTime (t + 1000) = (Date.SecFromTime t + 1) mod 60.
Proof. unfold Date.SecFromTime, Date.msPerSecond. div_mod_lia. Qed.

(** X14. The clock ticks: when the offset of local time is the same one
    second later, the time string one second later is a different string,
    and its seconds are the seconds before plus one, from 59 back to 0. *)
Theorem tick_changes_time_string
    (LocalTZA : Z -> Z) (hc : Intl.hourCycle) (time : Z) :
  LocalTZA (time + 1000) = LocalTZA time ->
  ClockContent.toLocaleTimeString LocalTZA hc (time + 1000)
  <> ClockContent.toLocaleTimeString LocalTZA hc time
  /\ ClockContent.parseDecimal
       (substring 6 2
          (ClockContent.toLocaleTimeString LocalTZA hc (time + 1000)))
     = (ClockContent.parseDecimal
          (substring 6 2 (ClockContent.toLocaleTimeString LocalTZA hc time))
        + 1) mod 60.
Proof.
  intros Htz.
  destruct (timeString_fields LocalTZA hc time) as [_ [_ S0]].
  destruct (timeString_fields LocalTZA hc (time + 1000)) as [_ [_ S1]].
  assert (E : ClockContent.LocalTime LocalTZA (time + 1000)
              = ClockContent.LocalTime LocalTZA time + 1000)
    by (unfold ClockContent.LocalTime; rewrite Htz; ring).
  rewrite E, SecFromTime_next in S1.
  pose proof (SecFromTime_range (ClockContent.LocalTime LocalTZA time)) as Hr.
  split.
  - intros Heq. rewrite Heq, S0 in S1. revert S1 Hr.
    generalize (Date.SecFromTime (ClockContent.LocalTime LocalTZA time)).
    intros x S1 Hr. div_mod_lia.
  - rewrite S1, S0. reflexivity.
Qed.

Lemma tick_changes_time_string_witness :
  (fun _ : Z => 0) (Date.UTC 2024 0 6 3 5 59 + 1000)
  = (fun _ : Z => 0) (Date.UTC 2024 0 6 3 5 59)
  /\ ClockContent.toLocaleTimeString (fun _ => 0) Intl.h23
       (Date.UTC 2024 0 6 3 5 59 + 1000)
     <> ClockContent.toLocaleTimeString (fun _ => 0) Intl.h23
          (Date.UTC 2024 0 6 3 5 59).
Proof.
  split; [reflexivity | ].
  apply (tick_changes_time_string (fun _ => 0) Intl.h23
           (Date.UTC 2024 0 6 3 5 59)).
  reflexivity.
Defined.

Lemma fields_of_second (t1 t2 : Z) :
  t1 / 1000 = t2 / 1000 ->
  Date.Day t1 = Date.Day t2
  /\ Date.HourFromTime t1 = Date.HourFromTime t2
  /\ Date.MinFromTime t1 = Date.MinFromTime t2
  /\ Date.SecFromTime t1 = Date.SecFromTime t2.
Proof.
  intros H.
  unfold Date.Day, Date.HourFromTime, Date.MinFromTime, Date.SecFromTime,
    Date.msPerDay, Date.msPerHour, Date.msPerMinute, Date.msPerSecond.
  change 86400000 with (1000 * 86400).
  change 3600000 with (1000 * 3600).
  change 60000 with (1000 * 60).
  rewrite <- !Z.div_div by lia. rewrite H. repeat split.
Qed.

Lemma calendar_of_day (t1 t2 : Z) :
  Date.Day t1 = Date.Day t2 ->
  Date.WeekDay t1 = Date.WeekDay t2
  /\ Date.MonthFromTime t1 = Date.MonthFromTime t2
  /\ Date.DateFromTime t1 = Date.DateFromTime t2.
Proof.
  intros H.
  assert (Y : Date.YearFromTime t1 = Date.YearFromTime t2)
    by (unfold Date.YearFromTime; rewrite H; reflexivity).
  assert (L : Date.InLeapYear t1 = Date.InLeapYear t2)
    by (unfold Date.InLeapYear; rewrite Y; reflexivity).
  assert (W : Date.DayWithinYear t1 = Date.DayWithinYear t2)
    by (unfold Date.DayWithinYear; rewrite H, Y; reflexivity).
  assert (M : Date.MonthFromTime t1 = Date.MonthFromTime t2)
    by (unfold Date.MonthFromTime; rewrite W, L; reflexivity).
  split; [unfold Date.WeekDay; rewrite H; reflexivity | ].
  split; [exact M | ].
  unfold Date.DateFromTime. rewrite M, W, L. reflexivity.
Qed.

(** X15. Milliseconds do not show: two instants whose local times fall in
    the same second give the same three strings. *)
Theorem same_second_same_strings
    (LocalTZA : Z -> Z) (hc : Intl.hourCycle) (time1 time2 : Z) :
  ClockContent.LocalTime LocalTZA time1 / 1000
  = ClockContent.LocalTime LocalTZA time2 / 1000 ->
  ClockContent.render LocalTZA hc time1 = ClockContent.render LocalTZA hc time2.
Proof.
  intros H.
  destruct (fields_of_second _ _ H) as [D [Hh [Hm Hs]]].
  destruct (calendar_of_day _ _ D) as [W [M Dt]].
  unfold ClockContent.render, ClockContent.toLocaleDateString_weekday,
    ClockContent.toLocaleTimeString, ClockContent.toLocaleDateString_monthDay.
  cbv zeta. rewrite W, Hh, Hm, Hs, M, Dt. reflexivity.
Qed.

Lemma same_second_same_strings_witness :
  ClockContent.LocalTime (fun _ => 0) (Date.UTC 2024 0 6 3 5 9) / 1000
  = ClockContent.LocalTime (fun _ => 0) (Date.UTC 2024 0 6 3 5 9 + 999) / 1000
  /\ ClockContent.render (fun _ => 0) Intl.h23 (Date.UTC 2024 0 6 3 5 9)
     = ClockContent.render (fun _ => 0) Intl.h23
         (Date.UTC 2024 0 6 3 5 9 + 999).
Proof.
  split; [reflexivity | ].
  apply (same_second_same_strings (fun _ => 0) Intl.h23). reflexivity.
Defined.

Lemma time_of_day_plus_days (t n : Z) :
  Date.Day (t + n * Date.msPerDay) = Date.Day t + n
  /\ Date.HourFromTime (t + n * Date.msPerDay) = Date.HourFromTime t
  /\ Date.MinFromTime (t + n * Date.msPerDay) = Date.MinFromTime t
  /\ Date.SecFromTime (t + n * Date.msPerDay) = Date.SecFromTime t.
Proof.
  unfold Date.Day, Date.HourFromTime, Date.MinFromTime, Date.SecFromTime,
    Date.msPerDay, Date.msPerHour, Date.msPerMinute, Date.msPerSecond.
  split; [rewrite Z.div_add by lia; reflexivity | ].
  replace (t + n * 86400000) with (t + (n * 24) * 3600000) at 1 by ring.
  replace (t + n * 86400000) with (t + (n * 1440) * 60000) at 1 by ring.
  replace (t + n * 86400000) with (t + (n * 86400) * 1000) by ring.
  rewrite !Z.div_add by lia.
  replace (t / 3600000 + n * 24) with (t / 3600000 + n * 24) by ring.
  replace (t / 60000 + n * 1440) with (t / 60000 + (n * 24) * 60) by ring.
  replace (t / 1000 + n * 86400) with (t / 1000 + (n * 1440) * 60) by ring.
  rewrite !Z.mod_add by lia. repeat split.
Qed.

(** X16. The time string is the same a whole number of days later and the
    weekday has moved on by that number of days, so the day string is the
    same after a whole number of weeks (the offset of local time being the
    same at both instants). *)
Theorem clock_periods
    (LocalTZA : Z -> Z) (hc : Intl.hourCycle) (time days : Z) :
  LocalTZA (time + days * Date.msPerDay) = LocalTZA time ->
  let later := time + days * Date.msPerDay in
  ClockContent.toLocaleTimeString LocalTZA hc later
  = ClockContent.toLocaleTimeString LocalTZA hc time
  /\ Date.WeekDay (ClockContent.LocalTime LocalTZA later)
     = (Date.WeekDay (ClockContent.LocalTime LocalTZA time) + days) mod 7
  /\ (days mod 7 = 0 ->
      ClockContent.toLocaleDateString_weekday LocalTZA later
      = ClockContent.toLocaleDateString_weekday LocalTZA time).
Proof.
  intros Htz later.
  assert (E : ClockContent.LocalTime LocalTZA later
              = ClockContent.LocalTime LocalTZA time + days * Date.msPerDay)
    by (unfold ClockContent.LocalTime, later; rewrite Htz; ring).
  destruct (time_of_day_plus_days (ClockContent.LocalTime LocalTZA time) days)
    as [D [Hh [Hm Hs]]].
  assert (W : Date.WeekDay (ClockContent.LocalTime LocalTZA later)
              = (Date.WeekDay (ClockContent.LocalTime LocalTZA time) + days)
                mod 7).
  { rewrite E. unfold Date.WeekDay. rewrite D.
    generalize (Date.Day (ClockContent.LocalTime LocalTZA time)). intros d.
    div_mod_lia. }
  split; [ | split; [exact W | ]].
  - unfold ClockContent.toLocaleTimeString. cbv zeta.
    rewrite E, Hh, Hm, Hs. reflexivity.
  - intros H7. unfold ClockContent.toLocaleDateString_weekday.
    rewrite W. f_equal.
    pose proof (WeekDay_range (ClockContent.LocalTime LocalTZA time)) as Hr.
    revert Hr.
    generalize (Date.WeekDay (ClockContent.LocalTime LocalTZA time)).
    intros w Hr. div_mod_lia.
Qed.

Lemma clock_periods_witness :
  (fun _ : Z => 0) (Date.UTC 2024 0 6 3 5 9 + 7 * Date.msPerDay)
  = (fun _ : Z => 0) (Date.UTC 2024 0 6 3 5 9)
  /\ ClockContent.toLocaleTimeString (fun _ => 0) Intl.h23
       (Date.UTC 2024 0 6 3 5 9 + 7 * Date.msPerDay)
     = ClockContent.toLocaleTimeString (fun _ => 0) Intl.h23
         (Date.UTC 2024 0 6 3 5 9).
Proof.
  split; [reflexivity | ].
  apply (clock_periods (fun _ => 0) Intl.h23 (Date.UTC 2024 0 6 3 5 9) 7).
  reflexivity.
Defined.

Lemma DateFromTime_in_month (t : Z) :
  1 <= Date.DateFromTime t
  <= Date.daysInMonth (Date.MonthFromTime t) (Date.InLeapYear t).
Proof.
  pose proof (DayWithinYear_range t) as Hd.
  pose proof (InLeapYear_cases t) as Hl.
  unfold Date.DateFromTime, Date.MonthFromTime. cbv zeta.
  revert Hd Hl.
  generalize (Date.DayWithinYear t) (Date.InLeapYear t). intros d l Hd Hl.
  repeat match goal with
         | |- context [if ?a <? ?b then _ else _] =>
             destruct (Z.ltb_spec a b)
         end; cbn [Date.daysInMonth]; lia.
Qed.

(** X18. The date string is a date of the calendar: the day it shows is at
    least 1 and at most the length of the month it shows, 28 or 29 for
    February according to the year, and never more than 31; the numeral
    reads back as that day. *)
Theorem date_string_is_a_calendar_date (LocalTZA : Z -> Z) (time : Z) :
  let t := ClockContent.LocalTime LocalTZA time in
  let month := Date.MonthFromTime t in
  let day := Date.DateFromTime t in
  ClockContent.toLocaleDateString_monthDay LocalTZA time
  = (nth (Z.to_nat month) Intl.monthsShort EmptyString ++ " "
     ++ Intl.numeric day)%string
  /\ ClockContent.parseDecimal (Intl.numeric day) = day
  /\ 0 <= month <= 11
  /\ 1 <= day <= Date.daysInMonth month (Date.InLeapYear t)
  /\ Date.daysInMonth month (Date.InLeapYear t) <= 31
  /\ (month = 1 -> day <= 28 + Date.InLeapYear t)
  /\ Date.InLeapYear t
     = (if Date.DaysInYear (Date.YearFromTime t) =? 366 then 1 else 0).
Proof.
  intros t month day.
  pose proof (MonthFromTime_range t) as Hm. fold month in Hm.
  pose proof (DateFromTime_in_month t) as Hd. fold month day in Hd.
  pose proof (InLeapYear_cases t) as Hl.
  split.
  { unfold ClockContent.toLocaleDateString_monthDay. cbv zeta. fold t.
    fold month day. rewrite (monthShort_nth month Hm). reflexivity. }
  assert (H31 : Date.daysInMonth month (Date.InLeapYear t) <= 31).
  { assert (C : month = 0 \/ month = 1 \/ month = 2 \/ month = 3 \/ month = 4
                \/ month = 5 \/ month = 6 \/ month = 7 \/ month = 8
                \/ month = 9 \/ month = 10 \/ month = 11) by lia.
    destruct C as
      [-> | [-> | [-> | [-> | [-> | [-> | [-> | [-> | [-> | [-> | [-> | ->]]]]]]]]]]];
      cbn [Date.daysInMonth]; lia. }
  split; [apply parseDecimal_numeric; lia | ].
  split; [exact Hm | split; [exact Hd | split; [exact H31 | split]]].
  - intros E. rewrite E in Hd. cbn [Date.daysInMonth] in Hd. lia.
  - reflexivity.
Qed.

Local Open Scope R_scope.

(** The walls of the case: seven of them, the one at place [k] on the ray of
    vertex [k]; the tray of the case, on face 3, has walls 3 and 4 half a
    step to either side. *)
Lemma septagon_dividers :
  List.length SeptagonCase.dividers = 7%nat
  /\ (forall k, (k < 7)%nat ->
        nth k SeptagonCase.dividers
            (Divider.box 0 0 0 1 0)
        = Divider.box SeptagonCase.radius SeptagonCase.innerRadius
            SeptagonCase.height SeptagonCase.segments (INR k))
  /\ Divider.angle SeptagonCase.segments (INR 3)
     = Tray.faceAngle SeptagonCase.tray - Tray.angleStep SeptagonCase.tray / 2
  /\ Divider.angle SeptagonCase.segments (INR 4)
     = Tray.faceAngle SeptagonCase.tray + Tray.angleStep SeptagonCase.tray / 2.
Proof.
  split; [reflexivity | split; [ | split]].
  - intros k Hk.
    do 7 (destruct k as [ | k]; [reflexivity | ]). lia.
  - unfold Divider.angle, Tray.faceAngle, Tray.angleStep. simpl.
    unfold SeptagonCase.segments. lra.
  - unfold Divider.angle, Tray.faceAngle, Tray.angleStep. simpl.
    unfold SeptagonCase.segments. lra.
Qed.
